(** * ui-binder: directive parsing and dispatch core

    A shallow embedding of the name codec ([utils/properties.js]), the
    modifier and directive-value grammars ([models/directive-parser]), the
    element scanner ([parseDirectives]), the validators, the [HandlerContext]
    lifecycle and the binding table of [BridgeBase], followed by the
    properties proved of them.

    Conventions of the embedding.
    - A JavaScript string is a sequence of UTF-16 code units.  The development
      works with the code units below 256, written as Rocq [ascii] characters;
      [toLowerCase], [trim] and the character classes are the JavaScript ones
      on that range.
    - A number is the exact value of the literal it was read from; rounding to
      a double is left out.
    - A JavaScript [Map] is insertion ordered with unique keys: it is an
      association list, updated in place by [Map_set].
    - [console.warn] is a log: the parsing functions return their diagnostics
      next to their result, the runtime keeps a console.
    - Objects that are shared and mutated (handler contexts, abort signals)
      live in a store and are referred to by index; closures passed in from
      outside act on a world of their own and return or throw. *)

From Stdlib Require Import Strings.String Strings.Ascii List Bool Arith Lia.
From Stdlib Require Import ZArith NArith QArith Qreduction DecimalString.
Import ListNotations.

Local Close Scope Q_scope.
Local Open Scope nat_scope.
Local Open Scope string_scope.
Local Open Scope list_scope.

(** ** JavaScript string operations *)

Module JsString.

Definition char_code (c : ascii) : nat := nat_of_ascii c.

Definition in_range (lo hi : nat) (c : ascii) : bool :=
  (lo <=? char_code c)%nat && (char_code c <=? hi)%nat.

(** The character classes of the regular expressions in the source. *)
Definition is_upper (c : ascii) : bool := in_range 65 90 c.      (* [A-Z] *)
Definition is_lower (c : ascii) : bool := in_range 97 122 c.     (* [a-z] *)
Definition is_digit (c : ascii) : bool := in_range 48 57 c.      (* [0-9] *)
Definition is_letter (c : ascii) : bool := is_upper c || is_lower c. (* [a-z] with flag i *)
Definition is_alnum (c : ascii) : bool := is_letter c || is_digit c.

(** [String.prototype.toLowerCase] and [toUpperCase] on one code unit below
    256: the ASCII letters, and for lower-casing the Latin-1 capitals
    U+00C0..U+00DE without the multiplication sign U+00D7. *)
Definition lower_char (c : ascii) : ascii :=
  if is_upper c then ascii_of_nat (char_code c + 32)
  else if in_range 192 222 c && negb (char_code c =? 215)%nat
       then ascii_of_nat (char_code c + 32)
       else c.

(** [toUpperCase] is only ever applied to a character matched by [[a-z]] under
    flag [i], that is an ASCII letter. *)
Definition upper_char (c : ascii) : ascii :=
  if is_lower c then ascii_of_nat (char_code c - 32) else c.

Fixpoint map_chars (f : ascii -> ascii) (s : string) : string :=
  match s with
  | EmptyString => EmptyString
  | String c s' => String (f c) (map_chars f s')
  end.

Definition toLowerCase (s : string) : string := map_chars lower_char s.

(** [s.replace(/c/g, f(c))] for a one-character class: every character is
    replaced by the string [f] gives for it. *)
Fixpoint expand_chars (f : ascii -> string) (s : string) : string :=
  match s with
  | EmptyString => EmptyString
  | String c s' => f c ++ expand_chars f s'
  end.

Fixpoint startsWith (s p : string) {struct p} : bool :=
  match p with
  | EmptyString => true
  | String a p' =>
      match s with
      | EmptyString => false
      | String b s' => Ascii.eqb b a && startsWith s' p'
      end
  end.

(** [s.substring(n)] and [s.slice(n)] for [0 <= n]. *)
Fixpoint drop (n : nat) (s : string) : string :=
  match n, s with
  | O, _ => s
  | S _, EmptyString => EmptyString
  | S k, String _ s' => drop k s'
  end.

(** [s.slice(0, n)] for [0 <= n]. *)
Fixpoint take (n : nat) (s : string) : string :=
  match n, s with
  | O, _ => EmptyString
  | S _, EmptyString => EmptyString
  | S k, String c s' => String c (take k s')
  end.

Fixpoint includes (s pat : string) : bool :=
  startsWith s pat ||
  match s with
  | EmptyString => false
  | String _ s' => includes s' pat
  end.

(** [s.indexOf(c)] for a one-character needle; [None] is the source's [-1]. *)
Fixpoint indexOf (c : ascii) (s : string) : option nat :=
  match s with
  | EmptyString => None
  | String d s' =>
      if Ascii.eqb d c then Some O
      else match indexOf c s' with
           | Some i => Some (S i)
           | None => None
           end
  end.

Fixpoint lastIndexOf (c : ascii) (s : string) : option nat :=
  match s with
  | EmptyString => None
  | String d s' =>
      match lastIndexOf c s' with
      | Some i => Some (S i)
      | None => if Ascii.eqb d c then Some O else None
      end
  end.

(** [s.replace(/pat/g, rep)] for a literal, non-empty pattern: matches are
    taken left to right and do not overlap.  [skip] counts the characters of
    the current match that are still to be passed over. *)
Fixpoint replaceAll_from (skip : nat) (pat rep s : string) : string :=
  match s with
  | EmptyString => EmptyString
  | String c s' =>
      match skip with
      | S k => replaceAll_from k pat rep s'
      | O =>
          if startsWith s pat
          then rep ++ replaceAll_from (String.length pat - 1) pat rep s'
          else String c (replaceAll_from 0 pat rep s')
      end
  end.

Definition replaceAll (pat rep s : string) : string :=
  replaceAll_from 0 pat rep s.

(** [s.split(sep)] for a non-empty separator: the pair is the token being
    read and the tokens after it. *)
Fixpoint split_from (skip : nat) (sep s : string) : string * list string :=
  match s with
  | EmptyString => (EmptyString, [])
  | String c s' =>
      match skip with
      | S k => split_from k sep s'
      | O =>
          if startsWith s sep
          then let (t, ts) := split_from (String.length sep - 1) sep s' in
               (EmptyString, t :: ts)
          else let (t, ts) := split_from 0 sep s' in
               (String c t, ts)
      end
  end.

Definition split (sep s : string) : list string :=
  let (t, ts) := split_from 0 sep s in t :: ts.

(** [parts.join(sep)]. *)
Definition join (sep : string) (parts : list string) : string :=
  String.concat sep parts.

(** White space of [String.prototype.trim] below code unit 256: TAB, LF, VT,
    FF, CR, SPACE and NO-BREAK SPACE. *)
Definition is_space (c : ascii) : bool :=
  in_range 9 13 c || (char_code c =? 32)%nat || (char_code c =? 160)%nat.

Fixpoint trimStart (s : string) : string :=
  match s with
  | EmptyString => EmptyString
  | String c s' => if is_space c then trimStart s' else s
  end.

Fixpoint trimEnd (s : string) : string :=
  match s with
  | EmptyString => EmptyString
  | String c s' =>
      match trimEnd s' with
      | EmptyString => if is_space c then EmptyString else String c EmptyString
      | t => String c t
      end
  end.

Definition trim (s : string) : string := trimEnd (trimStart s).

Fixpoint endsWith_char (s : string) (c : ascii) : bool :=
  match s with
  | EmptyString => false
  | String d EmptyString => Ascii.eqb d c
  | String _ s' => endsWith_char s' c
  end.

Fixpoint all_chars (p : ascii -> bool) (s : string) : bool :=
  match s with
  | EmptyString => true
  | String c s' => p c && all_chars p s'
  end.

(** The longest prefix of [s] whose characters satisfy [p], and the rest:
    what a greedy run [[class]*] at the start of a pattern matches. *)
Fixpoint span (p : ascii -> bool) (s : string) : string * string :=
  match s with
  | EmptyString => (EmptyString, EmptyString)
  | String c s' =>
      if p c then let (a, b) := span p s' in (String c a, b)
      else (EmptyString, s)
  end.

(** A character that does not occur in a string. *)
Definition absent (c : ascii) (s : string) : bool :=
  all_chars (fun x => negb (Ascii.eqb x c)) s.

End JsString.

Import JsString.

(** ** Name codec ([utils/properties.js]) *)

Definition DOT_MARKER : string := "__DOT_MARKER__".

Definition default_prefix : string := "data-".

(** [s.replace(/-([a-z])/gi, g => g[1].toUpperCase())]. *)
Fixpoint kebabToCamel (s : string) : string :=
  match s with
  | EmptyString => EmptyString
  | String c s' =>
      if Ascii.eqb c "-"
      then match s' with
           | String x s'' =>
               if is_letter x then String (upper_char x) (kebabToCamel s'')
               else String c (kebabToCamel s')
           | EmptyString => String c EmptyString
           end
      else String c (kebabToCamel s')
  end.

(** The treatment of one sub-part (and of a segment without ["--"]): a
    sub-part of length 1 passes through, any other is camel-cased. *)
Definition convertSubpart (subpart : string) : string :=
  if (String.length subpart =? 1)%nat then subpart else kebabToCamel subpart.

(** The body of the loop over the dot-separated segments. *)
Definition convertPart (part : string) : string :=
  if includes part "--"
  then join "-" (map convertSubpart (split "--" part))
  else convertSubpart part.

Definition attributeNameToPropertyName (attrName prefix : string) : string :=
  if negb (startsWith attrName prefix) then attrName
  else
    let result := drop (String.length prefix) attrName in
    let result := replaceAll ".." DOT_MARKER result in
    let parts := split "." result in
    let parts := map convertPart parts in
    let result := join "." parts in
    replaceAll DOT_MARKER ".." result.

(** The [input] of [propertyNameToAttributeName] is a string or an array. *)
Inductive PathInput : Type :=
  | PathString (s : string)
  | PathArray (path : list string).

(** One pass of the loop body of [propertyNameToAttributeName]. *)
Definition encodeProp (prop : string) : string :=
  let prop := replaceAll "-" "--" prop in
  let prop := replaceAll "." ".." prop in
  let prop := expand_chars
                (fun c => if is_upper c then String "-" (String c EmptyString)
                          else String c EmptyString) prop in
  toLowerCase prop.

Definition propertyNameToAttributeName (input : PathInput) (prefix : string) : string :=
  let propPath := match input with
                  | PathArray path => path
                  | PathString s => split "." s
                  end in
  prefix ++ join "." (map encodeProp propPath).

(** What [encodeProp] does to one character of a name without hyphens and
    dots. *)
Definition encodeChar (c : ascii) : string :=
  if is_upper c then String "-" (String (lower_char c) EmptyString)
  else String (lower_char c) EmptyString.

(** A camelCase property name without leading digits: letters and digits,
    the first of which is not a digit. *)
Definition camelCaseName (n : string) : Prop :=
  all_chars is_alnum n = true /\
  match n with
  | String c _ => is_digit c = false
  | EmptyString => True
  end.

(** [propertyNameToPath] and [pathToPropertyName]. *)
Definition propertyNameToPath (propertyName : string) : list string :=
  let p := replaceAll ".." DOT_MARKER propertyName in
  map (replaceAll DOT_MARKER ".") (split "." p).

Definition pathToPropertyName (path : list string) : string :=
  replaceAll DOT_MARKER ".." (join "." (map (replaceAll "." DOT_MARKER) path)).

(** ** JavaScript numbers and [Number(string)]

    A number is kept as the exact mathematical value of the numeric literal it
    was read from; the rounding of that value to an IEEE double (and with it
    overflow to infinity and underflow to zero) is not part of the model.
    [NaN] arises from the grammar only, so [isNaN] is exact. *)

Inductive JsNumber : Type :=
  | NaN
  | Infinite (negative : bool)
  | Finite (negative : bool) (magnitude : Q).

Definition isNaN (n : JsNumber) : bool :=
  match n with NaN => true | _ => false end.

Definition JsInt (z : Z) : JsNumber :=
  Finite (z <? 0)%Z (Qred (inject_Z (Z.abs z))).

Module NumberSyntax.

Definition digit_value (c : ascii) : N :=
  if is_digit c then N.of_nat (char_code c - 48)
  else if in_range 97 102 c then N.of_nat (char_code c - 87)
  else if in_range 65 70 c then N.of_nat (char_code c - 55)
  else 0%N.

Definition is_hex_digit (c : ascii) : bool :=
  is_digit c || in_range 97 102 c || in_range 65 70 c.
Definition is_octal_digit (c : ascii) : bool := in_range 48 55 c.
Definition is_binary_digit (c : ascii) : bool := in_range 48 49 c.

(** The value of a digit string in the given radix, most significant first. *)
Fixpoint digits_value_acc (radix acc : N) (s : string) : N :=
  match s with
  | EmptyString => acc
  | String c s' => digits_value_acc radix (acc * radix + digit_value c)%N s'
  end.

Definition digits_value (radix : N) (s : string) : N :=
  digits_value_acc radix 0%N s.

(** [m * 10 ^ e] as a reduced fraction. *)
Definition scale10 (m : N) (e : Z) : Q :=
  if (0 <=? e)%Z
  then Qred (inject_Z (Z.of_N m * 10 ^ e))
  else Qred (Qmake (Z.of_N m) (Z.to_pos (10 ^ (- e)))).

(** ExponentPart: [e] or [E], an optional sign, at least one digit, and
    nothing after it.  No exponent part is exponent 0. *)
Definition exponent_part (s : string) : option Z :=
  match s with
  | EmptyString => Some 0%Z
  | String c r =>
      if Ascii.eqb c "e" || Ascii.eqb c "E"
      then
        let '(neg, r) :=
          match r with
          | String sg r' =>
              if Ascii.eqb sg "-" then (true, r')
              else if Ascii.eqb sg "+" then (false, r')
              else (false, r)
          | EmptyString => (false, r)
          end in
        let (ds, rest) := span is_digit r in
        match ds, rest with
        | String _ _, EmptyString =>
            let v := Z.of_N (digits_value 10 ds) in
            Some (if neg then (- v)%Z else v)
        | _, _ => None
        end
      else None
  end.

(** StrUnsignedDecimalLiteral: [Infinity], [D+ . D* exp?], [. D+ exp?] or
    [D+ exp?]. *)
Definition unsigned_decimal (negative : bool) (s : string) : JsNumber :=
  if String.eqb s "Infinity" then Infinite negative
  else
    let (ip, r1) := span is_digit s in
    let '(fp, r2) :=
      match r1 with
      | String c r =>
          if Ascii.eqb c "." then span is_digit r else (EmptyString, r1)
      | EmptyString => (EmptyString, r1)
      end in
    match (ip ++ fp)%string with
    | EmptyString => NaN
    | String _ _ =>
        match exponent_part r2 with
        | Some e =>
            Finite negative
              (scale10 (digits_value 10 (ip ++ fp))
                       (e - Z.of_nat (String.length fp)))
        | None => NaN
        end
    end.

(** NonDecimalIntegerLiteral: [0x], [0o] or [0b] (either case) and at least
    one digit of that radix; it takes no sign. *)
Definition non_decimal (s : string) : option JsNumber :=
  match s with
  | String z (String k ds) =>
      if Ascii.eqb z "0"
      then
        let radix :=
          if Ascii.eqb k "x" || Ascii.eqb k "X" then Some (16%N, is_hex_digit)
          else if Ascii.eqb k "o" || Ascii.eqb k "O" then Some (8%N, is_octal_digit)
          else if Ascii.eqb k "b" || Ascii.eqb k "B" then Some (2%N, is_binary_digit)
          else None in
        match radix with
        | Some (r, ok) =>
            match ds with
            | EmptyString => Some NaN
            | String _ _ =>
                if all_chars ok ds
                then Some (Finite false (Qred (inject_Z (Z.of_N (digits_value r ds)))))
                else Some NaN
            end
        | None => None
        end
      else None
  | _ => None
  end.

End NumberSyntax.

(** [Number(s)] on a string (StringToNumber): white space around the literal
    is dropped, the empty literal is [+0]. *)
Definition Number (s : string) : JsNumber :=
  let s := trim s in
  match s with
  | EmptyString => Finite false 0
  | String c r =>
      match NumberSyntax.non_decimal s with
      | Some n => n
      | None =>
          if Ascii.eqb c "-" then NumberSyntax.unsigned_decimal true r
          else if Ascii.eqb c "+" then NumberSyntax.unsigned_decimal false r
          else NumberSyntax.unsigned_decimal false s
      end
  end.

(** ** Maps

    [Map_set] keeps the position of a key that is already present and replaces
    its value; a new key goes to the end. *)

Section JsMap.
Context {K V : Type}.
Variable key_eqb : K -> K -> bool.

Fixpoint Map_get (k : K) (m : list (K * V)) : option V :=
  match m with
  | [] => None
  | (k', v) :: m' => if key_eqb k' k then Some v else Map_get k m'
  end.

Definition Map_has (k : K) (m : list (K * V)) : bool :=
  match Map_get k m with Some _ => true | None => false end.

Fixpoint Map_set (k : K) (v : V) (m : list (K * V)) : list (K * V) :=
  match m with
  | [] => [(k, v)]
  | (k', v') :: m' =>
      if key_eqb k' k then (k, v) :: m' else (k', v') :: Map_set k v m'
  end.

Fixpoint Map_delete (k : K) (m : list (K * V)) : list (K * V) :=
  match m with
  | [] => []
  | (k', v') :: m' =>
      if key_eqb k' k then m' else (k', v') :: Map_delete k m'
  end.
End JsMap.

(** ** Directive values ([models/directive-value.js]) *)

Inductive ArgValue : Type :=
  | ArgNumber (n : JsNumber)
  | ArgBoolean (b : bool)
  | ArgString (s : string).

Definition Modifier : Type := (string * list ArgValue)%type.

Record DirectiveValue : Type := mkDirectiveValue {
  target : string;
  domProperty : string;
  event : string;
  eventModifiers : list (string * list ArgValue)
}.

Definition new_DirectiveValue : DirectiveValue :=
  mkDirectiveValue "" "" "" [].

Definition targetParts (d : DirectiveValue) : list string :=
  propertyNameToPath (target d).

Definition domPropertyParts (d : DirectiveValue) : list string :=
  propertyNameToPath (domProperty d).

(** [for (let [name, args] of modifiers) eventModifiers.set(name, args)]. *)
Definition setModifiers (modifiers : list Modifier)
    (m : list (string * list ArgValue)) : list (string * list ArgValue) :=
  fold_left (fun acc p => Map_set String.eqb (fst p) (snd p) acc) modifiers m.

(** ** Modifier grammar ([parseModifiersString]) *)

Definition squote : ascii := ascii_of_nat 39.
Definition dquote : ascii := ascii_of_nat 34.

(** [arg.slice(1, -1)]. *)
Definition slice_1_m1 (s : string) : string :=
  take (String.length s - 2) (drop 1 s).

Definition quoted_by (q : ascii) (arg : string) : bool :=
  startsWith arg (String q EmptyString) && endsWith_char arg q.

(** The callback of [match[2].split(',').map(...)]. *)
Definition coerceArg (arg : string) : ArgValue :=
  let arg := trim arg in
  if negb (isNaN (Number arg)) && negb (String.eqb arg "") then ArgNumber (Number arg)
  else if String.eqb (toLowerCase arg) "true" then ArgBoolean true
  else if String.eqb (toLowerCase arg) "false" then ArgBoolean false
  else if quoted_by squote arg || quoted_by dquote arg then ArgString (slice_1_m1 arg)
  else ArgString arg.

(** A string that does not begin with a character of the class [p]. *)
Definition starts_outside (p : ascii -> bool) (s : string) : Prop :=
  match s with
  | String c _ => p c = false
  | EmptyString => True
  end.

(** [[A-Za-z0-9_-]]. *)
Definition is_name_char (c : ascii) : bool :=
  is_alnum c || Ascii.eqb c "_" || Ascii.eqb c "-".

(** [token.match(re)] for the anchored modifier pattern: group 1 is the name,
    the longest run of name characters, which must not be empty; the optional
    group 2 is present when an opening parenthesis follows the name and a
    closing one follows the run of characters other than the closing
    parenthesis after it.  Nothing is required of what follows the match. *)
Definition matchModifier (token : string) : option (string * option string) :=
  let (name, rest) := span is_name_char token in
  match name with
  | EmptyString => None
  | String _ _ =>
      Some (name,
            match rest with
            | String c r =>
                if Ascii.eqb c "("
                then let (inner, r') := span (fun x => negb (Ascii.eqb x ")")) r in
                     match r' with
                     | String _ _ => Some inner
                     | EmptyString => None
                     end
                else None
            | EmptyString => None
            end)
  end.

(** [match[2] ? match[2].split(',').map(...) : []]: an absent group and an
    empty one both give no arguments. *)
Definition modifierArgs (group : option string) : list ArgValue :=
  match group with
  | Some (String c r) => map coerceArg (split "," (String c r))
  | _ => []
  end.

Definition non_empty (s : string) : bool := negb (String.length s =? 0)%nat.

Definition parseModifierToken (token : string) : list Modifier :=
  match matchModifier token with
  | Some (name, group) => [(name, modifierArgs group)]
  | None => []
  end.

Definition parseModifiersString (str : string) : list Modifier :=
  let tokens := filter non_empty (split "#" str) in
  flat_map parseModifierToken tokens.

(** ** Diagnostics

    One constructor per [console.warn] call site of the parsing code, carrying
    the values interpolated into its message. *)

Inductive Diagnostic : Type :=
  | UnexpectedCharacters (rest : string)
  | CouldNotParseTarget (value : string)
  | ModelNotValid (tagName : string) (type : string)
  | ClassConflict (ignored : list string).

Definition decimal (n : nat) : string :=
  NilEmpty.string_of_uint (Nat.to_uint n).

Definition dq : string := String dquote EmptyString.

(** The text handed to [console.warn]. *)
Definition message (d : Diagnostic) : string :=
  match d with
  | UnexpectedCharacters rest =>
      "Unexpected characters in directive value after target: " ++ dq ++ rest ++ dq
  | CouldNotParseTarget value =>
      "Could not parse target from directive value: " ++ dq ++ value ++ dq
  | ModelNotValid tagName type =>
      "data-m is not valid on " ++ tagName ++
      (if non_empty type then "[type=" ++ dq ++ type ++ dq ++ "]" else "")
  | ClassConflict ignored =>
      "Element has both data-c and " ++ decimal (List.length ignored) ++
      " data-c-* attributes. Only data-c will be used. Ignored attributes: " ++
      join ", " ignored
  end.

(** ** Directive value grammars *)

(** [[A-Za-z0-9_.$-]], the target class of the simple grammar. *)
Definition is_target_char (c : ascii) : bool :=
  is_alnum c || Ascii.eqb c "_" || Ascii.eqb c "." || Ascii.eqb c "$" || Ascii.eqb c "-".

(** [parseDirectiveValue]: the anchored target pattern is a run of target
    characters followed by a run of a sub-class of them, so its match is the
    longest run of target characters. *)
Definition parseDirectiveValue (value : string) : DirectiveValue * list Diagnostic :=
  let rest := trim value in
  let (tgt, rest) := span is_target_char rest in
  let mods :=
    match rest with
    | String c r => if Ascii.eqb c "#" then setModifiers (parseModifiersString r) [] else []
    | EmptyString => []
    end in
  let warn1 :=
    if startsWith rest "#" then []
    else if non_empty rest && non_empty tgt then [UnexpectedCharacters rest]
    else [] in
  let warn2 := if non_empty tgt then [] else [CouldNotParseTarget value] in
  (mkDirectiveValue tgt "" "" mods, warn1 ++ warn2).

Definition parseAttributeDirective := parseDirectiveValue.
Definition parsePropertyDirective := parseDirectiveValue.
Definition parseBehaviorDirective := parseDirectiveValue.

(** [parseModelDirective]. *)
Definition parseModelDirective (value : string) : DirectiveValue :=
  let rest := value in
  (* 1. event: after the last "@" *)
  let '(evt, rest) :=
    match lastIndexOf "@" rest with
    | Some atIndex => (drop (atIndex + 1) rest, take atIndex rest)
    | None => ("", rest)
    end in
  (* 2. modifiers: after the first "#" *)
  let '(modifiersStr, rest) :=
    match indexOf "#" rest with
    | Some hashIndex => (drop (hashIndex + 1) rest, take hashIndex rest)
    | None => ("", rest)
    end in
  (* 3. target and domProperty around the first ":" *)
  let '(tgt, dom) :=
    match indexOf ":" rest with
    | Some colonIndex => (take colonIndex rest, drop (colonIndex + 1) rest)
    | None => (rest, "")
    end in
  (* 4. modifiers, when the modifier string is not empty *)
  let mods :=
    if non_empty modifiersStr
    then setModifiers (parseModifiersString modifiersStr) []
    else [] in
  mkDirectiveValue tgt dom evt mods.

(** ** Elements and eligibility for two-way binding ([utils/validators.js]) *)

(** What the scanner and the validator read of an element.  [type] is the
    [type] property, absent on elements that have none; [node] is the
    identity of the element, under which a bridge keys its table. *)
Record Element : Type := mkElement {
  node : nat;
  tagName : string;
  type : option string;
  contentEditable : string;
  attributes : list (string * string)
}.

Definition getAttribute (element : Element) (name : string) : option string :=
  Map_get String.eqb name (attributes element).

(** [element.type || ''] *)
Definition type_or_empty (element : Element) : string :=
  match type element with
  | Some t => t
  | None => ""
  end.

Definition supportedTypes : list string :=
  ["text"; "password"; "email"; "search"; "tel"; "url"; "number"; "range";
   "date"; "time"; "month"; "week"; "datetime-local"; "color"; "checkbox";
   "radio"].

(** [array.includes(x)] on strings. *)
Definition Array_includes (l : list string) (x : string) : bool :=
  existsb (String.eqb x) l.

Definition isValidForTwoWayBinding (element : Element) : bool :=
  let tag := tagName element in
  let type := type_or_empty element in
  if String.eqb tag "TEXTAREA" || String.eqb tag "SELECT" then true
  else if String.eqb tag "INPUT" then Array_includes supportedTypes type
  else if String.eqb (contentEditable element) "true" then true
  else match getAttribute element "role" with
       | Some r => String.eqb r "textbox"
       | None => false
       end.

(** The eligibility rule in words: [TEXTAREA] and [SELECT] always; [INPUT]
    exactly when its type is on the list; any other element when its
    [contentEditable] is the string [true] or its [role] attribute is
    [textbox]. *)
Definition eligibleForTwoWayBinding (element : Element) : Prop :=
  tagName element = "TEXTAREA" \/ tagName element = "SELECT"
  \/ (tagName element = "INPUT" /\ In (type_or_empty element) supportedTypes)
  \/ (tagName element <> "INPUT"
      /\ (contentEditable element = "true"
          \/ getAttribute element "role" = Some "textbox")).

(** ** Class directives ([parsers/class-directive.js]) *)

Record ClassDirectiveValue : Type := mkClassDirectiveValue {
  reactiveClasses : list (string * DirectiveValue);
  computedClass : option DirectiveValue
}.

(** [DIRECTIVE_PREFIXES] of [directive-parser/constants.js]. *)
Module DIRECTIVE_PREFIXES.
Definition ATTRIBUTE : string := "data-a-".
Definition PROPERTY : string := "data-p-".
Definition BEHAVIOR : string := "data-b-".
Definition MODEL : string := "data-m".
Definition CLASS : string := "data-c".
End DIRECTIVE_PREFIXES.

(** The names of the [data-c-*] attributes, in attribute order. *)
Definition dataCStarAttributes (attributes : list (string * string)) : list string :=
  map fst (filter (fun a => startsWith (fst a) (DIRECTIVE_PREFIXES.CLASS ++ "-")) attributes).

(** The loop of the reactive branch: one [reactiveClasses.set] per
    [data-c-*] attribute, with the warnings of each value. *)
Fixpoint reactiveLoop (attributes : list (string * string))
    (acc : list (string * DirectiveValue)) (log : list Diagnostic)
    : list (string * DirectiveValue) * list Diagnostic :=
  match attributes with
  | [] => (acc, log)
  | (name, value) :: rest =>
      if startsWith name (DIRECTIVE_PREFIXES.CLASS ++ "-")
      then
        let className := drop (String.length DIRECTIVE_PREFIXES.CLASS + 1) name in
        let (dv, w) := parseDirectiveValue value in
        reactiveLoop rest (Map_set String.eqb className dv acc) (log ++ w)
      else reactiveLoop rest acc log
  end.

Definition parseClassDirectives (attributes : list (string * string))
    : ClassDirectiveValue * list Diagnostic :=
  let hasDataC := Map_has String.eqb DIRECTIVE_PREFIXES.CLASS attributes in
  let dataCValue :=
    match Map_get String.eqb DIRECTIVE_PREFIXES.CLASS attributes with
    | Some v => trim v
    | None => ""
    end in
  let stars := dataCStarAttributes attributes in
  if hasDataC && (0 <? String.length dataCValue)%nat
  then
    let (dv, w) := parseDirectiveValue dataCValue in
    (mkClassDirectiveValue [] (Some dv),
     w ++ (if (0 <? List.length stars)%nat then [ClassConflict stars] else []))
  else
    let (rc, w) := reactiveLoop attributes [] [] in
    (mkClassDirectiveValue rc None, w).

(** ** The element scanner ([parseDirectives]) *)

(** [getElementAttrs]: the attributes of the element, set one by one into a
    fresh [Map]. *)
Definition getElementAttrs (element : Element) : list (string * string) :=
  fold_left (fun attrs a => Map_set String.eqb (fst a) (snd a) attrs)
            (attributes element) [].

(** A key of [propertyDirectives].  [nativeProps] is an object literal, so
    reading it under [constructor] or [__proto__] finds the member it inherits
    from [Object.prototype]: [KeyInherited] stands for that object. *)
Inductive PropKey : Type :=
  | KeyName (name : string)
  | KeyInherited (member : string).

Definition PropKey_eqb (a b : PropKey) : bool :=
  match a, b with
  | KeyName x, KeyName y => String.eqb x y
  | KeyInherited x, KeyInherited y => String.eqb x y
  | _, _ => false
  end.

Definition nativeProps : list (string * string) :=
  [("contenteditable", "contentEditable"); ("innerhtml", "innerHTML");
   ("innertext", "innerText"); ("outerhtml", "outerHTML");
   ("outertext", "outerText"); ("classname", "className");
   ("textcontent", "textContent")].

Record ParsedDirectives : Type := mkParsedDirectives {
  attributeDirectives : list (string * DirectiveValue);
  propertyDirectives : list (PropKey * DirectiveValue);
  behaviorDirectives : list (string * DirectiveValue);
  modelDirective : option DirectiveValue;
  classDirective : option ClassDirectiveValue
}.

Definition new_ParsedDirectives : ParsedDirectives :=
  mkParsedDirectives [] [] [] None None.

Section Scanner.

(** [name in window.Element.prototype], a fact of the host environment. *)
Variable inElementPrototype : string -> bool.

(** [isNativePropertyName]: [None] is the source's [false]. *)
Definition isNativePropertyName (name prefix : string) : option PropKey :=
  let result := if startsWith name prefix
                then drop (String.length prefix) name else name in
  let result := toLowerCase result in
  match Map_get String.eqb result nativeProps with
  | Some native => Some (KeyName native)
  | None =>
      if String.eqb result "constructor" || String.eqb result "__proto__"
      then Some (KeyInherited result)
      else if inElementPrototype result then Some (KeyName result) else None
  end.

(** The truth value of what [isNativePropertyName] returned. *)
Definition truthy_key (k : option PropKey) : bool :=
  match k with
  | Some (KeyName n) => non_empty n
  | Some (KeyInherited _) => true
  | None => false
  end.

(** The state of the scanning loop: the directives so far, the flag
    [hasClassDirective] and the warnings so far. *)
Definition ScanState : Type := (ParsedDirectives * bool * list Diagnostic)%type.

(** The three components of the state of the loop. *)
Definition scan_directives (st : ScanState) : ParsedDirectives := fst (fst st).
Definition scan_flag (st : ScanState) : bool := snd (fst st).
Definition scan_log (st : ScanState) : list Diagnostic := snd st.

(** One iteration of [for (let [name, value] of attributes)]. *)
Definition scanAttribute (element : Element) (st : ScanState)
    (attr : string * string) : ScanState :=
  let '(directives, hasClassDirective, log) := st in
  let (name, value) := attr in
  if startsWith name DIRECTIVE_PREFIXES.ATTRIBUTE then
    let attrName := drop (String.length DIRECTIVE_PREFIXES.ATTRIBUTE) name in
    let (dv, w) := parseAttributeDirective value in
    (mkParsedDirectives
       (Map_set String.eqb attrName dv (attributeDirectives directives))
       (propertyDirectives directives) (behaviorDirectives directives)
       (modelDirective directives) (classDirective directives),
     hasClassDirective, log ++ w)
  else if startsWith name DIRECTIVE_PREFIXES.PROPERTY then
    let nativeProp := isNativePropertyName name DIRECTIVE_PREFIXES.PROPERTY in
    let key :=
      match nativeProp with
      | Some k => if truthy_key nativeProp then k
                  else KeyName (attributeNameToPropertyName name DIRECTIVE_PREFIXES.PROPERTY)
      | None => KeyName (attributeNameToPropertyName name DIRECTIVE_PREFIXES.PROPERTY)
      end in
    let (dv, w) := parseDirectiveValue value in
    (mkParsedDirectives
       (attributeDirectives directives)
       (Map_set PropKey_eqb key dv (propertyDirectives directives))
       (behaviorDirectives directives)
       (modelDirective directives) (classDirective directives),
     hasClassDirective, log ++ w)
  else if startsWith name DIRECTIVE_PREFIXES.BEHAVIOR then
    let directiveName := drop (String.length DIRECTIVE_PREFIXES.BEHAVIOR) name in
    let (dv, w) := parseBehaviorDirective value in
    (mkParsedDirectives
       (attributeDirectives directives) (propertyDirectives directives)
       (Map_set String.eqb directiveName dv (behaviorDirectives directives))
       (modelDirective directives) (classDirective directives),
     hasClassDirective, log ++ w)
  else if String.eqb name DIRECTIVE_PREFIXES.MODEL then
    if negb (isValidForTwoWayBinding element)
    then (directives, hasClassDirective,
          log ++ [ModelNotValid (tagName element) (type_or_empty element)])
    else
      (mkParsedDirectives
         (attributeDirectives directives) (propertyDirectives directives)
         (behaviorDirectives directives)
         (Some (parseModelDirective value)) (classDirective directives),
       hasClassDirective, log)
  else if startsWith name (DIRECTIVE_PREFIXES.CLASS ++ "-") || String.eqb name DIRECTIVE_PREFIXES.CLASS
  then (directives, true, log)
  else st.

(** [parseDirectives(element, attributes = null)]. *)
Definition parseDirectives (element : Element)
    (attributes : option (list (string * string)))
    : ParsedDirectives * list Diagnostic :=
  let attributes :=
    match attributes with
    | Some attrs => attrs
    | None => getElementAttrs element
    end in
  let '(directives, hasClassDirective, log) :=
    fold_left (scanAttribute element) attributes
              (new_ParsedDirectives, false, []) in
  if hasClassDirective
  then
    let (cd, w) := parseClassDirectives attributes in
    (mkParsedDirectives
       (attributeDirectives directives) (propertyDirectives directives)
       (behaviorDirectives directives) (modelDirective directives)
       (Some cd),
     log ++ w)
  else (directives, log).

End Scanner.

(** ** Values of the state object and path traversal *)

(** A JavaScript value as the traversal sees it: an object is what its
    property read [obj[key]] answers. *)
Inductive JsValue : Type :=
  | Undefined
  | Null
  | JsBool (b : bool)
  | JsNum (n : JsNumber)
  | JsStr (s : string)
  | JsObject (get : string -> JsValue).

(** [isSet]: neither [undefined] nor [null]. *)
Definition isSet (v : JsValue) : bool :=
  match v with
  | Undefined | Null => false
  | _ => true
  end.

(** The truth value of a value, for [current ? ... : ...]. *)
Definition truthy (v : JsValue) : bool :=
  match v with
  | Undefined | Null => false
  | JsBool b => b
  | JsNum NaN => false
  | JsNum (Infinite _) => true
  | JsNum (Finite _ m) => negb (Qeq_bool m 0)
  | JsStr s => non_empty s
  | JsObject _ => true
  end.

Section Traversal.

(** [v[key]] on a primitive [v]: the member found through the prototype of
    its wrapper object, which the host provides. *)
Variable primitiveGet : JsValue -> string -> JsValue.

(** [current[part]] for a [current] that is neither [undefined] nor [null]. *)
Definition getMember (current : JsValue) (part : string) : JsValue :=
  match current with
  | JsObject get => get part
  | _ => primitiveGet current part
  end.

Definition getNestedProperty (obj : JsValue) (pathParts : list string) : JsValue :=
  fold_left (fun current part =>
               if truthy current then getMember current part else Undefined)
            pathParts obj.

Definition getPropertyValue (obj : JsValue) (path : list string) : JsValue :=
  fold_left (fun current part =>
               if isSet current then getMember current part else current)
            path obj.

End Traversal.

(** ** The runtime: handler contexts, abort signals, the console

    Closures handed to the library (cleanup functions, bridge callbacks) act
    on a world [W] outside the library and may throw a value of type [Err];
    they do not call back into the context they are registered with.  Handler
    contexts and abort signals are shared objects: they live in a store and
    are named by their index.  [trace] is an instrumentation of the model: it
    records every call of [dispose] and every call of a cleanup function. *)

Section Lifecycle.

Context {W Err : Type}.

(** The outcome of calling a closure: it returns or it throws. *)
Inductive Outcome : Type :=
  | Returns (w : W)
  | Throws (w : W) (e : Err).

Record Cleanup : Type := mkCleanup {
  cleanup_id : nat;
  cleanup_run : W -> Outcome
}.

(** The only listeners the library adds: [() => this.dispose()]. *)
Inductive Listener : Type :=
  | DisposeListener (context : nat).

Record AbortSignal : Type := mkAbortSignal {
  aborted : bool;
  abortListeners : list Listener
}.

Record HandlerContext : Type := mkHandlerContext {
  state : JsValue;
  signal : option nat;
  config : JsValue;
  unsubscribers : list Cleanup
}.

Inductive LogEntry : Type :=
  | Warning (d : Diagnostic)
  | CleanupError (e : Err)
  | ListenerError (e : Err)
  | NotImplemented.

Inductive TraceEvent : Type :=
  | Disposed (context : nat)
  | Ran (cleanup : nat).

Record Runtime : Type := mkRuntime {
  world : W;
  contexts : list HandlerContext;
  signals : list AbortSignal;
  console : list LogEntry;
  trace : list TraceEvent
}.

Fixpoint update {A : Type} (i : nat) (x : A) (l : list A) {struct l} : list A :=
  match l, i with
  | [], _ => []
  | _ :: l', O => x :: l'
  | y :: l', S k => y :: update k x l'
  end.

Definition set_context (c : nat) (h : HandlerContext) (rt : Runtime) : Runtime :=
  mkRuntime (world rt) (update c h (contexts rt)) (signals rt) (console rt) (trace rt).

Definition set_signal (s : nat) (a : AbortSignal) (rt : Runtime) : Runtime :=
  mkRuntime (world rt) (contexts rt) (update s a (signals rt)) (console rt) (trace rt).

(** [signal && !signal.aborted] for the signal of a context. *)
Definition live_signal (rt : Runtime) (h : HandlerContext) : option (nat * AbortSignal) :=
  match signal h with
  | Some s =>
      match nth_error (signals rt) s with
      | Some a => if aborted a then None else Some (s, a)
      | None => None
      end
  | None => None
  end.

(** [new HandlerContext(state, { config, signal })]: the new context is
    stored and its reference returned. *)
Definition new_HandlerContext (st : JsValue) (sig : option nat) (cfg : JsValue)
    (rt : Runtime) : nat * Runtime :=
  (List.length (contexts rt),
   mkRuntime (world rt) (contexts rt ++ [mkHandlerContext st sig cfg []])
             (signals rt) (console rt) (trace rt)).

(** [isActive]. *)
Definition isActive (rt : Runtime) (c : nat) : bool :=
  match nth_error (contexts rt) c with
  | Some h =>
      match signal h with
      | Some s =>
          match nth_error (signals rt) s with
          | Some a => negb (aborted a)
          | None => true
          end
      | None => true
      end
  | None => true
  end.

(** [addCleanup(cleanupFn)]: the function is queued, and while the signal of
    the context is not aborted one more once-only abort listener is added. *)
Definition addCleanup (c : nat) (cleanupFn : Cleanup) (rt : Runtime) : Runtime :=
  match nth_error (contexts rt) c with
  | Some h =>
      let h' := mkHandlerContext (state h) (signal h) (config h)
                                 (unsubscribers h ++ [cleanupFn]) in
      let rt := set_context c h' rt in
      match live_signal rt h' with
      | Some (s, a) =>
          set_signal s (mkAbortSignal (aborted a)
                                      (abortListeners a ++ [DisposeListener c])) rt
      | None => rt
      end
  | None => rt
  end.

(** One turn of [unsubscribers.forEach]: the call inside [try], the warning
    inside [catch]. *)
Definition runCleanup (rt : Runtime) (fn : Cleanup) : Runtime :=
  match cleanup_run fn (world rt) with
  | Returns w =>
      mkRuntime w (contexts rt) (signals rt) (console rt)
                (trace rt ++ [Ran (cleanup_id fn)])
  | Throws w e =>
      mkRuntime w (contexts rt) (signals rt) (console rt ++ [CleanupError e])
                (trace rt ++ [Ran (cleanup_id fn)])
  end.

(** [dispose()]. *)
Definition dispose (c : nat) (rt : Runtime) : Runtime :=
  match nth_error (contexts rt) c with
  | Some h =>
      let rt := mkRuntime (world rt) (contexts rt) (signals rt) (console rt)
                          (trace rt ++ [Disposed c]) in
      let rt := fold_left runCleanup (unsubscribers h) rt in
      set_context c (mkHandlerContext (state h) (signal h) (config h) []) rt
  | None => rt
  end.

Definition callListener (rt : Runtime) (l : Listener) : Runtime :=
  match l with
  | DisposeListener c => dispose c rt
  end.

(** The owner of the signal aborts it: nothing happens on a signal that is
    aborted already; otherwise the flag is set and every listener is called
    once, in the order of registration, and removed. *)
Definition abort (s : nat) (rt : Runtime) : Runtime :=
  match nth_error (signals rt) s with
  | Some a =>
      if aborted a then rt
      else
        let rt := set_signal s (mkAbortSignal true []) rt in
        fold_left callListener (abortListeners a) rt
  | None => rt
  end.

Definition outcome_world (o : Outcome) : W :=
  match o with
  | Returns w => w
  | Throws w _ => w
  end.

(** What a run of cleanup functions, each inside its own [try], does to the
    world, and the values caught on the way. *)
Fixpoint cleanup_effects (fns : list Cleanup) (w : W) : W * list Err :=
  match fns with
  | [] => (w, [])
  | fn :: rest =>
      match cleanup_run fn w with
      | Returns w' => cleanup_effects rest w'
      | Throws w' e =>
          let (w'', es) := cleanup_effects rest w' in (w'', e :: es)
      end
  end.

(** The names of the cleanup functions a trace shows to have run, and the
    number of calls of [dispose] on a context it shows. *)
Definition ran (tr : list TraceEvent) : list nat :=
  flat_map (fun ev => match ev with Ran f => [f] | Disposed _ => [] end) tr.


(** The cleanup functions queued in a context. *)
Definition queued (rt : Runtime) (c : nat) : list Cleanup :=
  match nth_error (contexts rt) c with
  | Some h => unsubscribers h
  | None => []
  end.

(** [get(path, defaultValue = null)]: [path] is an array or a dotted string;
    the default of the parameter stands in for a missing argument and for
    [undefined]. *)
Definition HandlerContext_get (primitiveGet : JsValue -> string -> JsValue)
    (h : HandlerContext) (path : PathInput) (defaultValue : option JsValue)
    : JsValue :=
  let defaultValue := match defaultValue with
                      | Some Undefined | None => Null
                      | Some d => d
                      end in
  let p := match path with
           | PathArray a => a
           | PathString s => propertyNameToPath s
           end in
  let v := getPropertyValue primitiveGet (state h) p in
  if isSet v then v else defaultValue.

End Lifecycle.

(** ** The dispatch layer and the bridge ([DirectiveParser], [BridgeBase]) *)

Section Bridge.

Context {W Err : Type}.
Variable inElementPrototype : string -> bool.

Local Abbreviation Runtime := (@Runtime W Err).
Local Abbreviation LogEntry := (@LogEntry Err).

(** A callback of the bridge is given the element, the directives of its
    category and the handler context; it returns or throws. *)
Inductive CallOutcome : Type :=
  | Done (rt : Runtime)
  | Raised (rt : Runtime) (e : Err).

Definition Callback (D : Type) : Type :=
  Element -> D -> nat -> Runtime -> CallOutcome.

(** The members a subclass of [BridgeBase] provides.  [bridgeName] is
    [this.constructor.name]; [isStateCompatible] answers with what it wrote
    to the console (the version of the base class warns and answers
    [false]). *)
Record BridgeClass : Type := mkBridgeClass {
  bridgeName : string;
  isStateCompatible : JsValue -> bool * list LogEntry;
  attributeDirectivesCallback : Callback (list (string * DirectiveValue));
  modelDirectiveCallback : Callback DirectiveValue;
  propertyDirectivesCallback : Callback (list (PropKey * DirectiveValue));
  classDirectiveCallback : Callback ClassDirectiveValue
}.

(** The table [boundElements], keyed by the identity of the element. *)
Record Bridge : Type := mkBridge {
  boundElements : list (nat * nat)
}.

Record Options : Type := mkOptions {
  opt_signal : option nat;
  opt_config : option JsValue
}.

Record Binding : Type := mkBinding {
  binding_context : nat;
  binding_directives : ParsedDirectives
}.

Inductive Result (A : Type) : Type :=
  | Ok (a : A)
  | Error (msg : string).
Arguments Ok {A} a.
Arguments Error {A} msg.

(** [EventEmitter.emit] of the package [@supercat1337/event-emitter], as it
    is bundled in [dist/ui-binder.bundle.esm.js], for a category with the one
    listener the constructor of [BridgeBase] registers: the listener is
    called inside [try]; an exception is caught and, [logErrors] being [true]
    by default, written to the console, and the dispatch goes on.  Nothing
    listens to the internal event [#listener-error]. *)
Definition emit {D : Type} (cb : Callback D) (element : Element) (d : D)
    (context : nat) (rt : Runtime) : Runtime :=
  match cb element d context rt with
  | Done rt' => rt'
  | Raised rt' e =>
      mkRuntime (world rt') (contexts rt') (signals rt')
                (console rt' ++ [ListenerError e]) (trace rt')
  end.

Definition log_warnings (ws : list Diagnostic) (rt : Runtime) : Runtime :=
  mkRuntime (world rt) (contexts rt) (signals rt)
            (console rt ++ map Warning ws) (trace rt).

Definition is_empty {A : Type} (l : list A) : bool :=
  match l with [] => true | _ => false end.

Definition empty_object : JsValue := JsObject (fun _ => Undefined).

Variable cls : BridgeClass.

(** [DirectiveParser.processElement]: scan, create the context, then emit
    the categories in the order model, attribute, property, class, behavior.
    The constructor of [BridgeBase] registers no listener for behavior
    directives, so that emission calls nothing. *)
Definition processElement (element : Element) (st : JsValue) (userOptions : Options)
    (rt : Runtime) : Binding * Runtime :=
  let (parsedDirectives, ws) := parseDirectives inElementPrototype element None in
  let rt := log_warnings ws rt in
  let cfg := match opt_config userOptions with
             | Some (Undefined) | None => empty_object
             | Some c => c
             end in
  let (context, rt) := new_HandlerContext st (opt_signal userOptions) cfg rt in
  let rt := match modelDirective parsedDirectives with
            | Some d => emit (modelDirectiveCallback cls) element d context rt
            | None => rt
            end in
  let rt := if is_empty (attributeDirectives parsedDirectives) then rt
            else emit (attributeDirectivesCallback cls) element
                      (attributeDirectives parsedDirectives) context rt in
  let rt := if is_empty (propertyDirectives parsedDirectives) then rt
            else emit (propertyDirectivesCallback cls) element
                      (propertyDirectives parsedDirectives) context rt in
  let rt := match classDirective parsedDirectives with
            | Some d => emit (classDirectiveCallback cls) element d context rt
            | None => rt
            end in
  (mkBinding context parsedDirectives, rt).

(** [unbindElement]. *)
Definition unbindElement (element : Element) (br : Bridge * Runtime) : Bridge * Runtime :=
  let (b, rt) := br in
  match Map_get Nat.eqb (node element) (boundElements b) with
  | Some context =>
      (mkBridge (Map_delete Nat.eqb (node element) (boundElements b)),
       dispose context rt)
  | None => br
  end.

(** [bindElement]. *)
Definition bindElement (element : Element) (st : JsValue) (options : Options)
    (br : Bridge * Runtime) : Result Binding * (Bridge * Runtime) :=
  let (b, rt) := br in
  let (compatible, said) := isStateCompatible cls st in
  let rt := mkRuntime (world rt) (contexts rt) (signals rt)
                      (console rt ++ said) (trace rt) in
  if negb compatible
  then (Error ("State is not compatible with bridge " ++ bridgeName cls), (b, rt))
  else
    let '(b, rt) :=
      if Map_has Nat.eqb (node element) (boundElements b)
      then unbindElement element (b, rt) else (b, rt) in
    let (result, rt) := processElement element st options rt in
    (Ok result,
     (mkBridge (Map_set Nat.eqb (node element) (binding_context result)
                        (boundElements b)),
      rt)).

End Bridge.

Arguments Ok {A} a.
Arguments Error {A} msg.

(** [BridgeBase] itself, not subclassed: every abstract method warns that it
    must be implemented, and [isStateCompatible] answers [false]. *)
Definition BridgeBase_class {W Err : Type} : @BridgeClass W Err :=
  mkBridgeClass "BridgeBase"
    (fun _ => (false, [NotImplemented]))
    (fun _ _ _ rt => Done (mkRuntime (world rt) (contexts rt) (signals rt)
                                     (console rt ++ [NotImplemented]) (trace rt)))
    (fun _ _ _ rt => Done (mkRuntime (world rt) (contexts rt) (signals rt)
                                     (console rt ++ [NotImplemented]) (trace rt)))
    (fun _ _ _ rt => Done (mkRuntime (world rt) (contexts rt) (signals rt)
                                     (console rt ++ [NotImplemented]) (trace rt)))
    (fun _ _ _ rt => Done (mkRuntime (world rt) (contexts rt) (signals rt)
                                     (console rt ++ [NotImplemented]) (trace rt))).

(** A subclass in the manner of the test bridge of the repository: it accepts
    every state but [null], and its model callback registers one cleanup
    function that counts in the world. *)
Definition TestBridge_class : @BridgeClass nat string :=
  mkBridgeClass "TestBridge"
    (fun st => (isSet st, []))
    (fun _ _ _ rt => Done rt)
    (fun _ _ context rt =>
       Done (addCleanup context (mkCleanup 1 (fun w => Returns (w + 1))) rt))
    (fun _ _ _ rt => Done rt)
    (fun _ _ _ rt => Done rt).

(** A state with falsy values and a [null] member. *)
Definition falsy_state : JsValue :=
  JsObject (fun key =>
    if String.eqb key "count" then JsNum (JsInt 0)
    else if String.eqb key "active" then JsBool false
    else if String.eqb key "name" then JsStr EmptyString
    else if String.eqb key "user" then Null
    else Undefined).

(** ** The syntax of a directive value

    The header comment of [directive-parser/utils.js] gives the syntax as
    [{target}:{domProperty}#{modifier}({...eventModifierArgs})@{event}]; every
    part after the target may be missing.  [directiveSyntax] writes a value
    in that syntax. *)
Definition or_empty (part : option string) : string :=
  match part with
  | Some s => s
  | None => EmptyString
  end.

Definition directiveSyntax (tgt : string) (dom mods evt : option string) : string :=
  tgt
  ++ match dom with Some p => ":" ++ p | None => "" end
  ++ match mods with Some m => "#" ++ m | None => "" end
  ++ match evt with Some e => "@" ++ e | None => "" end.

(** A string of white space only, what [trim] takes away. *)
Definition all_space (ws : string) : bool := all_chars is_space ws.

(** ** Validation of property names ([utils/validators.js]) *)

(** The table [RESERVED_WORDS]; [isValidPropertyName] does not consult it. *)
Definition RESERVED_WORDS : list string :=
  ["class"; "function"; "return"; "if"; "else"; "for"; "while"; "var"; "let";
   "const"; "new"; "this"; "typeof"; "instanceof"; "delete"; "void"; "with";
   "debugger"; "export"; "import"; "null"; "undefined"; "NaN"; "Infinity";
   "arguments"; "eval"].

(** [[a-zA-Z_$]] and [[a-zA-Z0-9_$.-]]. *)
Definition is_identifier_start (c : ascii) : bool :=
  is_letter c || Ascii.eqb c "_" || Ascii.eqb c "$".

Definition is_identifier_char (c : ascii) : bool :=
  is_alnum c || Ascii.eqb c "_" || Ascii.eqb c "$" || Ascii.eqb c "."
  || Ascii.eqb c "-".

(** [isValidPropertyName]: the four early rejections, then the anchored
    pattern of one start character and any number of further characters. *)
Definition isValidPropertyName (str : string) : bool :=
  if includes str ".." || endsWith_char str "." || startsWith str "."
     || endsWith_char str "-"
  then false
  else match str with
       | EmptyString => false
       | String c rest => is_identifier_start c && all_chars is_identifier_char rest
       end.

(** ** Disposal of a bridge ([BridgeBase.dispose]) *)

Section BridgeDisposal.

Context {W Err : Type}.

(** [unbindElement] on the element of identity [key]. *)
Definition unbindKey (key : nat) (br : Bridge * @Runtime W Err)
    : Bridge * @Runtime W Err :=
  let (b, rt) := br in
  match Map_get Nat.eqb key (boundElements b) with
  | Some context =>
      (mkBridge (Map_delete Nat.eqb key (boundElements b)), dispose context rt)
  | None => br
  end.

(** [for (const [element] of this.boundElements) this.unbindElement(element)]:
    the loop visits the entries in the order of the table; deleting the entry
    it stands on does not disturb it. *)
Definition BridgeBase_dispose (br : Bridge * @Runtime W Err)
    : Bridge * @Runtime W Err :=
  fold_left (fun acc entry => unbindKey (fst entry) acc)
            (boundElements (fst br)) br.

End BridgeDisposal.

(** ** What a run of abort listeners finds

    The listeners of a signal dispose of their contexts in turn.  The plan of
    such a run gives, for every call of [dispose], the context and the
    cleanup functions that call finds queued, starting from the queues
    [queue]: a context that was disposed of earlier in the run has an empty
    queue. *)

Section DisposalPlan.

Context {W Err : Type}.

Definition listenerContext (l : Listener) : nat :=
  match l with
  | DisposeListener c => c
  end.

Fixpoint disposalPlan (queue : nat -> list (@Cleanup W Err)) (seen cs : list nat)
    : list (nat * list (@Cleanup W Err)) :=
  match cs with
  | [] => []
  | c :: cs' =>
      (c, if existsb (Nat.eqb c) seen then [] else queue c)
      :: disposalPlan queue (c :: seen) cs'
  end.

(** The events of the trace and the cleanup functions called, in order. *)
Definition planTrace (plan : list (nat * list (@Cleanup W Err))) : list TraceEvent :=
  flat_map (fun p => Disposed (fst p) :: map (fun fn => Ran (cleanup_id fn)) (snd p))
           plan.

Definition planCleanups (plan : list (nat * list (@Cleanup W Err)))
    : list (@Cleanup W Err) :=
  flat_map snd plan.

End DisposalPlan.

(** * Properties *)

(** ** Strings *)

Section StringFacts.

Lemma append_empty_r (s : string) : (s ++ EmptyString)%string = s.
Proof. induction s as [|c s IH]; simpl; [reflexivity | now rewrite IH]. Qed.

Lemma append_assoc (a b c : string) :
  ((a ++ b) ++ c)%string = (a ++ (b ++ c))%string.
Proof. induction a as [|x a IH]; simpl; [reflexivity | now rewrite IH]. Qed.

Lemma length_append (a b : string) :
  String.length (a ++ b) = String.length a + String.length b.
Proof. induction a as [|x a IH]; simpl; [reflexivity | now rewrite IH]. Qed.

Lemma startsWith_append (p s : string) : startsWith (p ++ s) p = true.
Proof.
  induction p as [|c p IH]; [reflexivity|].
  simpl. now rewrite Ascii.eqb_refl, IH.
Qed.

Lemma drop_append (p s : string) : drop (String.length p) (p ++ s) = s.
Proof. induction p as [|c p IH]; simpl; [now destruct s | exact IH]. Qed.

Lemma take_append (p s : string) : take (String.length p) (p ++ s) = p.
Proof. induction p as [|c p IH]; simpl; [now destruct s | now rewrite IH]. Qed.

Lemma absent_append (c : ascii) (a b : string) :
  absent c (a ++ b) = absent c a && absent c b.
Proof.
  unfold absent. induction a as [|x a IH]; simpl; [reflexivity|].
  now rewrite IH, andb_assoc.
Qed.

Lemma startsWith_absent (c : ascii) (p s : string) :
  absent c s = true -> startsWith s (String c p) = false.
Proof.
  destruct s as [|d s]; [reflexivity|].
  unfold absent; simpl. intros H. apply andb_true_iff in H as [H _].
  apply negb_true_iff in H. now rewrite H.
Qed.

Lemma replaceAll_absent (c : ascii) (p rep s : string) :
  absent c s = true -> replaceAll (String c p) rep s = s.
Proof.
  unfold replaceAll. induction s as [|d s IH]; [reflexivity|].
  intros H. cbn [replaceAll_from].
  rewrite (startsWith_absent c p _ H).
  unfold absent in H; simpl in H. apply andb_true_iff in H as [_ H].
  now rewrite (IH H).
Qed.

Lemma split_from_absent (c : ascii) (p s : string) :
  absent c s = true -> split_from 0 (String c p) s = (s, []).
Proof.
  induction s as [|d s IH]; [reflexivity|].
  intros H. cbn [split_from].
  rewrite (startsWith_absent c p _ H).
  unfold absent in H; simpl in H. apply andb_true_iff in H as [_ H].
  now rewrite (IH H).
Qed.

Lemma split_absent (c : ascii) (p s : string) :
  absent c s = true -> split (String c p) s = [s].
Proof. intros H. unfold split. now rewrite split_from_absent. Qed.

Lemma includes_absent (c : ascii) (p s : string) :
  absent c s = true -> includes s (String c p) = false.
Proof.
  induction s as [|d s IH]; [reflexivity|].
  intros H. cbn [includes]. rewrite (startsWith_absent c p _ H).
  unfold absent in H; simpl in H. apply andb_true_iff in H as [_ H].
  now rewrite (IH H).
Qed.

Lemma all_chars_impl (P Q : ascii -> bool) (s : string) :
  (forall c, P c = true -> Q c = true) ->
  all_chars P s = true -> all_chars Q s = true.
Proof.
  intros HPQ. induction s as [|c s IH]; [reflexivity|]. simpl.
  intros H. apply andb_true_iff in H as [H1 H2].
  now rewrite (HPQ _ H1), (IH H2).
Qed.

(** Skipping the rest of a matched separator. *)
Lemma split_from_skip (sep a s : string) :
  split_from (String.length a) sep (a ++ s) = split_from 0 sep s.
Proof.
  induction a as [|c a IH]; simpl; [now destruct s | exact IH].
Qed.

Lemma replaceAll_from_skip (pat rep a s : string) :
  replaceAll_from (String.length a) pat rep (a ++ s) = replaceAll_from 0 pat rep s.
Proof.
  induction a as [|c a IH]; simpl; [now destruct s | exact IH].
Qed.

Lemma absent_cons (c d : ascii) (s : string) :
  absent c (String d s) = negb (Ascii.eqb d c) && absent c s.
Proof. reflexivity. Qed.

(** Splitting at a one-character separator distributes over an occurrence
    of the separator. *)
Lemma split_from_char_append (c : ascii) (a b : string) :
  split_from 0 (String c EmptyString) (a ++ String c b)
  = (fst (split_from 0 (String c EmptyString) a),
     snd (split_from 0 (String c EmptyString) a)
     ++ split (String c EmptyString) b).
Proof.
  unfold split. induction a as [|d a IH].
  - simpl. rewrite Ascii.eqb_refl. simpl.
    destruct (split_from 0 (String c EmptyString) b); reflexivity.
  - change ((String d a ++ String c b)%string) with (String d (a ++ String c b)).
    cbn [split_from startsWith String.length Nat.sub].
    rewrite IH.
    destruct (Ascii.eqb d c); simpl;
      destruct (split_from 0 (String c EmptyString) a);
      destruct (split_from 0 (String c EmptyString) b); reflexivity.
Qed.

Lemma split_char_append (c : ascii) (a b : string) :
  split (String c EmptyString) (a ++ String c b)
  = split (String c EmptyString) a ++ split (String c EmptyString) b.
Proof.
  unfold split at 1 2. rewrite split_from_char_append.
  destruct (split_from 0 (String c EmptyString) a); reflexivity.
Qed.

Lemma replaceAll_no_occurrence (pat rep s : string) :
  includes s pat = false -> replaceAll pat rep s = s.
Proof.
  unfold replaceAll. induction s as [|c s IH]; [reflexivity|].
  cbn [includes]. intros H. apply orb_false_iff in H as [Hs Hi].
  cbn [replaceAll_from]. rewrite Hs. now rewrite (IH Hi).
Qed.

Lemma split_char_join (c : ascii) (parts : list string) :
  parts <> [] ->
  Forall (fun p => absent c p = true) parts ->
  split (String c EmptyString) (join (String c EmptyString) parts) = parts.
Proof.
  induction parts as [|p parts IH]; intros Hne Hall; [congruence|].
  inversion Hall as [|? ? Hp Hrest]; subst.
  destruct parts as [|q parts].
  - simpl. now apply split_absent.
  - change (join (String c EmptyString) (p :: q :: parts))
      with (p ++ String c (join (String c EmptyString) (q :: parts)))%string.
    rewrite split_char_append, (split_absent c EmptyString p Hp).
    cbn [app]. f_equal. apply IH; [discriminate | assumption].
Qed.

Lemma absent_join (c d : ascii) (parts : list string) :
  Ascii.eqb d c = false ->
  Forall (fun p => absent c p = true) parts ->
  absent c (join (String d EmptyString) parts) = true.
Proof.
  intros Hd. induction parts as [|p parts IH]; intros Hall; [reflexivity|].
  inversion Hall as [|? ? Hp Hrest]; subst.
  destruct parts as [|q parts]; [exact Hp|].
  change (join (String d EmptyString) (p :: q :: parts))
    with (p ++ String d (join (String d EmptyString) (q :: parts)))%string.
  rewrite absent_append, Hp. cbn [andb].
  change (absent c (String d (join (String d EmptyString) (q :: parts))))
    with (negb (Ascii.eqb d c) && absent c (join (String d EmptyString) (q :: parts))).
  rewrite Hd. cbn [negb andb]. now apply IH.
Qed.

End StringFacts.

(** ** Name codec *)

Section NameCodec.

Lemma includes_append (a pat b : string) :
  includes (a ++ pat ++ b) pat = true.
Proof.
  induction a as [|c a IH].
  - simpl. destruct (pat ++ b)%string eqn:E.
    + simpl. rewrite <- E. now rewrite startsWith_append.
    + cbn [includes]. rewrite <- E. now rewrite startsWith_append.
  - change (includes (String c (a ++ pat ++ b)) pat = true).
    cbn [includes]. rewrite IH. apply orb_true_r.
Qed.

(** A sub-part that holds no ["--"] and does not end in a hyphen is cut off
    exactly at the separator that follows it. *)
Lemma split_dashes_cons (p rest : string) :
  includes p "--" = false ->
  endsWith_char p "-" = false ->
  split "--" (p ++ "--" ++ rest) = p :: split "--" rest.
Proof.
  unfold split. induction p as [|c p IH]; intros Hinc Hend.
  - simpl. destruct (split_from 0 "--" rest); reflexivity.
  - change ((String c p ++ "--" ++ rest)%string)
      with (String c (p ++ "--" ++ rest)).
    cbn [split_from].
    assert (Hs : startsWith (String c (p ++ "--" ++ rest)) "--" = false).
    { destruct p as [|d p].
      - simpl in Hend. simpl. rewrite Hend. reflexivity.
      - cbn [includes] in Hinc. apply orb_false_iff in Hinc as [Hinc _].
        simpl in Hinc. simpl.
        destruct (Ascii.eqb c "-"); [|reflexivity].
        simpl in Hinc. rewrite andb_true_r in Hinc. now rewrite Hinc. }
    rewrite Hs.
    assert (Hinc' : includes p "--" = false).
    { cbn [includes] in Hinc. now apply orb_false_iff in Hinc as [_ Hinc]. }
    assert (Hend' : endsWith_char p "-" = false).
    { destruct p as [|d p]; [reflexivity | exact Hend]. }
    specialize (IH Hinc' Hend').
    destruct (split_from 0 "--" (p ++ "--" ++ rest)) as [t ts].
    destruct (split_from 0 "--" rest) as [t' ts'].
    now inversion IH.
Qed.

Lemma split_dashes_last (p : string) :
  includes p "--" = false -> split "--" p = [p].
Proof.
  unfold split. induction p as [|c p IH]; intros Hinc; [reflexivity|].
  cbn [includes] in Hinc. apply orb_false_iff in Hinc as [Hs Hinc].
  cbn [split_from]. rewrite Hs.
  specialize (IH Hinc). destruct (split_from 0 "--" p) as [t ts].
  now inversion IH.
Qed.

(** Splitting undoes joining, for sub-parts that the separator cannot be
    confused with. *)
Lemma split_join_dashes (parts : list string) :
  parts <> [] ->
  Forall (fun p => includes p "--" = false) parts ->
  Forall (fun p => endsWith_char p "-" = false) (removelast parts) ->
  split "--" (join "--" parts) = parts.
Proof.
  induction parts as [|p parts IH]; intros Hne Hinc Hend; [congruence|].
  destruct parts as [|p' parts].
  - simpl. apply split_dashes_last. now inversion Hinc.
  - change (join "--" (p :: p' :: parts))
      with (p ++ "--" ++ join "--" (p' :: parts))%string.
    inversion Hinc; subst.
    change (removelast (p :: p' :: parts))
      with (p :: removelast (p' :: parts)) in Hend.
    inversion Hend; subst.
    rewrite split_dashes_cons by assumption.
    f_equal. apply IH; [discriminate | assumption | assumption].
Qed.

Lemma kebabToCamel_single (s : string) :
  String.length s = 1 -> kebabToCamel s = s.
Proof.
  destruct s as [|c [|d s]]; simpl; try discriminate.
  intros _. now destruct (Ascii.eqb c "-").
Qed.

(** The length-1 pass-through never differs from camel-casing. *)
Lemma convertSubpart_kebabToCamel (s : string) :
  convertSubpart s = kebabToCamel s.
Proof.
  unfold convertSubpart. destruct (String.length s =? 1)%nat eqn:E; [|reflexivity].
  apply Nat.eqb_eq in E. now rewrite kebabToCamel_single.
Qed.

End NameCodec.

Section Segments.

Lemma split_from_keeps_absent (c : ascii) (sep s : string) (k : nat) :
  absent c s = true ->
  absent c (fst (split_from k sep s)) = true
  /\ Forall (fun t => absent c t = true) (snd (split_from k sep s)).
Proof.
  revert k. induction s as [|d s IH]; intros k H.
  - simpl. split; [reflexivity | constructor].
  - rewrite absent_cons in H. apply andb_true_iff in H as [Hd Hs].
    cbn [split_from]. destruct k as [|k].
    + destruct (startsWith (String d s) sep).
      * destruct (IH (String.length sep - 1) Hs) as [H1 H2].
        destruct (split_from (String.length sep - 1) sep s) as [t ts].
        cbn [fst snd] in *. split; [reflexivity | now constructor].
      * destruct (IH 0 Hs) as [H1 H2].
        destruct (split_from 0 sep s) as [t ts].
        cbn [fst snd] in *. split; [|exact H2].
        rewrite absent_cons, Hd. exact H1.
    + exact (IH k Hs).
Qed.

Lemma split_keeps_absent (c : ascii) (sep s : string) :
  absent c s = true -> Forall (fun t => absent c t = true) (split sep s).
Proof.
  intros H. unfold split.
  destruct (split_from_keeps_absent c sep s 0 H) as [H1 H2].
  destruct (split_from 0 sep s) as [t ts]. now constructor.
Qed.

Lemma upper_char_not_underscore (x : ascii) :
  is_letter x = true -> Ascii.eqb (upper_char x) "_" = false.
Proof.
  destruct x as [[] [] [] [] [] [] [] []]; vm_compute; intros H;
    try discriminate H; reflexivity.
Qed.

(** Camel-casing brings in no underscore; the statement for a string and for
    the string after one more character follows the recursion of
    [kebabToCamel]. *)
Lemma kebabToCamel_keeps_absent (s : string) :
  (absent "_" s = true -> absent "_" (kebabToCamel s) = true)
  /\ (forall c, absent "_" (String c s) = true ->
                absent "_" (kebabToCamel (String c s)) = true).
Proof.
  induction s as [|x s [IH1 IH2]].
  - split; [reflexivity|]. intros c H. simpl.
    destruct (Ascii.eqb c "-"); exact H.
  - split; [apply IH2|]. intros c H.
    rewrite absent_cons in H. apply andb_true_iff in H as [Hc Hxs].
    cbn [kebabToCamel]. destruct (Ascii.eqb c "-").
    + destruct (is_letter x) eqn:L.
      * rewrite absent_cons, (upper_char_not_underscore x L). cbn [negb andb].
        rewrite absent_cons in Hxs. apply andb_true_iff in Hxs as [_ Hs].
        now apply IH1.
      * rewrite absent_cons, Hc. cbn [andb]. now apply IH2.
    + rewrite absent_cons, Hc. cbn [andb]. now apply IH2.
Qed.

Lemma convertPart_keeps_absent (part : string) :
  absent "_" part = true -> absent "_" (convertPart part) = true.
Proof.
  intros H.
  assert (Hsub : forall sp, absent "_" sp = true -> absent "_" (convertSubpart sp) = true).
  { intros sp Hsp. rewrite convertSubpart_kebabToCamel.
    now apply (proj1 (kebabToCamel_keeps_absent sp)). }
  unfold convertPart. destruct (includes part "--"); [|now apply Hsub].
  apply absent_join; [reflexivity|].
  apply Forall_map. eapply Forall_impl; [|apply (split_keeps_absent "_" "--" part H)].
  exact Hsub.
Qed.

(** The whole function on a name whose segments hold neither dots nor
    underscores and meet in single dots: each segment is converted on its own. *)
Lemma attributeNameToPropertyName_segments (prefix : string) (segs : list string) :
  segs <> [] ->
  Forall (fun seg => absent "." seg = true /\ absent "_" seg = true) segs ->
  includes (join "." segs) ".." = false ->
  attributeNameToPropertyName (prefix ++ join "." segs) prefix
  = join "." (map convertPart segs).
Proof.
  intros Hne Hall Hdd. unfold attributeNameToPropertyName.
  rewrite startsWith_append. cbn [negb]. rewrite drop_append.
  rewrite (replaceAll_no_occurrence ".." DOT_MARKER _ Hdd).
  rewrite (split_char_join "." segs Hne)
    by (eapply Forall_impl; [|exact Hall]; now intros seg [H _]).
  apply (replaceAll_absent "_" _ ".." _).
  apply absent_join; [reflexivity|].
  apply Forall_map. eapply Forall_impl; [|exact Hall].
  intros seg [_ H]. now apply convertPart_keeps_absent.
Qed.

End Segments.

(** C3. [attributeNameToPropertyName] is the segment-then-subsplit algorithm.
    A name under the prefix whose dot-separated segments hold no underscore
    and meet in single dots converts segment by segment.  A segment made of
    two or more sub-parts joined by ["--"] (sub-parts that hold no ["--"]
    themselves and, but for the last, do not end in a hyphen) becomes the
    converted sub-parts joined by a single hyphen, where a sub-part of length
    1 is unchanged and any other is camel-cased.  The double, triple and
    quadruple hyphen names of the specification convert to [testAttr-nested],
    [testAttr-Nested] and [testAttr--nested]. *)
Theorem attributeNameToPropertyName_hyphen_escape :
  (forall (prefix : string) (segs : list string),
      segs <> [] ->
      Forall (fun seg => absent "." seg = true /\ absent "_" seg = true) segs ->
      includes (join "." segs) ".." = false ->
      attributeNameToPropertyName (prefix ++ join "." segs) prefix
      = join "." (map convertPart segs))
  /\ (forall parts : list string,
      2 <= List.length parts ->
      Forall (fun p => includes p "--" = false) parts ->
      Forall (fun p => endsWith_char p "-" = false) (removelast parts) ->
      convertPart (join "--" parts) = join "-" (map convertSubpart parts))
  /\ (forall sp, String.length sp = 1 -> convertSubpart sp = sp)
  /\ (forall sp, String.length sp <> 1 -> convertSubpart sp = kebabToCamel sp)
  /\ attributeNameToPropertyName "data-test-attr--nested" default_prefix
     = "testAttr-nested"
  /\ attributeNameToPropertyName "data-test-attr---nested" default_prefix
     = "testAttr-Nested"
  /\ attributeNameToPropertyName "data-test-attr----nested" default_prefix
     = "testAttr--nested".
Proof.
  split; [exact attributeNameToPropertyName_segments|].
  split; [|split; [|split; [|repeat split; reflexivity]]].
  - intros parts Hlen Hinc Hend.
    destruct parts as [|p [|p' parts]]; simpl in Hlen; try lia.
    unfold convertPart.
    change (join "--" (p :: p' :: parts))
      with (p ++ "--" ++ join "--" (p' :: parts))%string at 1.
    rewrite includes_append.
    rewrite split_join_dashes; [reflexivity | discriminate | assumption | assumption].
  - intros sp H. unfold convertSubpart. now rewrite H.
  - intros sp H. unfold convertSubpart.
    destruct (String.length sp =? 1)%nat eqn:E; [|reflexivity].
    apply Nat.eqb_eq in E. contradiction.
Qed.

(** The sub-parts [test-attr], the empty sub-part and [nested] of
    [test-attr----nested]. *)
Lemma attributeNameToPropertyName_hyphen_escape_witness :
  convertPart (join "--" ["test-attr"; EmptyString; "nested"])
  = join "-" (map convertSubpart ["test-attr"; EmptyString; "nested"]).
Proof.
  apply (proj1 (proj2 attributeNameToPropertyName_hyphen_escape)).
  - simpl. lia.
  - repeat constructor.
  - repeat constructor.
Defined.

(** ** Round trip of the name codec *)

Section RoundTrip.

Lemma alnum_not_separator (c : ascii) :
  is_alnum c = true ->
  Ascii.eqb c "-" = false /\ Ascii.eqb c "." = false /\ Ascii.eqb c "_" = false.
Proof.
  destruct c as [[] [] [] [] [] [] [] []]; vm_compute; intros H;
    try discriminate H; repeat split.
Qed.

Lemma alnum_upper (c : ascii) :
  is_alnum c = true -> is_upper c = true ->
  is_letter (lower_char c) = true /\ upper_char (lower_char c) = c.
Proof.
  destruct c as [[] [] [] [] [] [] [] []]; vm_compute; intros H U;
    try discriminate H; try discriminate U; repeat split.
Qed.

Lemma alnum_not_upper (c : ascii) :
  is_alnum c = true -> is_upper c = false -> lower_char c = c.
Proof.
  destruct c as [[] [] [] [] [] [] [] []]; vm_compute; intros H U;
    try discriminate H; try discriminate U; reflexivity.
Qed.

Lemma toLowerCase_append (a b : string) :
  toLowerCase (a ++ b) = (toLowerCase a ++ toLowerCase b)%string.
Proof.
  unfold toLowerCase. induction a as [|c a IH]; simpl; [reflexivity | now rewrite IH].
Qed.

Lemma alnum_absent (c : ascii) (n : string) :
  (forall x, is_alnum x = true -> Ascii.eqb x c = false) ->
  all_chars is_alnum n = true -> absent c n = true.
Proof.
  intros Hc. unfold absent. apply all_chars_impl.
  intros x Hx. now rewrite (Hc x Hx).
Qed.

(** On a name of letters and digits the two escapes of [encodeProp] find
    nothing to escape. *)
Lemma encodeProp_alnum (n : string) :
  all_chars is_alnum n = true ->
  encodeProp n = expand_chars encodeChar n.
Proof.
  intros Hn. unfold encodeProp.
  rewrite (replaceAll_absent "-" EmptyString "--" n)
    by (apply alnum_absent; [intros x Hx; apply alnum_not_separator, Hx | exact Hn]).
  rewrite (replaceAll_absent "." EmptyString ".." n)
    by (apply alnum_absent; [intros x Hx; apply alnum_not_separator, Hx | exact Hn]).
  clear Hn. induction n as [|c n IH]; [reflexivity|].
  cbn [expand_chars]. rewrite toLowerCase_append, IH.
  unfold encodeChar. destruct (is_upper c) eqn:U; reflexivity.
Qed.

Lemma encoded_no_dot (n : string) :
  all_chars is_alnum n = true -> absent "." (expand_chars encodeChar n) = true.
Proof.
  induction n as [|c n IH]; [reflexivity|].
  simpl. intros H. apply andb_true_iff in H as [Hc Hn].
  rewrite absent_append, (IH Hn), andb_true_r.
  unfold encodeChar.
  destruct c as [[] [] [] [] [] [] [] []]; try discriminate Hc; reflexivity.
Qed.

Lemma encoded_no_double_hyphen (n : string) :
  all_chars is_alnum n = true ->
  includes (expand_chars encodeChar n) "--" = false.
Proof.
  induction n as [|c n IH]; [reflexivity|].
  simpl. intros H. apply andb_true_iff in H as [Hc Hn].
  specialize (IH Hn). unfold encodeChar.
  destruct (is_upper c) eqn:U.
  - destruct (alnum_upper c Hc U) as [L _].
    assert (Hl : Ascii.eqb (lower_char c) "-" = false).
    { destruct c as [[] [] [] [] [] [] [] []]; try discriminate U; reflexivity. }
    change (includes (String "-" (String (lower_char c) (expand_chars encodeChar n))) "--" = false).
    cbn [includes startsWith]. rewrite Hl. simpl. exact IH.
  - change (includes (String (lower_char c) (expand_chars encodeChar n)) "--" = false).
    cbn [includes startsWith].
    rewrite (alnum_not_upper c Hc U).
    destruct (alnum_not_separator c Hc) as [-> _]. simpl. exact IH.
Qed.

Lemma kebabToCamel_encoded (n : string) :
  all_chars is_alnum n = true ->
  kebabToCamel (expand_chars encodeChar n) = n.
Proof.
  induction n as [|c n IH]; [reflexivity|].
  simpl. intros H. apply andb_true_iff in H as [Hc Hn].
  specialize (IH Hn). unfold encodeChar.
  destruct (is_upper c) eqn:U.
  - destruct (alnum_upper c Hc U) as [L Up].
    change (kebabToCamel (String "-" (String (lower_char c) (expand_chars encodeChar n))) = String c n).
    cbn [kebabToCamel]. simpl (Ascii.eqb "-" "-"). cbv iota.
    now rewrite L, Up, IH.
  - change (kebabToCamel (String (lower_char c) (expand_chars encodeChar n)) = String c n).
    rewrite (alnum_not_upper c Hc U).
    cbn [kebabToCamel]. destruct (alnum_not_separator c Hc) as [-> _].
    now rewrite IH.
Qed.

(** Decoding what [encodeProp] made of a name of letters and digits, under
    any prefix. *)
Lemma roundtrip_alnum (prefix n : string) :
  all_chars is_alnum n = true ->
  attributeNameToPropertyName
    (propertyNameToAttributeName (PathString n) prefix) prefix = n.
Proof.
  intros Hn.
  assert (Hdot : absent "." n = true)
    by (apply alnum_absent; [intros x Hx; apply alnum_not_separator, Hx | exact Hn]).
  assert (Hus : absent "_" n = true)
    by (apply alnum_absent; [intros x Hx; apply alnum_not_separator, Hx | exact Hn]).
  unfold propertyNameToAttributeName.
  rewrite (split_absent "." EmptyString n Hdot).
  cbn [map join String.concat].
  rewrite (encodeProp_alnum n Hn).
  unfold attributeNameToPropertyName.
  rewrite startsWith_append. cbn [negb].
  rewrite drop_append.
  rewrite (replaceAll_absent "." "." DOT_MARKER _ (encoded_no_dot n Hn)).
  rewrite (split_absent "." EmptyString _ (encoded_no_dot n Hn)).
  cbn [map join String.concat].
  unfold convertPart.
  rewrite (encoded_no_double_hyphen n Hn).
  rewrite convertSubpart_kebabToCamel, (kebabToCamel_encoded n Hn).
  apply (replaceAll_absent "_" _ ".." n Hus).
Qed.

End RoundTrip.

Section DottedRoundTrip.

(** A dot after a segment without dots, before a text that does not begin
    with a dot, makes no double dot. *)
Lemma no_double_dot_step (p rest : string) :
  p <> EmptyString -> absent "." p = true ->
  starts_outside (fun x => Ascii.eqb x ".") rest ->
  includes rest ".." = false ->
  includes (p ++ "." ++ rest) ".." = false.
Proof.
  intros Hne Hp Hstart Hrest. induction p as [|x p IH]; [congruence|].
  rewrite absent_cons in Hp. apply andb_true_iff in Hp as [Hx Hp].
  apply negb_true_iff in Hx.
  change (String x p ++ "." ++ rest)%string with (String x (p ++ "." ++ rest)).
  cbn [includes startsWith]. rewrite Hx. cbn [andb orb].
  destruct p as [|y p].
  - change (EmptyString ++ "." ++ rest)%string with (String "." rest).
    cbn [includes startsWith]. rewrite Hrest.
    destruct rest as [|z rest]; [reflexivity|].
    simpl in Hstart. cbn [Ascii.eqb]. simpl. rewrite Hstart. reflexivity.
  - apply IH; [discriminate | exact Hp].
Qed.

Lemma join_starts_outside (parts : list string) :
  Forall (fun p => p <> EmptyString /\ absent "." p = true) parts ->
  starts_outside (fun x => Ascii.eqb x ".") (join "." parts).
Proof.
  intros Hall. destruct parts as [|p parts]; [exact I|].
  inversion Hall as [|? ? [Hne Hp] _]; subst.
  destruct p as [|x p]; [congruence|].
  rewrite absent_cons in Hp. apply andb_true_iff in Hp as [Hx _].
  apply negb_true_iff in Hx.
  destruct parts; exact Hx.
Qed.

Lemma no_double_dot (parts : list string) :
  Forall (fun p => p <> EmptyString /\ absent "." p = true) parts ->
  includes (join "." parts) ".." = false.
Proof.
  induction parts as [|p parts IH]; intros Hall; [reflexivity|].
  inversion Hall as [|? ? [Hne Hp] Hrest]; subst.
  destruct parts as [|q parts].
  - simpl. now apply includes_absent.
  - change (join "." (p :: q :: parts))
      with (p ++ "." ++ join "." (q :: parts))%string.
    apply no_double_dot_step; auto.
    now apply join_starts_outside.
Qed.

Lemma encoded_non_empty (n : string) :
  n <> EmptyString -> expand_chars encodeChar n <> EmptyString.
Proof.
  destruct n as [|c n]; [congruence|]. intros _.
  simpl. unfold encodeChar. destruct (is_upper c); discriminate.
Qed.

(** The round trip on a dotted path whose segments are names of letters and
    digits, such as [user.firstName]. *)
Lemma roundtrip_dotted_path (prefix : string) (segs : list string) :
  segs <> [] ->
  Forall (fun seg => seg <> EmptyString /\ all_chars is_alnum seg = true) segs ->
  attributeNameToPropertyName
    (propertyNameToAttributeName (PathString (join "." segs)) prefix) prefix
  = join "." segs.
Proof.
  intros Hne Hall.
  assert (Hdots : Forall (fun p => absent "." p = true) segs).
  { eapply Forall_impl; [|exact Hall]. intros seg [_ H].
    apply alnum_absent; [intros x Hx; apply alnum_not_separator, Hx | exact H]. }
  assert (Hus : Forall (fun p => absent "_" p = true) segs).
  { eapply Forall_impl; [|exact Hall]. intros seg [_ H].
    apply alnum_absent; [intros x Hx; apply alnum_not_separator, Hx | exact H]. }
  assert (Henc : map encodeProp segs = map (expand_chars encodeChar) segs).
  { apply map_ext_in. intros seg Hin. apply encodeProp_alnum.
    rewrite Forall_forall in Hall. now destruct (Hall seg Hin). }
  assert (Hencs : Forall (fun p => p <> EmptyString /\ absent "." p = true)
                         (map (expand_chars encodeChar) segs)).
  { apply Forall_map. eapply Forall_impl; [|exact Hall]. intros seg [H1 H2].
    split; [now apply encoded_non_empty | now apply encoded_no_dot]. }
  assert (Hdec : map convertPart (map (expand_chars encodeChar) segs) = segs).
  { rewrite map_map. rewrite <- (map_id segs) at 2. apply map_ext_in.
    intros seg Hin. rewrite Forall_forall in Hall. destruct (Hall seg Hin) as [_ H].
    unfold convertPart. rewrite (encoded_no_double_hyphen seg H).
    now rewrite convertSubpart_kebabToCamel, kebabToCamel_encoded. }
  unfold propertyNameToAttributeName.
  rewrite (split_char_join "." segs Hne Hdots), Henc.
  unfold attributeNameToPropertyName.
  rewrite startsWith_append. cbn [negb]. rewrite drop_append.
  rewrite (replaceAll_no_occurrence ".." DOT_MARKER _ (no_double_dot _ Hencs)).
  rewrite (split_char_join "." (map (expand_chars encodeChar) segs)).
  - rewrite Hdec.
    apply (replaceAll_absent "_" _ ".." _).
    now apply absent_join.
  - destruct segs; [congruence | discriminate].
  - eapply Forall_impl; [|exact Hencs]. now intros p [_ H].
Qed.

Example roundtrip_user_firstName :
  attributeNameToPropertyName
    (propertyNameToAttributeName (PathString "user.firstName") default_prefix)
    default_prefix = "user.firstName".
Proof.
  apply (roundtrip_dotted_path default_prefix ["user"; "firstName"]).
  - discriminate.
  - repeat constructor; discriminate.
Qed.

End DottedRoundTrip.

(** C1. For every camelCase property name [n] without leading digits,
    decoding the attribute name that [propertyNameToAttributeName] makes of
    [n] gives [n] back, both with the default prefix [data-]. *)
Theorem attributeName_propertyName_roundtrip (n : string) :
  camelCaseName n ->
  attributeNameToPropertyName
    (propertyNameToAttributeName (PathString n) default_prefix) default_prefix = n.
Proof.
  intros [Hn _]. now apply roundtrip_alnum.
Qed.

Lemma attributeName_propertyName_roundtrip_witness :
  camelCaseName "firstName" /\
  attributeNameToPropertyName
    (propertyNameToAttributeName (PathString "firstName") default_prefix)
    default_prefix = "firstName".
Proof.
  split.
  - split; reflexivity.
  - apply (attributeName_propertyName_roundtrip "firstName"). split; reflexivity.
Defined.

(** ** The model directive grammar *)

Section ModelDirective.

(** [indexOf] finds the first occurrence. *)
Lemma indexOf_None (c : ascii) (s : string) :
  indexOf c s = None -> absent c s = true.
Proof.
  induction s as [|d s IH]; [reflexivity|].
  simpl. destruct (Ascii.eqb d c) eqn:E; [discriminate|].
  destruct (indexOf c s); [discriminate|].
  intros _. rewrite absent_cons, E. now rewrite IH.
Qed.

Lemma indexOf_Some (c : ascii) (s : string) (i : nat) :
  indexOf c s = Some i ->
  s = (take i s ++ String c (drop (i + 1) s))%string /\ absent c (take i s) = true.
Proof.
  revert i. induction s as [|d s IH]; intros i; [discriminate|].
  simpl. destruct (Ascii.eqb d c) eqn:E.
  - intros [= <-]. apply Ascii.eqb_eq in E. subst d. simpl. split; reflexivity.
  - destruct (indexOf c s) as [j|]; [|discriminate].
    intros [= <-]. destruct (IH j eq_refl) as [Hs Ha].
    simpl. split.
    + f_equal. exact Hs.
    + rewrite absent_cons, E. exact Ha.
Qed.

(** [lastIndexOf] finds the last occurrence. *)
Lemma lastIndexOf_None (c : ascii) (s : string) :
  lastIndexOf c s = None -> absent c s = true.
Proof.
  induction s as [|d s IH]; [reflexivity|].
  simpl. destruct (lastIndexOf c s); [discriminate|].
  destruct (Ascii.eqb d c) eqn:E; [discriminate|].
  intros _. rewrite absent_cons, E. now rewrite IH.
Qed.

Lemma lastIndexOf_Some (c : ascii) (s : string) (i : nat) :
  lastIndexOf c s = Some i ->
  s = (take i s ++ String c (drop (i + 1) s))%string /\
  absent c (drop (i + 1) s) = true.
Proof.
  revert i. induction s as [|d s IH]; intros i; [discriminate|].
  simpl. destruct (lastIndexOf c s) as [j|] eqn:L.
  - intros [= <-]. destruct (IH j eq_refl) as [Hs Ha].
    simpl. split; [f_equal; exact Hs | exact Ha].
  - destruct (Ascii.eqb d c) eqn:E; [|discriminate].
    intros [= <-]. apply Ascii.eqb_eq in E. subst d. simpl.
    split; [reflexivity | now apply lastIndexOf_None].
Qed.

Lemma non_empty_false (s : string) : non_empty s = false -> s = EmptyString.
Proof. destruct s; [reflexivity | discriminate]. Qed.

End ModelDirective.

(** C2. [parseModelDirective] cuts its input, untrimmed, in this order: what
    follows the last [@] is the event; in what is left, what follows the
    first [#] is the modifier chain; in what is left of that, the text before
    the first [:] is the target and the text after it the DOM property, which
    is empty when there is no colon.  The value
    [form.email:value#debounce(400)@input] gives target [form.email], DOM
    property [value], event [input] and the one modifier [debounce] with
    arguments [[400]]. *)
Theorem parseModelDirective_split_order :
  (forall value : string,
      exists rest1 rest2 modifiersStr : string,
        let d := parseModelDirective value in
        ((absent "@" value = true /\ event d = EmptyString /\ rest1 = value) \/
         (value = (rest1 ++ "@" ++ event d)%string /\ absent "@" (event d) = true))
        /\
        ((absent "#" rest1 = true /\ modifiersStr = EmptyString /\ rest2 = rest1) \/
         (rest1 = (rest2 ++ "#" ++ modifiersStr)%string /\ absent "#" rest2 = true))
        /\
        ((absent ":" rest2 = true /\ target d = rest2 /\ domProperty d = EmptyString) \/
         (rest2 = (target d ++ ":" ++ domProperty d)%string /\
          absent ":" (target d) = true))
        /\
        eventModifiers d = setModifiers (parseModifiersString modifiersStr) [])
  /\ parseModelDirective "form.email:value#debounce(400)@input"
     = mkDirectiveValue "form.email" "value" "input"
                        [("debounce", [ArgNumber (JsInt 400)])]
  /\ target (parseModelDirective "  user.name  ") = "  user.name  ".
Proof.
  split; [|split; vm_compute; reflexivity].
  intros value. unfold parseModelDirective.
  destruct (lastIndexOf "@" value) as [atIndex|] eqn:Hat.
  - destruct (lastIndexOf_Some _ _ _ Hat) as [Hv Ha].
    set (rest1 := take atIndex value) in *.
    destruct (indexOf "#" rest1) as [hashIndex|] eqn:Hhash.
    + destruct (indexOf_Some _ _ _ Hhash) as [Hr Hh].
      set (rest2 := take hashIndex rest1) in *.
      set (mstr := drop (hashIndex + 1) rest1) in *.
      exists rest1, rest2, mstr.
      assert (Hm : (if non_empty mstr
                    then setModifiers (parseModifiersString mstr) [] else [])
                   = setModifiers (parseModifiersString mstr) []).
      { destruct (non_empty mstr) eqn:E; [reflexivity|].
        now rewrite (non_empty_false _ E). }
      destruct (indexOf ":" rest2) as [colonIndex|] eqn:Hcolon.
      * destruct (indexOf_Some _ _ _ Hcolon) as [Hc Hcc].
        cbn zeta. cbn [event target domProperty eventModifiers].
        repeat split; auto.
      * cbn zeta. cbn [event target domProperty eventModifiers].
        repeat split; auto.
        left. repeat split. now apply indexOf_None.
    + exists rest1, rest1, EmptyString.
      pose proof (indexOf_None _ _ Hhash) as Hh.
      destruct (indexOf ":" rest1) as [colonIndex|] eqn:Hcolon.
      * destruct (indexOf_Some _ _ _ Hcolon) as [Hc Hcc].
        cbn zeta. cbn [event target domProperty eventModifiers].
        repeat split; auto.
      * cbn zeta. cbn [event target domProperty eventModifiers].
        repeat split; auto.
        left. repeat split. now apply indexOf_None.
  - pose proof (lastIndexOf_None _ _ Hat) as Ha.
    destruct (indexOf "#" value) as [hashIndex|] eqn:Hhash.
    + destruct (indexOf_Some _ _ _ Hhash) as [Hr Hh].
      set (rest2 := take hashIndex value) in *.
      set (mstr := drop (hashIndex + 1) value) in *.
      exists value, rest2, mstr.
      assert (Hm : (if non_empty mstr
                    then setModifiers (parseModifiersString mstr) [] else [])
                   = setModifiers (parseModifiersString mstr) []).
      { destruct (non_empty mstr) eqn:E; [reflexivity|].
        now rewrite (non_empty_false _ E). }
      destruct (indexOf ":" rest2) as [colonIndex|] eqn:Hcolon.
      * destruct (indexOf_Some _ _ _ Hcolon) as [Hc Hcc].
        cbn zeta. cbn [event target domProperty eventModifiers].
        repeat split; auto.
      * cbn zeta. cbn [event target domProperty eventModifiers].
        repeat split; auto.
        left. repeat split. now apply indexOf_None.
    + exists value, value, EmptyString.
      destruct (indexOf ":" value) as [colonIndex|] eqn:Hcolon.
      * destruct (indexOf_Some _ _ _ Hcolon) as [Hc Hcc].
        cbn zeta. cbn [event target domProperty eventModifiers].
        repeat split; auto.
        left. repeat split. now apply indexOf_None.
      * cbn zeta. cbn [event target domProperty eventModifiers].
        repeat split; auto.
        left. repeat split. now apply indexOf_None.
        left. repeat split. now apply indexOf_None.
Qed.

(** ** The modifier grammar *)

Section ModifierGrammar.

Lemma span_append (p : ascii -> bool) (a rest : string) :
  all_chars p a = true -> starts_outside p rest ->
  span p (a ++ rest) = (a, rest).
Proof.
  intros Ha Hr. induction a as [|c a IH].
  - simpl. destruct rest as [|d rest]; [reflexivity|].
    simpl in Hr. simpl. now rewrite Hr.
  - simpl in Ha. apply andb_true_iff in Ha as [Hc Ha].
    simpl. rewrite Hc, (IH Ha). reflexivity.
Qed.

Lemma parseModifiersString_append (a b : string) :
  parseModifiersString (a ++ "#" ++ b)
  = parseModifiersString a ++ parseModifiersString b.
Proof.
  unfold parseModifiersString.
  change (a ++ "#" ++ b)%string with (a ++ String "#" b)%string.
  rewrite split_char_append, filter_app, flat_map_app. reflexivity.
Qed.


(** A token without [#] is parsed on its own. *)
Lemma parseModifiersString_token (t : string) :
  absent "#" t = true -> parseModifiersString t = parseModifierToken t.
Proof.
  intros H. unfold parseModifiersString.
  rewrite (split_absent "#" EmptyString t H).
  destruct t as [|c t]; [reflexivity|].
  simpl. now rewrite app_nil_r.
Qed.

Lemma absent_not_paren (s : string) :
  absent ")" s = all_chars (fun x => negb (Ascii.eqb x ")")) s.
Proof. reflexivity. Qed.




(** Folding pairs into the map: the arguments found under a name are those
    of the last pair with that name. *)
Lemma Map_get_set_same {V : Type} (k : string) (v : V) (m : list (string * V)) :
  Map_get String.eqb k (Map_set String.eqb k v m) = Some v.
Proof.
  induction m as [|[k' v'] m IH]; simpl.
  - now rewrite String.eqb_refl.
  - destruct (String.eqb k' k) eqn:E; simpl.
    + now rewrite String.eqb_refl.
    + now rewrite E.
Qed.

Lemma Map_get_set_other {V : Type} (k k0 : string) (v : V) (m : list (string * V)) :
  String.eqb k0 k = false ->
  Map_get String.eqb k (Map_set String.eqb k0 v m) = Map_get String.eqb k m.
Proof.
  intros Hk. induction m as [|[k' v'] m IH]; simpl.
  - now rewrite Hk.
  - destruct (String.eqb k' k0) eqn:E; simpl.
    + apply String.eqb_eq in E. subst k'. now rewrite Hk.
    + destruct (String.eqb k' k); [reflexivity | exact IH].
Qed.




End ModifierGrammar.

Section Coercion.








End Coercion.



(** ** The element scanner *)

Section ScannerFacts.

Variable inElementPrototype : string -> bool.
Variable element : Element.










End ScannerFacts.

(** ** Class directives *)

Section ClassDirectiveFacts.




Lemma parseClassDirectives_blank (attrs : list (string * string)) (v : string) :
  Map_get String.eqb DIRECTIVE_PREFIXES.CLASS attrs = Some v ->
  trim v = EmptyString ->
  parseClassDirectives attrs
  = (mkClassDirectiveValue (fst (reactiveLoop attrs [] [])) None,
     snd (reactiveLoop attrs [] [])).
Proof.
  intros Hget He. unfold parseClassDirectives, Map_has. rewrite Hget, He.
  cbn [andb String.length Nat.ltb Nat.leb].
  destruct (reactiveLoop attrs [] []). reflexivity.
Qed.

End ClassDirectiveFacts.

(** ** Where the conflict warning can come from *)

Section ConflictFacts.

Variable inElementPrototype : string -> bool.
Variable element : Element.






End ConflictFacts.




(** ** Eligibility for two-way binding *)

Section ModelDirectiveFacts.

Variable inElementPrototype : string -> bool.
Variable element : Element.

Lemma isValidForTwoWayBinding_spec :
  isValidForTwoWayBinding element = true <-> eligibleForTwoWayBinding element.
Proof.
  unfold isValidForTwoWayBinding, eligibleForTwoWayBinding, Array_includes.
  destruct (String.eqb_spec (tagName element) "TEXTAREA") as [Ht|Ht].
  { simpl. split; auto. }
  destruct (String.eqb_spec (tagName element) "SELECT") as [Hs|Hs].
  { simpl. split; auto. }
  cbn [orb].
  destruct (String.eqb_spec (tagName element) "INPUT") as [Hi|Hi].
  { rewrite existsb_exists. split.
    - intros [x [Hin Hx]]. apply String.eqb_eq in Hx. subst x. auto.
    - intros [H|[H|[[_ H]|[H _]]]]; try congruence.
      exists (type_or_empty element). split; [exact H | apply String.eqb_refl]. }
  destruct (String.eqb_spec (contentEditable element) "true") as [Hc|Hc].
  { split; auto. intros _. right. right. right. auto. }
  destruct (getAttribute element "role") as [r|] eqn:Hr.
  - destruct (String.eqb_spec r "textbox") as [Hx|Hx].
    + subst r. split; auto. intros _. right. right. right. auto.
    + split; [discriminate|].
      intros [H|[H|[[H _]|[_ [H|H]]]]]; congruence.
  - split; [discriminate|].
    intros [H|[H|[[H _]|[_ [H|H]]]]]; congruence.
Qed.

Lemma scanAttribute_model_other (st : ScanState) (n v : string) :
  String.eqb n DIRECTIVE_PREFIXES.MODEL = false ->
  modelDirective (scan_directives (scanAttribute inElementPrototype element st (n, v)))
  = modelDirective (scan_directives st).
Proof.
  intros Hn. destruct st as [[d f] l].
  unfold scanAttribute, parseAttributeDirective, parseBehaviorDirective.
  destruct (startsWith n DIRECTIVE_PREFIXES.ATTRIBUTE).
  { destruct (parseDirectiveValue v); reflexivity. }
  destruct (startsWith n DIRECTIVE_PREFIXES.PROPERTY).
  { destruct (parseDirectiveValue v); reflexivity. }
  destruct (startsWith n DIRECTIVE_PREFIXES.BEHAVIOR).
  { destruct (parseDirectiveValue v); reflexivity. }
  rewrite Hn.
  destruct (startsWith n (DIRECTIVE_PREFIXES.CLASS ++ "-") || String.eqb n DIRECTIVE_PREFIXES.CLASS);
    reflexivity.
Qed.

Lemma scanAttribute_log (st : ScanState) (a : string * string) (w : Diagnostic) :
  In w (scan_log st) ->
  In w (scan_log (scanAttribute inElementPrototype element st a)).
Proof.
  destruct st as [[d f] l]. destruct a as [n v]. unfold scan_log.
  intros H. cbn [snd] in H.
  unfold scanAttribute, parseAttributeDirective, parseBehaviorDirective.
  destruct (startsWith n DIRECTIVE_PREFIXES.ATTRIBUTE).
  { destruct (parseDirectiveValue v). cbn [snd]. apply in_or_app. now left. }
  destruct (startsWith n DIRECTIVE_PREFIXES.PROPERTY).
  { destruct (parseDirectiveValue v). cbn [snd]. apply in_or_app. now left. }
  destruct (startsWith n DIRECTIVE_PREFIXES.BEHAVIOR).
  { destruct (parseDirectiveValue v). cbn [snd]. apply in_or_app. now left. }
  destruct (String.eqb n DIRECTIVE_PREFIXES.MODEL).
  { destruct (negb (isValidForTwoWayBinding element)); cbn [snd];
      [apply in_or_app; now left | exact H]. }
  destruct (startsWith n (DIRECTIVE_PREFIXES.CLASS ++ "-") || String.eqb n DIRECTIVE_PREFIXES.CLASS);
    exact H.
Qed.

Lemma scan_log_kept (attrs : list (string * string)) (st : ScanState) (w : Diagnostic) :
  In w (scan_log st) ->
  In w (scan_log (fold_left (scanAttribute inElementPrototype element) attrs st)).
Proof.
  revert st. induction attrs as [|a attrs IH]; intros st H; [exact H|].
  simpl. apply IH. now apply scanAttribute_log.
Qed.

Lemma scan_model_absent (attrs : list (string * string)) (st : ScanState) :
  ~ In DIRECTIVE_PREFIXES.MODEL (map fst attrs) ->
  modelDirective (scan_directives
                    (fold_left (scanAttribute inElementPrototype element) attrs st))
  = modelDirective (scan_directives st).
Proof.
  revert st. induction attrs as [|[n v] attrs IH]; intros st H; [reflexivity|].
  simpl in H. simpl. rewrite IH by tauto.
  apply scanAttribute_model_other.
  apply String.eqb_neq. intros ->. apply H. now left.
Qed.

Lemma scanAttribute_model (st : ScanState) (v : string) :
  scanAttribute inElementPrototype element st (DIRECTIVE_PREFIXES.MODEL, v)
  = if isValidForTwoWayBinding element
    then (mkParsedDirectives
            (attributeDirectives (scan_directives st))
            (propertyDirectives (scan_directives st))
            (behaviorDirectives (scan_directives st))
            (Some (parseModelDirective v))
            (classDirective (scan_directives st)),
          scan_flag st, scan_log st)
    else (scan_directives st, scan_flag st,
          scan_log st ++ [ModelNotValid (tagName element) (type_or_empty element)]).
Proof.
  destruct st as [[d f] l].
  unfold scanAttribute, scan_directives, scan_flag, scan_log. cbn [fst snd].
  change (startsWith DIRECTIVE_PREFIXES.MODEL DIRECTIVE_PREFIXES.ATTRIBUTE) with false.
  change (startsWith DIRECTIVE_PREFIXES.MODEL DIRECTIVE_PREFIXES.PROPERTY) with false.
  change (startsWith DIRECTIVE_PREFIXES.MODEL DIRECTIVE_PREFIXES.BEHAVIOR) with false.
  change (String.eqb DIRECTIVE_PREFIXES.MODEL DIRECTIVE_PREFIXES.MODEL) with true.
  cbv iota. destruct (isValidForTwoWayBinding element); reflexivity.
Qed.

(** With unique attribute names the one [data-m] attribute decides. *)
Lemma scan_model (attrs : list (string * string)) (st : ScanState) (v : string) :
  NoDup (map fst attrs) -> In (DIRECTIVE_PREFIXES.MODEL, v) attrs ->
  let st' := fold_left (scanAttribute inElementPrototype element) attrs st in
  modelDirective (scan_directives st')
  = (if isValidForTwoWayBinding element then Some (parseModelDirective v)
     else modelDirective (scan_directives st))
  /\ (isValidForTwoWayBinding element = false ->
      In (ModelNotValid (tagName element) (type_or_empty element)) (scan_log st')).
Proof.
  revert st. induction attrs as [|[n x] attrs IH]; intros st Hnd Hin; [contradiction|].
  cbn zeta. simpl in Hnd. inversion Hnd as [|? ? Hnotin Hnd']; subst.
  cbn [fold_left]. destruct Hin as [[= -> ->] | Hin].
  - rewrite scan_model_absent by exact Hnotin.
    rewrite scanAttribute_model. split.
    + destruct (isValidForTwoWayBinding element); reflexivity.
    + intros Hv. apply scan_log_kept. rewrite Hv. unfold scan_log. cbn [snd].
      apply in_or_app. right. now left.
  - destruct (IH (scanAttribute inElementPrototype element st (n, x)) Hnd' Hin)
      as [H1 H2].
    split; [|exact H2].
    rewrite H1. rewrite scanAttribute_model_other; [reflexivity|].
    apply String.eqb_neq. intros ->. apply Hnotin.
    apply (in_map fst) in Hin. exact Hin.
Qed.

Lemma parseDirectives_model (attrs : list (string * string)) :
  modelDirective (fst (parseDirectives inElementPrototype element (Some attrs)))
  = modelDirective (scan_directives
                      (fold_left (scanAttribute inElementPrototype element) attrs
                                 (new_ParsedDirectives, false, []))).
Proof.
  unfold parseDirectives.
  destruct (fold_left (scanAttribute inElementPrototype element) attrs
                      (new_ParsedDirectives, false, [])) as [[d f] l].
  destruct f; [destruct (parseClassDirectives attrs)|]; reflexivity.
Qed.

Lemma parseDirectives_log (attrs : list (string * string)) (w : Diagnostic) :
  In w (scan_log (fold_left (scanAttribute inElementPrototype element) attrs
                            (new_ParsedDirectives, false, []))) ->
  In w (snd (parseDirectives inElementPrototype element (Some attrs))).
Proof.
  unfold parseDirectives.
  destruct (fold_left (scanAttribute inElementPrototype element) attrs
                      (new_ParsedDirectives, false, [])) as [[d f] l].
  unfold scan_log. cbn [snd]. intros H.
  destruct f; [destruct (parseClassDirectives attrs)|]; cbn [snd]; [|exact H].
  apply in_or_app. now left.
Qed.

End ModelDirectiveFacts.

Section AttributeMaps.

Lemma Map_set_keys {V : Type} (k x : string) (v : V) (m : list (string * V)) :
  In x (map fst (Map_set String.eqb k v m)) -> x = k \/ In x (map fst m).
Proof.
  induction m as [|[k' v'] m IH]; simpl.
  - intros [H|[]]. now left.
  - destruct (String.eqb k' k) eqn:E; simpl.
    + apply String.eqb_eq in E. subst k'. intros [H|H]; auto.
    + intros [H|H]; auto. destruct (IH H); auto.
Qed.

Lemma Map_set_NoDup {V : Type} (k : string) (v : V) (m : list (string * V)) :
  NoDup (map fst m) -> NoDup (map fst (Map_set String.eqb k v m)).
Proof.
  induction m as [|[k' v'] m IH]; simpl; intros H.
  - constructor; [intros [] | constructor].
  - inversion H as [|? ? Hnotin Hnd]; subst.
    destruct (String.eqb k' k) eqn:E; simpl.
    + apply String.eqb_eq in E. subst k'. now constructor.
    + constructor; [|now apply IH].
      intros Hin. apply Map_set_keys in Hin as [->|Hin]; [|contradiction].
      now rewrite String.eqb_refl in E.
Qed.

(** The attribute map read from an element has unique names. *)
Lemma getElementAttrs_NoDup (element : Element) :
  NoDup (map fst (getElementAttrs element)).
Proof.
  unfold getElementAttrs.
  assert (H : forall l acc, NoDup (map fst acc) ->
           NoDup (map fst (fold_left
                             (fun attrs (a : string * string) =>
                                Map_set String.eqb (fst a) (snd a) attrs) l acc))).
  { induction l as [|a l IH]; intros acc Hacc; [exact Hacc|].
    simpl. apply IH. now apply Map_set_NoDup. }
  apply H. constructor.
Qed.

End AttributeMaps.

(** C6. The scanner stores the model directive of a [data-m] attribute exactly
    when the element is eligible for two-way binding: [TEXTAREA] and [SELECT]
    always, [INPUT] exactly when its type is on the list of supported types,
    any other element when its [contentEditable] is the string [true] or its
    [role] attribute is [textbox].  On an element that is not eligible the
    directive is not stored and the diagnostic with the tag name and the type
    is emitted.  A stored model directive is the parse of the attribute value
    and implies one of the listed conditions.  An [INPUT] of type [button]
    with [data-m] gets no model directive and the diagnostic, also when it
    carries the role [textbox]: for [INPUT] the type decides alone. *)
Theorem model_directive_eligibility
    (inElementPrototype : string -> bool) (element : Element)
    (attributes : option (list (string * string))) :
  match attributes with
  | Some attrs => NoDup (map fst attrs)
  | None => True
  end ->
  let attrs := match attributes with
               | Some a => a
               | None => getElementAttrs element
               end in
  let scan := parseDirectives inElementPrototype element attributes in
  (isValidForTwoWayBinding element = true <-> eligibleForTwoWayBinding element)
  /\ (forall v, In (DIRECTIVE_PREFIXES.MODEL, v) attrs ->
                eligibleForTwoWayBinding element ->
                modelDirective (fst scan) = Some (parseModelDirective v))
  /\ (forall v, In (DIRECTIVE_PREFIXES.MODEL, v) attrs ->
                ~ eligibleForTwoWayBinding element ->
                modelDirective (fst scan) = None
                /\ In (ModelNotValid (tagName element) (type_or_empty element))
                      (snd scan))
  /\ (forall d, modelDirective (fst scan) = Some d ->
                (exists v, In (DIRECTIVE_PREFIXES.MODEL, v) attrs /\ d = parseModelDirective v)
                /\ (tagName element = "TEXTAREA" \/ tagName element = "SELECT"
                    \/ (tagName element = "INPUT"
                        /\ In (type_or_empty element) supportedTypes)
                    \/ contentEditable element = "true"
                    \/ getAttribute element "role" = Some "textbox"))
  /\ (tagName element = "INPUT" ->
      ~ In (type_or_empty element) supportedTypes ->
      modelDirective (fst scan) = None)
  /\ parseDirectives inElementPrototype
       (mkElement 1 "INPUT" (Some "button") "inherit"
                  [("type", "button"); ("role", "textbox"); ("data-m", "user.name")])
       None
     = (new_ParsedDirectives, [ModelNotValid "INPUT" "button"])
  /\ message (ModelNotValid "INPUT" "button")
     = ("data-m is not valid on INPUT[type=" ++ dq ++ "button" ++ dq ++ "]")%string.
Proof.
  intros Hnd attrs scan.
  assert (Hnd' : NoDup (map fst attrs)).
  { subst attrs. destruct attributes; [exact Hnd | apply getElementAttrs_NoDup]. }
  assert (Hscan : scan = parseDirectives inElementPrototype element (Some attrs)).
  { subst scan attrs. destruct attributes; reflexivity. }
  clearbody scan attrs. subst scan. clear Hnd.
  pose proof (isValidForTwoWayBinding_spec element) as Hspec.
  assert (Hstored : forall v, In (DIRECTIVE_PREFIXES.MODEL, v) attrs ->
            modelDirective (fst (parseDirectives inElementPrototype element (Some attrs)))
            = if isValidForTwoWayBinding element
              then Some (parseModelDirective v) else None).
  { intros v Hin. rewrite parseDirectives_model.
    exact (proj1 (scan_model inElementPrototype element attrs
                    (new_ParsedDirectives, false, []) v Hnd' Hin)). }
  assert (Hnone : ~ In DIRECTIVE_PREFIXES.MODEL (map fst attrs) ->
            modelDirective (fst (parseDirectives inElementPrototype element (Some attrs)))
            = None).
  { intros H. rewrite parseDirectives_model. now rewrite scan_model_absent. }
  split; [exact Hspec|].
  split.
  { intros v Hin He. rewrite (Hstored v Hin).
    apply Hspec in He. now rewrite He. }
  split.
  { intros v Hin He.
    assert (Hv : isValidForTwoWayBinding element = false).
    { destruct (isValidForTwoWayBinding element) eqn:E; [|reflexivity].
      exfalso. apply He, Hspec. reflexivity. }
    split.
    - rewrite (Hstored v Hin). now rewrite Hv.
    - apply parseDirectives_log.
      exact (proj2 (scan_model inElementPrototype element attrs
                      (new_ParsedDirectives, false, []) v Hnd' Hin) Hv). }
  split.
  { intros d Hd.
    destruct (in_dec string_dec DIRECTIVE_PREFIXES.MODEL (map fst attrs)) as [Hin|Hout].
    - apply in_map_iff in Hin as [[n v] [Hn Hin]]. simpl in Hn. subst n.
      rewrite (Hstored v Hin) in Hd.
      destruct (isValidForTwoWayBinding element) eqn:E; [|discriminate].
      injection Hd as <-. split; [exists v; auto|].
      destruct (proj1 Hspec eq_refl) as [H|[H|[H|[_ [H|H]]]]]; auto.
    - rewrite (Hnone Hout) in Hd. discriminate. }
  split.
  { intros Htag Htype.
    destruct (in_dec string_dec DIRECTIVE_PREFIXES.MODEL (map fst attrs)) as [Hin|Hout].
    - apply in_map_iff in Hin as [[n v] [Hn Hin]]. simpl in Hn. subst n.
      rewrite (Hstored v Hin).
      destruct (isValidForTwoWayBinding element) eqn:E; [|reflexivity].
      exfalso. destruct (proj1 Hspec eq_refl) as [H|[H|[[_ H]|[H _]]]];
        try contradiction; rewrite Htag in H; discriminate.
    - exact (Hnone Hout). }
  split; reflexivity.
Qed.

Lemma model_directive_eligibility_witness :
  modelDirective
    (fst (parseDirectives (fun _ => false)
            (mkElement 2 "TEXTAREA" (Some "textarea") "inherit"
                       [("data-m", "content#debounce(300)")])
            None))
  = Some (parseModelDirective "content#debounce(300)").
Proof.
  apply (proj1 (proj2 (model_directive_eligibility
                         (fun _ => false)
                         (mkElement 2 "TEXTAREA" (Some "textarea") "inherit"
                                    [("data-m", "content#debounce(300)")])
                         None I))).
  - left. reflexivity.
  - left. reflexivity.
Defined.

(** ** The lifecycle of a handler context *)

Section LifecycleFacts.

Context {W Err : Type}.

Local Abbreviation Runtime := (@Runtime W Err).
Local Abbreviation Cleanup := (@Cleanup W Err).
Local Abbreviation HandlerContext := (@HandlerContext W Err).

Lemma nth_error_update_same {A : Type} (l : list A) (i : nat) (x : A) :
  i < List.length l -> nth_error (update i x l) i = Some x.
Proof.
  revert i. induction l as [|y l IH]; intros i H; simpl in H; [lia|].
  destruct i; simpl; [reflexivity|]. apply IH. lia.
Qed.

Lemma nth_error_update_other {A : Type} (l : list A) (i j : nat) (x : A) :
  i <> j -> nth_error (update i x l) j = nth_error l j.
Proof.
  revert i j. induction l as [|y l IH]; intros i j H; [reflexivity|].
  destruct i, j; simpl; try reflexivity; try congruence.
  apply IH. congruence.
Qed.


Lemma update_same {A : Type} (l : list A) (i : nat) (x : A) :
  nth_error l i = Some x -> update i x l = l.
Proof.
  revert i. induction l as [|z l IH]; intros i H; [reflexivity|].
  destruct i; simpl in *; [now injection H as -> | now rewrite IH].
Qed.

Lemma nth_error_Some_lt {A : Type} (l : list A) (i : nat) (x : A) :
  nth_error l i = Some x -> i < List.length l.
Proof. intros H. apply nth_error_Some. congruence. Qed.

(** The loop of [dispose] over any list of cleanup functions. *)
Lemma fold_runCleanup (fns : list Cleanup) (rt : Runtime) :
  fold_left runCleanup fns rt
  = mkRuntime (fst (cleanup_effects fns (world rt)))
              (contexts rt) (signals rt)
              (console rt ++ map CleanupError (snd (cleanup_effects fns (world rt))))
              (trace rt ++ map (fun fn => Ran (cleanup_id fn)) fns).
Proof.
  revert rt. induction fns as [|fn fns IH]; intros rt.
  - destruct rt. simpl. now rewrite !app_nil_r.
  - cbn [fold_left]. rewrite IH. unfold runCleanup.
    cbn [cleanup_effects].
    destruct (cleanup_run fn (world rt)) as [w|w e]; cbn [world contexts signals console trace].
    + now rewrite <- app_assoc.
    + destruct (cleanup_effects fns w) as [w' es]. cbn [fst snd map].
      now rewrite <- !app_assoc.
Qed.

Lemma dispose_spec (rt : Runtime) (c : nat) (h : HandlerContext) :
  nth_error (contexts rt) c = Some h ->
  dispose c rt
  = mkRuntime (fst (cleanup_effects (unsubscribers h) (world rt)))
              (update c (mkHandlerContext (state h) (signal h) (config h) [])
                      (contexts rt))
              (signals rt)
              (console rt ++
               map CleanupError (snd (cleanup_effects (unsubscribers h) (world rt))))
              (trace rt ++ Disposed c ::
               map (fun fn => Ran (cleanup_id fn)) (unsubscribers h)).
Proof.
  intros H. unfold dispose. rewrite H. rewrite fold_runCleanup.
  unfold set_context. cbn [world contexts signals console trace].
  now rewrite <- app_assoc.
Qed.

(** On a context with nothing queued, [dispose] only shows in the trace. *)
Lemma dispose_empty (rt : Runtime) (c : nat) (h : HandlerContext) :
  nth_error (contexts rt) c = Some h -> unsubscribers h = [] ->
  dispose c rt
  = mkRuntime (world rt) (contexts rt) (signals rt) (console rt)
              (trace rt ++ [Disposed c]).
Proof.
  intros H He. rewrite (dispose_spec rt c h H), He. cbn [cleanup_effects fst snd map].
  rewrite app_nil_r. f_equal.
  apply update_same. rewrite H. f_equal. destruct h. simpl in He. now subst.
Qed.

Lemma queued_dispose (rt : Runtime) (c : nat) : queued (dispose c rt) c = [].
Proof.
  unfold queued. destruct (nth_error (contexts rt) c) as [h|] eqn:H.
  - rewrite (dispose_spec rt c h H). cbn [contexts].
    rewrite nth_error_update_same by (eapply nth_error_Some_lt; eassumption).
    reflexivity.
  - unfold dispose. now rewrite H, H.
Qed.

(** [addCleanup] queues at the end and touches neither the world, the
    console nor the trace. *)
Lemma addCleanup_spec (rt : Runtime) (c : nat) (h : HandlerContext) (fn : Cleanup) :
  nth_error (contexts rt) c = Some h ->
  let rt' := addCleanup c fn rt in
  nth_error (contexts rt') c
  = Some (mkHandlerContext (state h) (signal h) (config h) (unsubscribers h ++ [fn]))
  /\ world rt' = world rt /\ console rt' = console rt /\ trace rt' = trace rt.
Proof.
  intros H. unfold addCleanup. rewrite H. cbv zeta.
  set (h' := mkHandlerContext (state h) (signal h) (config h) (unsubscribers h ++ [fn])).
  set (rt1 := set_context c h' rt).
  assert (Hc : nth_error (contexts rt1) c = Some h').
  { unfold rt1, set_context. cbn [contexts].
    apply nth_error_update_same. eapply nth_error_Some_lt; eassumption. }
  destruct (live_signal rt1 h') as [[s a]|];
    [unfold set_signal; cbn [world contexts signals console trace]|];
    repeat split; try reflexivity; exact Hc.
Qed.

Lemma addCleanups_spec (fns : list Cleanup) (rt : Runtime) (c : nat) (h : HandlerContext) :
  nth_error (contexts rt) c = Some h ->
  let rt' := fold_left (fun r fn => addCleanup c fn r) fns rt in
  nth_error (contexts rt') c
  = Some (mkHandlerContext (state h) (signal h) (config h) (unsubscribers h ++ fns))
  /\ world rt' = world rt /\ console rt' = console rt /\ trace rt' = trace rt.
Proof.
  revert rt h. induction fns as [|fn fns IH]; intros rt h H; cbn zeta.
  - simpl. rewrite app_nil_r. destruct h. auto.
  - cbn [fold_left].
    destruct (addCleanup_spec rt c h fn H) as [H1 [H2 [H3 H4]]].
    destruct (IH _ _ H1) as [G1 [G2 [G3 G4]]].
    cbn [state signal config unsubscribers] in G1.
    rewrite <- app_assoc in G1. cbn [app] in G1.
    rewrite G1, G2, G3, G4. auto.
Qed.

End LifecycleFacts.

Section TraceFacts.

Lemma ran_app (a b : list TraceEvent) : ran (a ++ b) = ran a ++ ran b.
Proof. unfold ran. apply flat_map_app. Qed.


Lemma ran_cleanups {W Err : Type} (fns : list (@Cleanup W Err)) :
  ran (map (fun fn => Ran (cleanup_id fn)) fns) = map cleanup_id fns.
Proof. induction fns as [|fn fns IH]; simpl; [reflexivity | now rewrite <- IH]. Qed.




End TraceFacts.

(** C8. On a context that holds the cleanup functions [unsubscribers h] and to
    which [fns] are added, [dispose] calls every queued function once, in the
    order of insertion; a function that throws has its exception caught and
    logged and the functions after it still run (the world and the log are
    those of [cleanup_effects]); then the queue is empty.  [dispose] always
    returns.  A second [dispose] calls no cleanup function and leaves world
    and console as they are.  A function added after a [dispose] is not called
    by the addition; the next [dispose] calls it, and it alone. *)
Theorem dispose_runs_every_cleanup {W Err : Type}
    (rt : @Runtime W Err) (c : nat) (h : @HandlerContext W Err)
    (fns : list (@Cleanup W Err)) (later : @Cleanup W Err) :
  nth_error (contexts rt) c = Some h ->
  let all := unsubscribers h ++ fns in
  let rt1 := fold_left (fun r fn => addCleanup c fn r) fns rt in
  let rt2 := dispose c rt1 in
  queued rt1 c = all
  /\ trace rt2 = trace rt ++ Disposed c :: map (fun fn => Ran (cleanup_id fn)) all
  /\ world rt2 = fst (cleanup_effects all (world rt))
  /\ console rt2
     = console rt ++ map CleanupError (snd (cleanup_effects all (world rt)))
  /\ queued rt2 c = []
  /\ (let rt3 := dispose c rt2 in
      trace rt3 = trace rt2 ++ [Disposed c]
      /\ world rt3 = world rt2 /\ console rt3 = console rt2 /\ queued rt3 c = [])
  /\ (let rt3 := addCleanup c later rt2 in
      trace rt3 = trace rt2 /\ world rt3 = world rt2 /\ queued rt3 c = [later]
      /\ trace (dispose c rt3) = trace rt2 ++ [Disposed c; Ran (cleanup_id later)]
      /\ world (dispose c rt3) = outcome_world (cleanup_run later (world rt2))
      /\ queued (dispose c rt3) c = []).
Proof.
  intros H all rt1 rt2.
  destruct (addCleanups_spec fns rt c h H) as [H1 [H2 [H3 H4]]].
  fold rt1 in H1, H2, H3, H4. fold all in H1.
  set (h1 := mkHandlerContext (state h) (signal h) (config h) all) in *.
  assert (E2 : rt2 = dispose c rt1) by reflexivity.
  rewrite (dispose_spec rt1 c h1 H1) in E2.
  cbn [state signal config unsubscribers h1] in E2.
  rewrite H2, H3, H4 in E2.
  set (h0 := mkHandlerContext (state h) (signal h) (config h) []) in *.
  assert (Hc2 : nth_error (contexts rt2) c = Some h0).
  { rewrite E2. cbn [contexts]. apply nth_error_update_same.
    eapply nth_error_Some_lt; eassumption. }
  split; [unfold queued; now rewrite H1|].
  split; [now rewrite E2|].
  split; [now rewrite E2|].
  split; [now rewrite E2|].
  split; [unfold queued; now rewrite Hc2|].
  split.
  - cbv zeta. rewrite (dispose_empty rt2 c h0 Hc2 eq_refl).
    cbn [trace world console]. repeat split.
    unfold queued. cbn [contexts]. now rewrite Hc2.
  - cbv zeta.
    destruct (addCleanup_spec rt2 c h0 later Hc2) as [G1 [G2 [G3 G4]]].
    cbn [state signal config unsubscribers h0 app] in G1.
    split; [exact G4|]. split; [exact G2|].
    split; [unfold queued; now rewrite G1|].
    rewrite (dispose_spec _ c _ G1). cbn [unsubscribers trace world map contexts].
    rewrite G4, G2. split; [reflexivity|].
    split.
    + cbn [cleanup_effects].
      destruct (cleanup_run later (world rt2)); reflexivity.
    + unfold queued. cbn [contexts].
      rewrite nth_error_update_same; [reflexivity|].
      eapply nth_error_Some_lt; eassumption.
Qed.

Lemma dispose_runs_every_cleanup_witness :
  trace (dispose 0
           (fold_left (fun r fn => addCleanup 0 fn r)
              [mkCleanup 1 (fun w : nat => Throws w "boom");
               mkCleanup 2 (fun w : nat => Returns (w + 1))]
              (mkRuntime 0 [mkHandlerContext Null None Null []] [] [] [])))
  = [] ++ Disposed 0 ::
    map (fun fn => Ran (cleanup_id fn))
        ([] ++ [mkCleanup 1 (fun w : nat => Throws w "boom");
                mkCleanup 2 (fun w : nat => Returns (w + 1))]).
Proof.
  exact (proj1 (proj2 (dispose_runs_every_cleanup
                         (mkRuntime 0 [mkHandlerContext Null None Null []] [] [] [])
                         0 (mkHandlerContext Null None Null [])
                         [mkCleanup 1 (fun w : nat => Throws w "boom");
                          mkCleanup 2 (fun w : nat => Returns (w + 1))]
                         (mkCleanup 3 (fun w : nat => Returns w))
                         eq_refl))).
Defined.

Section AbortFacts.

Context {W Err : Type}.

Local Abbreviation Runtime := (@Runtime W Err).
Local Abbreviation Cleanup := (@Cleanup W Err).
Local Abbreviation HandlerContext := (@HandlerContext W Err).





End AbortFacts.




(** ** Reading the state *)

Section GetFacts.

Variable primitiveGet : JsValue -> string -> JsValue.

(** Once the traversal has reached [undefined] or [null] it stays there. *)
Lemma getPropertyValue_nullish (v : JsValue) (path : list string) :
  isSet v = false -> getPropertyValue primitiveGet v path = v.
Proof.
  intros H. induction path as [|part path IH]; [reflexivity|].
  unfold getPropertyValue in *. cbn [fold_left]. now rewrite H.
Qed.

Lemma getPropertyValue_app (obj : JsValue) (p1 p2 : list string) :
  getPropertyValue primitiveGet obj (p1 ++ p2)
  = getPropertyValue primitiveGet (getPropertyValue primitiveGet obj p1) p2.
Proof. unfold getPropertyValue. apply fold_left_app. Qed.

End GetFacts.

(** C10. [get(path, defaultValue)] returns the default when the traversal of
    the state along the path ends in [undefined] or [null], which includes
    every path that runs through a missing or [null] member, and returns the
    value found in every other case, also when that value is [0], [false] or
    the empty string.  Without a default (or with [undefined] for it) the
    fallback is [null]. *)
Theorem HandlerContext_get_default {W Err : Type}
    (primitiveGet : JsValue -> string -> JsValue)
    (h : @HandlerContext W Err) (path : PathInput) :
  let p := match path with
           | PathArray a => a
           | PathString s => propertyNameToPath s
           end in
  let v := getPropertyValue primitiveGet (state h) p in
  (forall d, d <> Undefined -> v = Undefined \/ v = Null ->
             HandlerContext_get primitiveGet h path (Some d) = d)
  /\ (v = Undefined \/ v = Null ->
      HandlerContext_get primitiveGet h path None = Null
      /\ HandlerContext_get primitiveGet h path (Some Undefined) = Null)
  /\ (forall d, v <> Undefined -> v <> Null ->
                HandlerContext_get primitiveGet h path d = v)
  /\ (forall (before after : list string) (d : JsValue),
         d <> Undefined ->
         isSet (getPropertyValue primitiveGet (state h) before) = false ->
         HandlerContext_get primitiveGet h (PathArray (before ++ after)) (Some d) = d)
  /\ (let ctx := @mkHandlerContext W Err falsy_state None Null [] in
      HandlerContext_get primitiveGet ctx (PathString "count") (Some (JsStr "default"))
      = JsNum (JsInt 0)
      /\ HandlerContext_get primitiveGet ctx (PathString "active") (Some (JsStr "default"))
         = JsBool false
      /\ HandlerContext_get primitiveGet ctx (PathString "name") (Some (JsStr "default"))
         = JsStr EmptyString
      /\ HandlerContext_get primitiveGet ctx (PathString "user.name") (Some (JsStr "default"))
         = JsStr "default"
      /\ HandlerContext_get primitiveGet ctx (PathString "missing.deep") None = Null).
Proof.
  intros p v.
  assert (Hget : forall d, HandlerContext_get primitiveGet h path d
                 = if isSet v then v
                   else match d with
                        | Some Undefined | None => Null
                        | Some x => x
                        end).
  { intros d. unfold HandlerContext_get. fold p. fold v. reflexivity. }
  split.
  { intros d Hd [Hv|Hv]; rewrite Hget, Hv; cbn [isSet];
      destruct d; congruence. }
  split.
  { intros [Hv|Hv]; rewrite !Hget, Hv; split; reflexivity. }
  split.
  { intros d Hu Hn. rewrite Hget. destruct v; try reflexivity; congruence. }
  split.
  { intros before after d Hd Hb. unfold HandlerContext_get.
    rewrite getPropertyValue_app.
    rewrite (getPropertyValue_nullish primitiveGet _ after Hb), Hb.
    destruct d; congruence. }
  cbv zeta. repeat split; reflexivity.
Qed.

Lemma HandlerContext_get_default_witness :
  HandlerContext_get (fun _ _ => Undefined)
    (@mkHandlerContext nat string falsy_state None Null [])
    (PathString "user.profile.age") (Some (JsNum (JsInt 18)))
  = JsNum (JsInt 18).
Proof.
  apply (proj1 (HandlerContext_get_default (fun _ _ => Undefined)
                  (@mkHandlerContext nat string falsy_state None Null [])
                  (PathString "user.profile.age"))).
  - discriminate.
  - right. reflexivity.
Defined.

(** ** Binding an element *)

(** C9. When [isStateCompatible] rejects the state, [bindElement] raises the
    error before anything else: the table of bound elements is the same, no
    context was created, disposed of or changed, no cleanup function ran and
    the world is untouched; only what the predicate itself wrote is on the
    console. *)
Theorem bindElement_incompatible_state {W Err : Type}
    (inElementPrototype : string -> bool) (cls : @BridgeClass W Err)
    (element : Element) (st : JsValue) (options : Options)
    (b : Bridge) (rt : @Runtime W Err) :
  fst (isStateCompatible cls st) = false ->
  let outcome := bindElement inElementPrototype cls element st options (b, rt) in
  let b' := fst (snd outcome) in
  let rt' := snd (snd outcome) in
  fst outcome
  = Error ("State is not compatible with bridge " ++ bridgeName cls)%string
  /\ boundElements b' = boundElements b
  /\ contexts rt' = contexts rt
  /\ signals rt' = signals rt
  /\ world rt' = world rt
  /\ trace rt' = trace rt
  /\ console rt' = console rt ++ snd (isStateCompatible cls st).
Proof.
  intros H. cbv zeta. unfold bindElement.
  destruct (isStateCompatible cls st) as [compatible said].
  cbn [fst] in H. subst compatible. cbn [negb fst snd].
  repeat split.
Qed.

(** An input element that is bound, with one cleanup function queued, is
    bound again with the state [null], which the bridge rejects. *)
Lemma bindElement_incompatible_state_witness :
  let element := mkElement 7 "INPUT" (Some "text") "inherit" [("data-m", "user.name")] in
  let queue := [mkCleanup 1 (fun w : nat => Returns (w + 1))] in
  let rt := @mkRuntime nat string 0 [mkHandlerContext falsy_state None Null queue] [] [] [] in
  let outcome := bindElement (fun _ => false) TestBridge_class element Null
                             (mkOptions None None) (mkBridge [(7, 0)], rt) in
  fst outcome = Error "State is not compatible with bridge TestBridge"
  /\ boundElements (fst (snd outcome)) = [(7, 0)]
  /\ contexts (snd (snd outcome)) = contexts rt
  /\ signals (snd (snd outcome)) = signals rt
  /\ world (snd (snd outcome)) = 0
  /\ trace (snd (snd outcome)) = []
  /\ console (snd (snd outcome)) = [] ++ [].
Proof.
  exact (bindElement_incompatible_state
           (fun _ => false) TestBridge_class
           (mkElement 7 "INPUT" (Some "text") "inherit" [("data-m", "user.name")])
           Null (mkOptions None None) (mkBridge [(7, 0)])
           (@mkRuntime nat string 0
              [mkHandlerContext falsy_state None Null
                 [mkCleanup 1 (fun w : nat => Returns (w + 1))]] [] [] [])
           eq_refl).
Defined.

(** The same call with a state the bridge accepts: the previous context is
    disposed of (its cleanup function runs) and the element is bound to the
    new context, which holds the cleanup function of the model callback. *)
Example bindElement_rebinds :
  let element := mkElement 7 "INPUT" (Some "text") "inherit" [("data-m", "user.name")] in
  let queue := [mkCleanup 5 (fun w : nat => Returns (w + 1))] in
  let rt := @mkRuntime nat string 0 [mkHandlerContext falsy_state None Null queue] [] [] [] in
  let outcome := bindElement (fun _ => false) TestBridge_class element falsy_state
                             (mkOptions None None) (mkBridge [(7, 0)], rt) in
  boundElements (fst (snd outcome)) = [(7, 1)]
  /\ trace (snd (snd outcome)) = [Disposed 0; Ran 5]
  /\ world (snd (snd outcome)) = 1
  /\ map cleanup_id (queued (snd (snd outcome)) 0) = []
  /\ map cleanup_id (queued (snd (snd outcome)) 1) = [1].
Proof. repeat split. Qed.

(** ** The tests of the repository, on the embedding *)

Section RepositoryTests.

Example test_attributeNameToPropertyName :
  attributeNameToPropertyName "data-first-name" default_prefix = "firstName"
  /\ attributeNameToPropertyName "data-user.first-name" default_prefix = "user.firstName"
  /\ attributeNameToPropertyName "data-user.a" default_prefix = "user.a"
  /\ attributeNameToPropertyName "data-a--b" default_prefix = "a-b"
  /\ attributeNameToPropertyName "app-user-name" "app-" = "userName"
  /\ attributeNameToPropertyName "user-email" default_prefix = "user-email"
  /\ attributeNameToPropertyName "data-obj..path" default_prefix = "obj..path"
  /\ attributeNameToPropertyName "data-a-b-c" default_prefix = "aBC".
Proof. repeat split. Qed.

Example test_propertyNameToAttributeName :
  propertyNameToAttributeName (PathString "firstName") default_prefix = "data-first-name"
  /\ propertyNameToAttributeName (PathString "user.firstName") default_prefix
     = "data-user.first-name"
  /\ propertyNameToAttributeName (PathString "user-name") default_prefix
     = "data-user--name"
  /\ propertyNameToAttributeName (PathString "obj..path") default_prefix
     = "data-obj..path"
  /\ propertyNameToAttributeName (PathArray ["user"; "firstName"]) default_prefix
     = "data-user.first-name"
  /\ propertyNameToAttributeName (PathArray ["user"; "name"]) "x-" = "x-user.name".
Proof. repeat split. Qed.

Example test_paths :
  propertyNameToPath "user.profile.name" = ["user"; "profile"; "name"]
  /\ propertyNameToPath "a..b..c" = ["a.b.c"]
  /\ propertyNameToPath "a....b" = ["a..b"]
  /\ pathToPropertyName ["user"; "status.active"] = "user.status..active"
  /\ pathToPropertyName ["a."; "b."] = "a...b..".
Proof. repeat split. Qed.

Example test_parseModifiersString :
  parseModifiersString "debounce" = [("debounce", [])]
  /\ parseModifiersString "debounce(300)#throttle(100)#preventDefault"
     = [("debounce", [ArgNumber (JsInt 300)]); ("throttle", [ArgNumber (JsInt 100)]);
        ("preventDefault", [])]
  /\ parseModifiersString ("custom(100," ++ dq ++ "text" ++ dq ++ ",true,false)")
     = [("custom", [ArgNumber (JsInt 100); ArgString "text";
                    ArgBoolean true; ArgBoolean false])]
  /\ parseModifiersString "validate('email')" = [("validate", [ArgString "email"])]
  /\ parseModifiersString "flag(True,FALSE)"
     = [("flag", [ArgBoolean true; ArgBoolean false])]
  /\ parseModifiersString "numeric(123,456.789,-100)"
     = [("numeric", [ArgNumber (JsInt 123);
                     ArgNumber (Finite false (456789 # 1000));
                     ArgNumber (JsInt (-100))])]
  /\ parseModifiersString "debounce( 300 , 100 )"
     = [("debounce", [ArgNumber (JsInt 300); ArgNumber (JsInt 100)])]
  /\ map fst (parseModifiersString "stop-propagation#my_modifier(100)")
     = ["stop-propagation"; "my_modifier"].
Proof. repeat split; vm_compute; reflexivity. Qed.

Example test_parseDirectiveValue :
  parseDirectiveValue "handleClick#debounce(300)#preventDefault"
  = (mkDirectiveValue "handleClick" EmptyString EmptyString
       [("debounce", [ArgNumber (JsInt 300)]); ("preventDefault", [])], [])
  /\ parseDirectiveValue "  name  "
     = (mkDirectiveValue "name" EmptyString EmptyString [], [])
  /\ parseDirectiveValue EmptyString
     = (new_DirectiveValue, [CouldNotParseTarget EmptyString])
  /\ targetParts (fst (parseDirectiveValue EmptyString)) = [EmptyString]
  /\ parseDirectiveValue "size === 'lg'"
     = (mkDirectiveValue "size" EmptyString EmptyString [],
        [UnexpectedCharacters " === 'lg'"]).
Proof. repeat split; vm_compute; reflexivity. Qed.

Example test_parseModelDirective :
  parseModelDirective "target:prop:value"
  = mkDirectiveValue "target" "prop:value" EmptyString []
  /\ parseModelDirective "myValue@old@input"
     = mkDirectiveValue "myValue@old" EmptyString "input" []
  /\ parseModelDirective "  myValue  "
     = mkDirectiveValue "  myValue  " EmptyString EmptyString []
  /\ parseModelDirective ":domProperty"
     = mkDirectiveValue EmptyString "domProperty" EmptyString []
  /\ parseModelDirective "@input" = mkDirectiveValue EmptyString EmptyString "input" []
  /\ parseModelDirective "#debounce(300)"
     = mkDirectiveValue EmptyString EmptyString EmptyString
                        [("debounce", [ArgNumber (JsInt 300)])]
  /\ map fst (eventModifiers
                (parseModelDirective "data#mod1(arg1,arg2)#mod2#mod3(value)@customEvent"))
     = ["mod1"; "mod2"; "mod3"].
Proof. repeat split; vm_compute; reflexivity. Qed.

Example test_parseClassDirectives :
  parseClassDirectives [("data-c", "  computedClasses  ")]
  = (mkClassDirectiveValue
       [] (Some (mkDirectiveValue "computedClasses" EmptyString EmptyString [])), [])
  /\ computedClass (fst (parseClassDirectives [("data-c", "   ")])) = None
  /\ map fst (reactiveClasses
                (fst (parseClassDirectives
                        [("data-c", "   "); ("data-c-active", "isActive");
                         ("data-c-disabled", "isDisabled")])))
     = ["active"; "disabled"].
Proof. repeat split. Qed.

(** The scan of the input element of the integration test. *)
Example test_parseDirectives :
  let element :=
    mkElement 3 "INPUT" (Some "text") "inherit"
      [("type", "text"); ("data-a-placeholder", "placeholderText");
       ("data-p-value", "currentValue"); ("data-b-input", "handleInput#debounce(500)");
       ("data-b-blur", "handleBlur#preventDefault"); ("data-m", "formData.email");
       ("data-c-invalid", "hasValidationError")] in
  let scan := fst (parseDirectives (fun name => String.eqb name "value") element None) in
  map fst (attributeDirectives scan) = ["placeholder"]
  /\ map fst (propertyDirectives scan) = [KeyName "value"]
  /\ map fst (behaviorDirectives scan) = ["input"; "blur"]
  /\ modelDirective scan
     = Some (mkDirectiveValue "formData.email" EmptyString EmptyString [])
  /\ classDirective scan
     = Some (mkClassDirectiveValue
               [("invalid", mkDirectiveValue "hasValidationError"
                                             EmptyString EmptyString [])]
               None).
Proof. repeat split. Qed.

(** [get] is built on [getPropertyValue], not on [getNestedProperty]: the two
    differ on a path that runs through a falsy value, here the length of an
    empty string. *)
Example getPropertyValue_through_falsy :
  let lengthOf := fun (v : JsValue) (key : string) =>
                    match v with
                    | JsStr s => if String.eqb key "length"
                                 then JsNum (JsInt (Z.of_nat (String.length s)))
                                 else Undefined
                    | _ => Undefined
                    end in
  getPropertyValue lengthOf falsy_state ["name"; "length"] = JsNum (JsInt 0)
  /\ getNestedProperty lengthOf falsy_state ["name"; "length"] = Undefined.
Proof. split; reflexivity. Qed.

End RepositoryTests.

(** * Further properties of the code *)

(** ** Paths and their string form *)

Section PathRoundTrip.

Lemma startsWith_split (s p : string) :
  startsWith s p = true -> s = (p ++ drop (String.length p) s)%string.
Proof.
  revert s. induction p as [|a p IH]; intros s H.
  - simpl. now destruct s.
  - destruct s as [|b s]; [discriminate|].
    cbn [startsWith] in H. apply andb_true_iff in H as [Hb Hs].
    apply Ascii.eqb_eq in Hb. subst b. simpl. f_equal. now apply IH.
Qed.

Lemma length_drop (n : nat) (s : string) :
  String.length (drop n s) <= String.length s.
Proof.
  revert s. induction n as [|n IH]; intros s; [now destruct s|].
  destruct s as [|c s]; simpl; [lia|]. specialize (IH s). lia.
Qed.

Lemma absent_drop (c : ascii) (n : nat) (s : string) :
  absent c s = true -> absent c (drop n s) = true.
Proof.
  revert s. induction n as [|n IH]; intros s H; [now destruct s|].
  destruct s as [|d s]; [reflexivity|].
  rewrite absent_cons in H. apply andb_true_iff in H as [_ H].
  simpl. now apply IH.
Qed.

(** One step of [replaceAll] at a match and at a character that begins no
    match. *)
Lemma replaceAll_match (pat rep r : string) :
  pat <> EmptyString ->
  replaceAll pat rep (pat ++ r) = (rep ++ replaceAll pat rep r)%string.
Proof.
  intros Hne. destruct pat as [|a pat]; [congruence|].
  unfold replaceAll.
  change (String a pat ++ r)%string with (String a (pat ++ r)).
  cbn [replaceAll_from].
  pose proof (startsWith_append (String a pat) r) as H.
  change (String a pat ++ r)%string with (String a (pat ++ r)) in H.
  rewrite H. cbn [String.length]. rewrite Nat.sub_succ, Nat.sub_0_r.
  now rewrite replaceAll_from_skip.
Qed.

Lemma replaceAll_no_match (pat rep : string) (c : ascii) (s : string) :
  startsWith (String c s) pat = false ->
  replaceAll pat rep (String c s) = String c (replaceAll pat rep s).
Proof. intros H. unfold replaceAll. cbn [replaceAll_from]. now rewrite H. Qed.

(** Putting a pattern [b] back for [a] undoes putting [a] for [b], on a
    string in which no character can begin an [a] except at a replaced
    place: the first character [a0] of [a] does not occur in the string. *)
Lemma replaceAll_undo (a0 : ascii) (a b : string) (n : nat) (s : string) :
  b <> EmptyString ->
  String.length s <= n ->
  absent a0 s = true ->
  replaceAll (String a0 a) b (replaceAll b (String a0 a) s) = s.
Proof.
  intros Hb. revert s. induction n as [|n IH]; intros s Hlen Habs.
  - destruct s; [reflexivity | simpl in Hlen; lia].
  - destruct s as [|c s]; [reflexivity|].
    destruct (startsWith (String c s) b) eqn:Hs.
    + pose proof (startsWith_split _ _ Hs) as E.
      set (r := drop (String.length b) (String c s)) in *.
      rewrite E. rewrite (replaceAll_match b (String a0 a) r Hb).
      rewrite (replaceAll_match (String a0 a) b) by discriminate.
      rewrite IH; [reflexivity | |].
      * assert (String.length (String c s) = String.length b + String.length r)
          by (rewrite E at 1; apply length_append).
        destruct b as [|b0 b]; [congruence|]. simpl in *. lia.
      * unfold r. now apply absent_drop.
    + rewrite (replaceAll_no_match b (String a0 a) c s Hs).
      rewrite absent_cons in Habs. apply andb_true_iff in Habs as [Hc Habs].
      rewrite replaceAll_no_match.
      * rewrite IH; [reflexivity | simpl in Hlen; lia | exact Habs].
      * cbn [startsWith]. apply negb_true_iff in Hc. now rewrite Hc.
Qed.

(** Joining what was split at a character gives the string back. *)
Lemma join_split_char (c : ascii) (s : string) :
  join (String c EmptyString) (split (String c EmptyString) s) = s.
Proof.
  unfold split. induction s as [|d s IH]; [reflexivity|].
  cbn [split_from startsWith String.length Nat.sub].
  destruct (split_from 0 (String c EmptyString) s) as [t ts].
  destruct (Ascii.eqb d c) eqn:E; cbn [andb].
  - apply Ascii.eqb_eq in E. subst d.
    change (join (String c EmptyString) (EmptyString :: t :: ts))
      with (String c (join (String c EmptyString) (t :: ts))).
    now rewrite IH.
  - destruct ts as [|t' ts].
    + simpl in *. now rewrite IH.
    + change (join (String c EmptyString) (String d t :: t' :: ts))
        with (String d (join (String c EmptyString) (t :: t' :: ts))).
      now rewrite IH.
Qed.

(** The pieces of a split at a character do not hold that character. *)
Lemma split_char_pieces (c : ascii) (s : string) :
  Forall (fun t => absent c t = true) (split (String c EmptyString) s).
Proof.
  unfold split. induction s as [|d s IH]; [repeat constructor|].
  cbn [split_from startsWith String.length Nat.sub].
  destruct (split_from 0 (String c EmptyString) s) as [t ts].
  destruct (Ascii.eqb d c) eqn:E; cbn [andb].
  - constructor; [reflexivity | exact IH].
  - inversion IH as [|? ? Ht Hts]; subst. constructor; [|exact Hts].
    rewrite absent_cons, E. exact Ht.
Qed.

Lemma includes_tail (c : ascii) (s pat : string) :
  includes (String c s) pat = false ->
  startsWith (String c s) pat = false /\ includes s pat = false.
Proof. cbn [includes]. intros H. now apply orb_false_iff in H. Qed.

Lemma includes_drop (n : nat) (s pat : string) :
  includes s pat = false -> includes (drop n s) pat = false.
Proof.
  revert s. induction n as [|n IH]; intros s H; [now destruct s|].
  destruct s as [|c s]; [exact H|].
  apply includes_tail in H as [_ H]. simpl. now apply IH.
Qed.

Lemma replaceAll_same (b : string) (n : nat) (s : string) :
  b <> EmptyString -> String.length s <= n -> replaceAll b b s = s.
Proof.
  intros Hb. revert s. induction n as [|n IH]; intros s Hlen.
  - destruct s; [reflexivity | simpl in Hlen; lia].
  - destruct s as [|c s]; [reflexivity|].
    destruct (startsWith (String c s) b) eqn:Hs.
    + pose proof (startsWith_split _ _ Hs) as E.
      set (r := drop (String.length b) (String c s)) in *.
      rewrite E. rewrite (replaceAll_match b b r Hb).
      rewrite IH; [reflexivity|].
      assert (String.length (String c s) = String.length b + String.length r)
        by (rewrite E at 1; apply length_append).
      destruct b as [|b0 b]; [congruence|]. simpl in *. lia.
    + rewrite (replaceAll_no_match b b c s Hs).
      rewrite IH; [reflexivity | simpl in Hlen; lia].
Qed.

(** In a string without two underscores in a row, into which markers were
    put for the occurrences of [b], no marker begins at a character that was
    there before: an underscore in front of a marker is followed by two
    more, where the marker has a [D]. *)
Lemma no_marker_at (b : string) (c : ascii) (p tail : string) :
  b <> EmptyString ->
  includes (String c p) "__" = false ->
  startsWith tail "_" = false ->
  startsWith (String c (replaceAll b DOT_MARKER p ++ tail)) DOT_MARKER = false.
Proof.
  intros Hb Hp Ht. unfold DOT_MARKER.
  destruct (Ascii.eqb c "_") eqn:Ec.
  - apply Ascii.eqb_eq in Ec. subst c.
    apply includes_tail in Hp as [Hp _].
    destruct p as [|d p].
    + change (replaceAll b "__DOT_MARKER__" EmptyString) with EmptyString.
      change (EmptyString ++ tail)%string with tail.
      destruct tail as [|t tail]; [reflexivity|].
      cbn [startsWith] in Ht. rewrite andb_true_r in Ht.
      cbn [startsWith]. rewrite Ht. reflexivity.
    + cbn [startsWith] in Hp. rewrite andb_true_r in Hp.
      change (Ascii.eqb "_" "_") with true in Hp. cbn [andb] in Hp.
      destruct (startsWith (String d p) b) eqn:Hd.
      * rewrite (startsWith_split _ _ Hd).
        rewrite (replaceAll_match b "__DOT_MARKER__" _ Hb). reflexivity.
      * rewrite (replaceAll_no_match b "__DOT_MARKER__" d p Hd).
        change (String d (replaceAll b "__DOT_MARKER__" p) ++ tail)%string
          with (String d (replaceAll b "__DOT_MARKER__" p ++ tail)).
        cbn [startsWith]. rewrite Hp. reflexivity.
  - cbn [startsWith]. rewrite Ec. reflexivity.
Qed.

(** Replacing the markers that were put for [b] is replacing [b], also in
    front of a [tail] that does not begin with an underscore. *)
Lemma marker_through (b b' : string) (n : nat) (p tail : string) :
  b <> EmptyString ->
  String.length p <= n ->
  includes p "__" = false ->
  startsWith tail "_" = false ->
  replaceAll DOT_MARKER b' (replaceAll b DOT_MARKER p ++ tail)
  = (replaceAll b b' p ++ replaceAll DOT_MARKER b' tail)%string.
Proof.
  intros Hb. revert p. induction n as [|n IH]; intros p Hlen Hp Ht.
  - destruct p; [reflexivity | simpl in Hlen; lia].
  - destruct p as [|c p]; [reflexivity|].
    destruct (startsWith (String c p) b) eqn:Hs.
    + pose proof (startsWith_split _ _ Hs) as E.
      pose proof (includes_drop (String.length b) _ _ Hp) as Hr.
      assert (Hl : String.length (drop (String.length b) (String c p)) <= n).
      { assert (String.length (String c p)
                = String.length b
                  + String.length (drop (String.length b) (String c p)))
          by (rewrite E at 1; apply length_append).
        destruct b as [|b0 b]; [congruence|]. simpl in *. lia. }
      set (r := drop (String.length b) (String c p)) in *.
      rewrite E. rewrite (replaceAll_match b DOT_MARKER r Hb).
      rewrite (replaceAll_match b b' r Hb).
      rewrite !append_assoc.
      rewrite (replaceAll_match DOT_MARKER b') by discriminate.
      now rewrite (IH r Hl Hr Ht).
    + rewrite (replaceAll_no_match b DOT_MARKER c p Hs).
      rewrite (replaceAll_no_match b b' c p Hs).
      change (String c (replaceAll b DOT_MARKER p) ++ tail)%string
        with (String c (replaceAll b DOT_MARKER p ++ tail)).
      rewrite replaceAll_no_match by (now apply no_marker_at).
      apply includes_tail in Hp as [_ Hp].
      rewrite (IH p); [reflexivity | simpl in Hlen; lia | exact Hp | exact Ht].
Qed.

Lemma marker_undo (b : string) (p : string) :
  b <> EmptyString ->
  includes p "__" = false ->
  replaceAll DOT_MARKER b (replaceAll b DOT_MARKER p) = p.
Proof.
  intros Hb Hp.
  pose proof (marker_through b b (String.length p) p EmptyString Hb
                (le_n _) Hp eq_refl) as H.
  rewrite !append_empty_r in H. rewrite H.
  now apply (replaceAll_same b (String.length p)).
Qed.

(** Doubling the dots of a segment, and reading the doubled dots back as
    markers, in front of any [tail]. *)
Lemma doubled_back (s tail : string) :
  replaceAll ".." DOT_MARKER (replaceAll "." ".." s ++ tail)
  = (replaceAll "." DOT_MARKER s ++ replaceAll ".." DOT_MARKER tail)%string.
Proof.
  induction s as [|c s IH]; [reflexivity|].
  destruct (Ascii.eqb c ".") eqn:Ec.
  - apply Ascii.eqb_eq in Ec. subst c.
    change (String "." s) with ("." ++ s)%string.
    rewrite !(replaceAll_match ".") by discriminate.
    rewrite !append_assoc.
    rewrite (replaceAll_match "..") by discriminate.
    now rewrite IH.
  - rewrite !(replaceAll_no_match ".") by (cbn [startsWith]; now rewrite Ec).
    change (String c (replaceAll "." ".." s) ++ tail)%string
      with (String c (replaceAll "." ".." s ++ tail)).
    rewrite replaceAll_no_match by (cbn [startsWith]; now rewrite Ec).
    now rewrite IH.
Qed.

Lemma marked_no_dot (s : string) :
  absent "." (replaceAll "." DOT_MARKER s) = true.
Proof.
  induction s as [|c s IH]; [reflexivity|].
  destruct (Ascii.eqb c ".") eqn:Ec.
  - apply Ascii.eqb_eq in Ec. subst c.
    change (String "." s) with ("." ++ s)%string.
    rewrite (replaceAll_match ".") by discriminate.
    rewrite absent_append, IH. reflexivity.
  - rewrite (replaceAll_no_match ".") by (cbn [startsWith]; now rewrite Ec).
    rewrite absent_cons, Ec. exact IH.
Qed.

(** [pathToPropertyName] before its last replacement, and after it. *)
Lemma marked_join_doubled (path : list string) :
  Forall (fun s => includes s "__" = false) path ->
  replaceAll DOT_MARKER ".." (join "." (map (replaceAll "." DOT_MARKER) path))
  = join "." (map (replaceAll "." "..") path).
Proof.
  induction path as [|s rest IH]; intros H; [reflexivity|].
  inversion H as [|? ? Hs Hrest]; subst.
  destruct rest as [|s2 rest].
  - pose proof (marker_through "." ".." (String.length s) s EmptyString
                  ltac:(discriminate) (le_n _) Hs eq_refl) as E.
    rewrite !append_empty_r in E. exact E.
  - change (join "." (map (replaceAll "." DOT_MARKER) (s :: s2 :: rest)))
      with (replaceAll "." DOT_MARKER s
            ++ String "." (join "." (map (replaceAll "." DOT_MARKER) (s2 :: rest))))%string.
    change (join "." (map (replaceAll "." "..") (s :: s2 :: rest)))
      with (replaceAll "." ".." s
            ++ String "." (join "." (map (replaceAll "." "..") (s2 :: rest))))%string.
    rewrite (marker_through "." ".." (String.length s) s (String "." _)
               ltac:(discriminate) (le_n _) Hs eq_refl).
    rewrite replaceAll_no_match by reflexivity.
    now rewrite (IH Hrest).
Qed.

Lemma doubled_join_marked (first : string) (rest : list string) :
  Forall (fun s => s <> EmptyString /\ startsWith s "." = false) rest ->
  replaceAll ".." DOT_MARKER (join "." (map (replaceAll "." "..") (first :: rest)))
  = join "." (map (replaceAll "." DOT_MARKER) (first :: rest)).
Proof.
  revert first. induction rest as [|s2 rest IH]; intros s H.
  - pose proof (doubled_back s EmptyString) as E.
    rewrite !append_empty_r in E. exact E.
  - inversion H as [|? ? [Hne Hdot] Hrest]; subst.
    change (join "." (map (replaceAll "." DOT_MARKER) (s :: s2 :: rest)))
      with (replaceAll "." DOT_MARKER s
            ++ String "." (join "." (map (replaceAll "." DOT_MARKER) (s2 :: rest))))%string.
    change (join "." (map (replaceAll "." "..") (s :: s2 :: rest)))
      with (replaceAll "." ".." s
            ++ String "." (join "." (map (replaceAll "." "..") (s2 :: rest))))%string.
    rewrite doubled_back.
    rewrite replaceAll_no_match; [now rewrite (IH s2 Hrest)|].
    cbn [startsWith]. change (Ascii.eqb "." ".") with true. cbn [andb].
    destruct s2 as [|c s2]; [congruence|].
    pose proof Hdot as Hc. cbn [startsWith] in Hc. rewrite andb_true_r in Hc.
    cbn [map]. rewrite (replaceAll_no_match "." ".." c s2 Hdot).
    destruct rest; cbn [map join String.concat append startsWith];
      now rewrite Hc.
Qed.

End PathRoundTrip.

(** X1. [pathToPropertyName] undoes [propertyNameToPath] on every property
    name that does not hold two underscores in a row, whatever its dots. *)
Theorem propertyNameToPath_pathToPropertyName (propertyName : string) :
  includes propertyName "__" = false ->
  pathToPropertyName (propertyNameToPath propertyName) = propertyName.
Proof.
  intros Hp. unfold pathToPropertyName, propertyNameToPath.
  set (q := replaceAll ".." DOT_MARKER propertyName).
  rewrite map_map.
  assert (E : map (fun x => replaceAll "." DOT_MARKER (replaceAll DOT_MARKER "." x))
                  (split "." q) = split "." q).
  { pose proof (split_char_pieces "." q) as F.
    induction F as [|t ts Ht _ IH]; [reflexivity|].
    cbn [map]. rewrite IH. f_equal.
    exact (replaceAll_undo "." EmptyString DOT_MARKER (String.length t) t
             ltac:(discriminate) (le_n _) Ht). }
  rewrite E, join_split_char. unfold q.
  apply marker_undo; [discriminate | exact Hp].
Qed.

Lemma propertyNameToPath_pathToPropertyName_witness :
  pathToPropertyName (propertyNameToPath "user_data.status..active.")
  = "user_data.status..active.".
Proof.
  apply (propertyNameToPath_pathToPropertyName "user_data.status..active.").
  reflexivity.
Defined.

(** X2. For segments without two underscores in a row, [pathToPropertyName]
    doubles the dots inside every segment and joins the segments with single
    dots. *)
Theorem pathToPropertyName_doubles_dots (path : list string) :
  Forall (fun s => includes s "__" = false) path ->
  pathToPropertyName path = join "." (map (replaceAll "." "..") path).
Proof. intros H. unfold pathToPropertyName. now apply marked_join_doubled. Qed.

Lemma pathToPropertyName_doubles_dots_witness :
  pathToPropertyName ["user"; "status.active"] = "user.status..active".
Proof.
  apply (pathToPropertyName_doubles_dots ["user"; "status.active"]).
  repeat constructor.
Defined.

(** X3. [propertyNameToPath] undoes [pathToPropertyName] on a path with at
    least one segment, when no segment holds two underscores in a row and
    every segment after the first is non-empty and does not begin with a
    dot.  Dots inside and at the end of segments are kept. *)
Theorem pathToPropertyName_propertyNameToPath
    (first : string) (rest : list string) :
  Forall (fun s => includes s "__" = false) (first :: rest) ->
  Forall (fun s => s <> EmptyString /\ startsWith s "." = false) rest ->
  propertyNameToPath (pathToPropertyName (first :: rest)) = first :: rest.
Proof.
  intros Hu Hd. unfold propertyNameToPath, pathToPropertyName.
  rewrite (marked_join_doubled _ Hu), (doubled_join_marked _ _ Hd).
  rewrite split_char_join.
  - rewrite map_map.
    induction Hu as [|t ts Ht _ IH] in |- *; [reflexivity|].
    cbn [map]. rewrite IH. f_equal.
    apply marker_undo; [discriminate | exact Ht].
  - discriminate.
  - apply Forall_map. apply Forall_forall. intros x _. apply marked_no_dot.
Qed.

Lemma pathToPropertyName_propertyNameToPath_witness :
  propertyNameToPath (pathToPropertyName ["a.b."; "c_d"; "e..f"])
  = ["a.b."; "c_d"; "e..f"].
Proof.
  apply (pathToPropertyName_propertyNameToPath "a.b." ["c_d"; "e..f"]).
  - repeat constructor.
  - repeat constructor; discriminate.
Defined.

(** Outside these domains the two functions are not inverse: a property name
    around the marker text, an empty path, and a segment that begins with a
    dot. *)
Example path_roundtrip_limits :
  pathToPropertyName (propertyNameToPath "__DOT_MARKER..") = "..DOT_MARKER__"
  /\ propertyNameToPath (pathToPropertyName []) = [""]
  /\ propertyNameToPath (pathToPropertyName ["a"; ".b"]) = ["a."; "b"].
Proof. repeat split; reflexivity. Qed.

(** ** The two traversals *)

Section TraversalFacts.

Variable primitiveGet : JsValue -> string -> JsValue.

Lemma truthy_isSet (v : JsValue) : truthy v = true -> isSet v = true.
Proof. destruct v; simpl; congruence. Qed.

Lemma getNestedProperty_undefined (path : list string) :
  getNestedProperty primitiveGet Undefined path = Undefined.
Proof.
  unfold getNestedProperty. induction path as [|part path IH]; [reflexivity|].
  cbn [fold_left truthy]. exact IH.
Qed.

Lemma getNestedProperty_app (obj : JsValue) (p1 p2 : list string) :
  getNestedProperty primitiveGet obj (p1 ++ p2)
  = getNestedProperty primitiveGet (getNestedProperty primitiveGet obj p1) p2.
Proof. unfold getNestedProperty. apply fold_left_app. Qed.

Lemma getNestedProperty_falsy (v : JsValue) (path : list string) :
  truthy v = false -> path <> [] ->
  getNestedProperty primitiveGet v path = Undefined.
Proof.
  intros Hv Hp. destruct path as [|part path]; [congruence|].
  unfold getNestedProperty. cbn [fold_left]. rewrite Hv.
  apply getNestedProperty_undefined.
Qed.

Lemma traversals_agree (obj : JsValue) (path : list string) :
  getNestedProperty primitiveGet obj path <> Undefined ->
  getPropertyValue primitiveGet obj path = getNestedProperty primitiveGet obj path.
Proof.
  revert obj. induction path as [|part path IH]; intros obj H; [reflexivity|].
  unfold getNestedProperty, getPropertyValue in *. cbn [fold_left] in *.
  destruct (truthy obj) eqn:Ht.
  - rewrite (truthy_isSet obj Ht). now apply IH.
  - exfalso. apply H. apply getNestedProperty_undefined.
Qed.

End TraversalFacts.

(** X4. Whenever [getNestedProperty] finds something other than [undefined],
    [getPropertyValue] finds the same value: the two traversals differ only
    where the first one gives up. *)
Theorem getPropertyValue_extends_getNestedProperty
    (primitiveGet : JsValue -> string -> JsValue)
    (obj : JsValue) (path : list string) :
  getNestedProperty primitiveGet obj path <> Undefined ->
  getPropertyValue primitiveGet obj path = getNestedProperty primitiveGet obj path.
Proof. apply traversals_agree. Qed.

Lemma getPropertyValue_extends_getNestedProperty_witness :
  getPropertyValue (fun _ _ => Undefined)
    (JsObject (fun _ => falsy_state)) ["form"; "count"]
  = getNestedProperty (fun _ _ => Undefined)
      (JsObject (fun _ => falsy_state)) ["form"; "count"].
Proof.
  apply (getPropertyValue_extends_getNestedProperty (fun _ _ => Undefined)
           (JsObject (fun _ => falsy_state)) ["form"; "count"]).
  vm_compute. discriminate.
Defined.

(** X5. [getNestedProperty] gives [undefined] for every path that goes on
    after a falsy value: after [null] and a missing member, and also after
    [0], [false], the empty string and [NaN], whose members [getPropertyValue]
    does read. *)
Theorem getNestedProperty_stops_at_falsy
    (primitiveGet : JsValue -> string -> JsValue)
    (obj : JsValue) (before after : list string) :
  truthy (getNestedProperty primitiveGet obj before) = false ->
  after <> [] ->
  getNestedProperty primitiveGet obj (before ++ after) = Undefined
  /\ (isSet (getNestedProperty primitiveGet obj before) = true ->
      getPropertyValue primitiveGet obj before
      = getNestedProperty primitiveGet obj before
      /\ forall part,
           getPropertyValue primitiveGet obj (before ++ [part])
           = primitiveGet (getNestedProperty primitiveGet obj before) part).
Proof.
  intros Hf Ha. split.
  - rewrite getNestedProperty_app. now apply getNestedProperty_falsy.
  - intros Hs.
    assert (E : getPropertyValue primitiveGet obj before
                = getNestedProperty primitiveGet obj before).
    { apply traversals_agree. intros E. rewrite E in Hs. discriminate. }
    split; [exact E|].
    intros part. rewrite getPropertyValue_app, E.
    unfold getPropertyValue. cbn [fold_left]. rewrite Hs.
    destruct (getNestedProperty primitiveGet obj before); try reflexivity.
    discriminate.
Qed.

Lemma getNestedProperty_stops_at_falsy_witness :
  getNestedProperty (fun _ _ => JsStr "member") falsy_state (["count"] ++ ["toFixed"])
  = Undefined.
Proof.
  apply (proj1 (getNestedProperty_stops_at_falsy (fun _ _ => JsStr "member")
                  falsy_state ["count"] ["toFixed"] eq_refl ltac:(discriminate))).
Defined.

(** ** Cleanup functions without a live signal *)

Section DeadSignalFacts.

Context {W Err : Type}.

Local Abbreviation Runtime := (@Runtime W Err).
Local Abbreviation Cleanup := (@Cleanup W Err).
Local Abbreviation HandlerContext := (@HandlerContext W Err).

Lemma length_update {A : Type} (i : nat) (x : A) (l : list A) :
  List.length (update i x l) = List.length l.
Proof.
  revert i. induction l as [|y l IH]; intros i; [reflexivity|].
  destruct i; simpl; [reflexivity | now rewrite IH].
Qed.

Lemma length_contexts_dispose (c : nat) (rt : Runtime) :
  List.length (contexts (dispose c rt)) = List.length (contexts rt).
Proof.
  destruct (nth_error (contexts rt) c) as [h|] eqn:H.
  - rewrite (dispose_spec rt c h H). cbn [contexts]. apply length_update.
  - unfold dispose. now rewrite H.
Qed.

Lemma signals_dispose (c : nat) (rt : Runtime) :
  signals (dispose c rt) = signals rt.
Proof.
  destruct (nth_error (contexts rt) c) as [h|] eqn:H.
  - now rewrite (dispose_spec rt c h H).
  - unfold dispose. now rewrite H.
Qed.

(** Disposing of a context leaves the queue of every other context alone. *)
Lemma queued_dispose_other (c c' : nat) (rt : Runtime) :
  c <> c' -> queued (dispose c rt) c' = queued rt c'.
Proof.
  intros Hne. unfold queued.
  destruct (nth_error (contexts rt) c) as [h|] eqn:H.
  - rewrite (dispose_spec rt c h H). cbn [contexts].
    now rewrite nth_error_update_other.
  - unfold dispose. now rewrite H.
Qed.

(** A signal that is aborted, or that the store does not hold, is not
    aborted again. *)
Lemma abort_dead (s : nat) (rt : Runtime) :
  match nth_error (signals rt) s with
  | Some a => aborted a = true
  | None => True
  end ->
  abort s rt = rt.
Proof.
  unfold abort. destruct (nth_error (signals rt) s) as [a|]; [|reflexivity].
  now intros ->.
Qed.

End DeadSignalFacts.

(** X6. On a context that has no signal, or whose signal is aborted already,
    [addCleanup] queues the function and registers no abort listener: the
    signals, the world, the console and the trace stay as they are, aborting
    the signal again does nothing, and the function is called by the next
    explicit [dispose] only. *)
Theorem addCleanup_without_live_signal {W Err : Type}
    (rt : @Runtime W Err) (c : nat) (h : @HandlerContext W Err)
    (fn : @Cleanup W Err) :
  nth_error (contexts rt) c = Some h ->
  match signal h with
  | Some s => exists a, nth_error (signals rt) s = Some a /\ aborted a = true
  | None => True
  end ->
  let rt' := addCleanup c fn rt in
  signals rt' = signals rt
  /\ world rt' = world rt /\ console rt' = console rt /\ trace rt' = trace rt
  /\ queued rt' c = unsubscribers h ++ [fn]
  /\ isActive rt' c = isActive rt c
  /\ (forall s, signal h = Some s -> abort s rt' = rt')
  /\ ran (trace (dispose c rt'))
     = ran (trace rt) ++ map cleanup_id (unsubscribers h ++ [fn]).
Proof.
  intros Hc Hsig rt'.
  set (h' := mkHandlerContext (state h) (signal h) (config h) (unsubscribers h ++ [fn])).
  assert (Hlt : c < List.length (contexts rt)) by (eapply nth_error_Some_lt; eassumption).
  assert (E : rt' = set_context c h' rt).
  { unfold rt', addCleanup. rewrite Hc. cbv zeta. fold h'.
    unfold live_signal. cbn [signal h' set_context signals].
    destruct (signal h) as [s|]; [|reflexivity].
    destruct Hsig as [a [Ha Hab]]. now rewrite Ha, Hab. }
  assert (Hc' : nth_error (contexts rt') c = Some h').
  { rewrite E. unfold set_context. cbn [contexts].
    now apply nth_error_update_same. }
  split; [now rewrite E|]. split; [now rewrite E|].
  split; [now rewrite E|]. split; [now rewrite E|].
  split; [unfold queued; now rewrite Hc'|].
  split.
  { unfold isActive. rewrite Hc', Hc. cbn [signal h']. now rewrite E. }
  split.
  { intros s Hs. apply abort_dead. rewrite E. cbn [set_context signals].
    rewrite Hs in Hsig. destruct Hsig as [a [Ha Hab]]. now rewrite Ha. }
  rewrite (dispose_spec rt' c h' Hc'). cbn [trace unsubscribers h'].
  rewrite E. cbn [set_context trace].
  rewrite ran_app. f_equal.
  change (Disposed c :: map (fun f => Ran (cleanup_id f)) (unsubscribers h ++ [fn]))
    with ([Disposed c] ++ map (fun f => Ran (cleanup_id f)) (unsubscribers h ++ [fn])).
  rewrite ran_app. cbn [ran flat_map app]. apply ran_cleanups.
Qed.

Lemma addCleanup_without_live_signal_witness :
  let rt := @mkRuntime nat string 0
              [mkHandlerContext Null (Some 0) Null []]
              [mkAbortSignal true []] [] [] in
  let rt' := addCleanup 0 (mkCleanup 7 (fun w => Returns (S w))) rt in
  signals rt' = signals rt
  /\ world rt' = 0
  /\ abort 0 rt' = rt'
  /\ ran (trace (dispose 0 rt')) = [7].
Proof.
  cbv zeta.
  pose proof (addCleanup_without_live_signal
                (@mkRuntime nat string 0
                   [mkHandlerContext Null (Some 0) Null []]
                   [mkAbortSignal true []] [] [])
                0 (mkHandlerContext Null (Some 0) Null [])
                (mkCleanup 7 (fun w => Returns (S w)))
                eq_refl
                (ex_intro _ (mkAbortSignal true []) (conj eq_refl eq_refl))) as H.
  cbv zeta in H.
  destruct H as [H1 [H2 [_ [_ [_ [_ [H7 H8]]]]]]].
  split; [exact H1|]. split; [exact H2|].
  split; [exact (H7 0 eq_refl) | exact H8].
Defined.

(** ** The table of bound elements *)

Section TableFacts.

Context {V : Type}.

Local Abbreviation Table := (list (nat * V)).

Lemma table_get_In (k : nat) (m : Table) :
  ~ In k (map fst m) -> Map_get Nat.eqb k m = None.
Proof.
  induction m as [|[k' v'] m IH]; simpl; intros H; [reflexivity|].
  destruct (Nat.eqb k' k) eqn:E.
  - apply Nat.eqb_eq in E. subst. exfalso. apply H. now left.
  - apply IH. intros Hin. apply H. now right.
Qed.

Lemma table_get_set_same (k : nat) (v : V) (m : Table) :
  Map_get Nat.eqb k (Map_set Nat.eqb k v m) = Some v.
Proof.
  induction m as [|[k' v'] m IH]; simpl.
  - now rewrite Nat.eqb_refl.
  - destruct (Nat.eqb k' k) eqn:E; simpl.
    + now rewrite Nat.eqb_refl.
    + now rewrite E.
Qed.

Lemma table_get_set_other (k k0 : nat) (v : V) (m : Table) :
  k <> k0 ->
  Map_get Nat.eqb k (Map_set Nat.eqb k0 v m) = Map_get Nat.eqb k m.
Proof.
  intros Hk. apply not_eq_sym in Hk. apply Nat.eqb_neq in Hk.
  induction m as [|[k' v'] m IH]; simpl.
  - now rewrite Hk.
  - destruct (Nat.eqb k' k0) eqn:E; simpl.
    + apply Nat.eqb_eq in E. subst k'. now rewrite Hk.
    + destruct (Nat.eqb k' k); [reflexivity | exact IH].
Qed.

Lemma table_delete_keys (k x : nat) (m : Table) :
  In x (map fst (Map_delete Nat.eqb k m)) -> In x (map fst m).
Proof.
  induction m as [|[k' v'] m IH]; simpl; [tauto|].
  destruct (Nat.eqb k' k); simpl; [now right|].
  intros [H|H]; [now left | right; now apply IH].
Qed.

Lemma table_delete_NoDup (k : nat) (m : Table) :
  NoDup (map fst m) -> NoDup (map fst (Map_delete Nat.eqb k m)).
Proof.
  induction m as [|[k' v'] m IH]; simpl; intros H; [constructor|].
  inversion H as [|? ? Hnotin Hnd]; subst.
  destruct (Nat.eqb k' k); simpl; [exact Hnd|].
  constructor; [|now apply IH].
  intros Hin. apply Hnotin. eapply table_delete_keys; eassumption.
Qed.

Lemma table_get_delete_same (k : nat) (m : Table) :
  NoDup (map fst m) -> Map_get Nat.eqb k (Map_delete Nat.eqb k m) = None.
Proof.
  induction m as [|[k' v'] m IH]; simpl; intros H; [reflexivity|].
  inversion H as [|? ? Hnotin Hnd]; subst.
  destruct (Nat.eqb k' k) eqn:E; simpl.
  - apply Nat.eqb_eq in E. subst k'. now apply table_get_In.
  - rewrite E. now apply IH.
Qed.

Lemma table_get_delete_other (k k0 : nat) (m : Table) :
  k <> k0 ->
  Map_get Nat.eqb k (Map_delete Nat.eqb k0 m) = Map_get Nat.eqb k m.
Proof.
  intros Hk. induction m as [|[k' v'] m IH]; simpl; [reflexivity|].
  destruct (Nat.eqb k' k0) eqn:E; simpl.
  - apply Nat.eqb_eq in E. subst k'.
    apply not_eq_sym in Hk. apply Nat.eqb_neq in Hk. now rewrite Hk.
  - destruct (Nat.eqb k' k); [reflexivity | exact IH].
Qed.

Lemma table_set_keys (k x : nat) (v : V) (m : Table) :
  In x (map fst (Map_set Nat.eqb k v m)) -> x = k \/ In x (map fst m).
Proof.
  induction m as [|[k' v'] m IH]; simpl.
  - intros [H|[]]. now left.
  - destruct (Nat.eqb k' k) eqn:E; simpl.
    + apply Nat.eqb_eq in E. subst k'. intros [H|H]; auto.
    + intros [H|H]; auto. destruct (IH H); auto.
Qed.

Lemma table_set_NoDup (k : nat) (v : V) (m : Table) :
  NoDup (map fst m) -> NoDup (map fst (Map_set Nat.eqb k v m)).
Proof.
  induction m as [|[k' v'] m IH]; simpl; intros H.
  - constructor; [intros [] | constructor].
  - inversion H as [|? ? Hnotin Hnd]; subst.
    destruct (Nat.eqb k' k) eqn:E; simpl.
    + apply Nat.eqb_eq in E. subst k'. now constructor.
    + constructor; [|now apply IH].
      intros Hin. apply table_set_keys in Hin as [->|Hin]; [|contradiction].
      now rewrite Nat.eqb_refl in E.
Qed.

Lemma table_has_get (k : nat) (m : Table) :
  Map_has Nat.eqb k m = false -> Map_get Nat.eqb k m = None.
Proof. unfold Map_has. now destruct (Map_get Nat.eqb k m). Qed.

End TableFacts.

Section BridgeFacts.

Context {W Err : Type}.
Variable inElementPrototype : string -> bool.
Variable cls : @BridgeClass W Err.

Local Abbreviation Runtime := (@Runtime W Err).

(** [processElement] answers with the context it has just created. *)
Lemma processElement_context (element : Element) (st : JsValue)
    (options : Options) (rt : Runtime) :
  binding_context (fst (processElement inElementPrototype cls element st options rt))
  = List.length (contexts rt)
  /\ binding_directives (fst (processElement inElementPrototype cls element st options rt))
     = fst (parseDirectives inElementPrototype element None).
Proof.
  unfold processElement.
  destruct (parseDirectives inElementPrototype element None) as [pd ws].
  unfold new_HandlerContext. cbn [fst snd binding_context binding_directives].
  split; reflexivity.
Qed.

(** What [unbindElement] does to the table. *)
Lemma unbindElement_table (element : Element) (b : Bridge) (rt : Runtime) :
  boundElements (fst (unbindElement element (b, rt)))
  = Map_delete Nat.eqb (node element) (boundElements b).
Proof.
  unfold unbindElement.
  destruct (Map_get Nat.eqb (node element) (boundElements b)) eqn:E;
    [reflexivity|].
  cbn [fst]. clear rt. revert E.
  induction (boundElements b) as [|[k v] m IH]; simpl; [reflexivity|].
  destruct (Nat.eqb k (node element)); [discriminate|].
  intros E. now rewrite <- IH.
Qed.

Lemma unbindElement_contexts (element : Element) (b : Bridge) (rt : Runtime) :
  List.length (contexts (snd (unbindElement element (b, rt))))
  = List.length (contexts rt).
Proof.
  unfold unbindElement.
  destruct (Map_get Nat.eqb (node element) (boundElements b));
    [apply length_contexts_dispose | reflexivity].
Qed.

End BridgeFacts.

(** X7. When the state is compatible, [bindElement] returns a binding whose
    context is a new one (no context of the store before the call), whose
    directives are those of the scan of the element, and under which the
    element is entered in the table; the entries of other elements and the
    uniqueness of the keys are kept. *)
Theorem bindElement_enters_element {W Err : Type}
    (inElementPrototype : string -> bool) (cls : @BridgeClass W Err)
    (element : Element) (st : JsValue) (options : Options)
    (b : Bridge) (rt : @Runtime W Err) :
  fst (isStateCompatible cls st) = true ->
  NoDup (map fst (boundElements b)) ->
  let out := bindElement inElementPrototype cls element st options (b, rt) in
  let b' := fst (snd out) in
  exists result,
    fst out = Ok result
    /\ binding_context result = List.length (contexts rt)
    /\ binding_directives result = fst (parseDirectives inElementPrototype element None)
    /\ Map_get Nat.eqb (node element) (boundElements b') = Some (binding_context result)
    /\ (forall n, n <> node element ->
                  Map_get Nat.eqb n (boundElements b') = Map_get Nat.eqb n (boundElements b))
    /\ NoDup (map fst (boundElements b')).
Proof.
  intros Hcompat Hnd out b'. unfold b', out, bindElement.
  destruct (isStateCompatible cls st) as [compatible said].
  cbn [fst] in Hcompat. subst compatible. cbn [negb].
  set (rt0 := mkRuntime (world rt) (contexts rt) (signals rt)
                        (console rt ++ said) (trace rt)).
  set (br := if Map_has Nat.eqb (node element) (boundElements b)
             then unbindElement element (b, rt0) else (b, rt0)).
  assert (Hlen : List.length (contexts (snd br)) = List.length (contexts rt)).
  { unfold br. destruct (Map_has Nat.eqb (node element) (boundElements b));
      [now rewrite unbindElement_contexts | reflexivity]. }
  assert (Hget : forall n, n <> node element ->
            Map_get Nat.eqb n (boundElements (fst br))
            = Map_get Nat.eqb n (boundElements b)).
  { intros n Hn. unfold br.
    destruct (Map_has Nat.eqb (node element) (boundElements b)); [|reflexivity].
    rewrite unbindElement_table. now apply table_get_delete_other. }
  assert (Hnd' : NoDup (map fst (boundElements (fst br)))).
  { unfold br.
    destruct (Map_has Nat.eqb (node element) (boundElements b)); [|exact Hnd].
    rewrite unbindElement_table. now apply table_delete_NoDup. }
  destruct br as [b1 rt1]. cbn [fst snd] in Hlen, Hget, Hnd'.
  pose proof (processElement_context inElementPrototype cls element st options rt1)
    as [Hctx Hdir].
  destruct (processElement inElementPrototype cls element st options rt1)
    as [result rt2].
  cbn [fst snd] in *. exists result.
  split; [reflexivity|]. split; [congruence|]. split; [exact Hdir|].
  cbn [boundElements].
  split; [apply table_get_set_same|].
  split; [|now apply table_set_NoDup].
  intros n Hn. rewrite table_get_set_other by exact Hn. now apply Hget.
Qed.

Lemma bindElement_enters_element_witness :
  let element := mkElement 7 "INPUT" (Some "text") "inherit" [("data-m", "user.name")] in
  let rt := @mkRuntime nat string 0 [mkHandlerContext falsy_state None Null []] [] [] [] in
  let out := bindElement (fun _ => false) TestBridge_class element falsy_state
                         (mkOptions None None) (mkBridge [(7, 0); (8, 0)], rt) in
  exists result,
    fst out = Ok result
    /\ binding_context result = 1
    /\ binding_directives result
       = fst (parseDirectives (fun _ => false) element None)
    /\ Map_get Nat.eqb 7 (boundElements (fst (snd out))) = Some (binding_context result)
    /\ (forall n, n <> 7 ->
                  Map_get Nat.eqb n (boundElements (fst (snd out)))
                  = Map_get Nat.eqb n [(7, 0); (8, 0)])
    /\ NoDup (map fst (boundElements (fst (snd out)))).
Proof.
  apply (bindElement_enters_element (fun _ => false) TestBridge_class
           (mkElement 7 "INPUT" (Some "text") "inherit" [("data-m", "user.name")])
           falsy_state (mkOptions None None) (mkBridge [(7, 0); (8, 0)])
           (@mkRuntime nat string 0 [mkHandlerContext falsy_state None Null []] [] [] [])).
  - reflexivity.
  - simpl. repeat constructor; simpl; intuition discriminate.
Defined.

(** X8. [unbindElement] disposes of the context under which the element is
    entered and removes the entry, leaving the other entries as they are; on
    an element that is not entered it does nothing, so that a second
    [unbindElement] (or a second call of the [dispose] of a binding) changes
    nothing. *)
Theorem unbindElement_removes_entry {W Err : Type}
    (element : Element) (b : Bridge) (rt : @Runtime W Err) :
  NoDup (map fst (boundElements b)) ->
  let out := unbindElement element (b, rt) in
  Map_get Nat.eqb (node element) (boundElements (fst out)) = None
  /\ (forall n, n <> node element ->
                Map_get Nat.eqb n (boundElements (fst out))
                = Map_get Nat.eqb n (boundElements b))
  /\ NoDup (map fst (boundElements (fst out)))
  /\ snd out = match Map_get Nat.eqb (node element) (boundElements b) with
               | Some context => dispose context rt
               | None => rt
               end
  /\ (Map_get Nat.eqb (node element) (boundElements b) = None -> out = (b, rt))
  /\ unbindElement element out = out.
Proof.
  intros Hnd out.
  assert (Ht : boundElements (fst out)
               = Map_delete Nat.eqb (node element) (boundElements b))
    by apply unbindElement_table.
  assert (Hnone : Map_get Nat.eqb (node element) (boundElements (fst out)) = None).
  { rewrite Ht. now apply table_get_delete_same. }
  split; [exact Hnone|].
  split; [intros n Hn; rewrite Ht; now apply table_get_delete_other|].
  split; [rewrite Ht; now apply table_delete_NoDup|].
  split.
  { unfold out, unbindElement.
    now destruct (Map_get Nat.eqb (node element) (boundElements b)). }
  split.
  { intros E. unfold out, unbindElement. now rewrite E. }
  destruct out as [b1 rt1]. cbn [fst] in Hnone.
  unfold unbindElement. now rewrite Hnone.
Qed.

Lemma unbindElement_removes_entry_witness :
  let element := mkElement 7 "INPUT" (Some "text") "inherit" [] in
  let rt := @mkRuntime nat string 0
              [mkHandlerContext Null None Null [mkCleanup 3 (fun w => Returns (S w))]]
              [] [] [] in
  let out := unbindElement element (mkBridge [(7, 0); (8, 0)], rt) in
  Map_get Nat.eqb 7 (boundElements (fst out)) = None
  /\ unbindElement element out = out.
Proof.
  cbv zeta.
  pose proof (unbindElement_removes_entry
                (mkElement 7 "INPUT" (Some "text") "inherit" [])
                (mkBridge [(7, 0); (8, 0)])
                (@mkRuntime nat string 0
                   [mkHandlerContext Null None Null
                      [mkCleanup 3 (fun w => Returns (S w))]] [] [] [])) as H.
  cbv zeta in H.
  assert (Hnd : NoDup (map fst (boundElements (mkBridge [(7, 0); (8, 0)])))).
  { simpl. repeat constructor; simpl; intuition discriminate. }
  destruct (H Hnd) as [H1 [_ [_ [_ [_ H6]]]]].
  split; [exact H1 | exact H6].
Defined.

Section BridgeDisposalFacts.

Context {W Err : Type}.

Local Abbreviation Runtime := (@Runtime W Err).

(** The loop of [BridgeBase.dispose] on a table with unique keys: every
    entry is found when its turn comes. *)
Lemma fold_unbindKey (table : list (nat * nat)) (rt : Runtime) :
  NoDup (map fst table) ->
  fold_left (fun acc entry => unbindKey (fst entry) acc) table (mkBridge table, rt)
  = (mkBridge [], fold_left (fun r entry => dispose (snd entry) r) table rt).
Proof.
  revert rt. induction table as [|[k c] table IH]; intros rt H; [reflexivity|].
  inversion H as [|? ? Hnotin Hnd]; subst.
  cbn [fold_left fst snd]. unfold unbindKey at 2.
  cbn [boundElements Map_get Map_delete]. rewrite Nat.eqb_refl.
  now apply IH.
Qed.

Lemma fold_dispose_queued (table : list (nat * nat)) (rt : Runtime) (c : nat) :
  queued (fold_left (fun r entry => dispose (snd entry) r) table rt) c
  = if existsb (Nat.eqb c) (map snd table) then [] else queued rt c.
Proof.
  revert rt. induction table as [|[k c'] table IH]; intros rt; [reflexivity|].
  cbn [fold_left map existsb snd]. rewrite IH.
  destruct (existsb (Nat.eqb c) (map snd table)); [now rewrite orb_true_r|].
  rewrite orb_false_r. destruct (Nat.eqb c c') eqn:E.
  - apply Nat.eqb_eq in E. subst. apply queued_dispose.
  - apply Nat.eqb_neq in E. apply queued_dispose_other. congruence.
Qed.

Lemma fold_dispose_signals (table : list (nat * nat)) (rt : Runtime) :
  signals (fold_left (fun r entry => dispose (snd entry) r) table rt) = signals rt.
Proof.
  revert rt. induction table as [|[k c'] table IH]; intros rt; [reflexivity|].
  cbn [fold_left snd]. rewrite IH. apply signals_dispose.
Qed.

End BridgeDisposalFacts.

(** X9. [BridgeBase.dispose] on a table with unique keys disposes of the
    context of every entry, in the order of the table, and leaves the table
    empty: afterwards no cleanup function is queued in any context that was
    bound, the queues of all other contexts and the signals are as before,
    and a second [dispose] of the bridge changes nothing. *)
Theorem BridgeBase_dispose_unbinds_all {W Err : Type}
    (b : Bridge) (rt : @Runtime W Err) :
  NoDup (map fst (boundElements b)) ->
  let out := BridgeBase_dispose (b, rt) in
  boundElements (fst out) = []
  /\ snd out = fold_left (fun r entry => dispose (snd entry) r) (boundElements b) rt
  /\ (forall n c, Map_get Nat.eqb n (boundElements b) = Some c -> queued (snd out) c = [])
  /\ (forall c, ~ In c (map snd (boundElements b)) -> queued (snd out) c = queued rt c)
  /\ signals (snd out) = signals rt
  /\ BridgeBase_dispose out = out.
Proof.
  intros Hnd out.
  assert (E : out = (mkBridge [],
                     fold_left (fun r entry => dispose (snd entry) r)
                               (boundElements b) rt)).
  { unfold out, BridgeBase_dispose. cbn [fst]. destruct b as [table].
    cbn [boundElements] in *. now apply fold_unbindKey. }
  rewrite E. cbn [fst snd boundElements].
  split; [reflexivity|]. split; [reflexivity|].
  split.
  { intros n c Hget. rewrite fold_dispose_queued.
    assert (Hin : In c (map snd (boundElements b))).
    { clear -Hget. induction (boundElements b) as [|[k v] m IH]; [discriminate|].
      simpl in *. destruct (Nat.eqb k n); [left; congruence | right; auto]. }
    assert (Hex : existsb (Nat.eqb c) (map snd (boundElements b)) = true).
    { apply existsb_exists. exists c. split; [exact Hin | apply Nat.eqb_refl]. }
    now rewrite Hex. }
  split.
  { intros c Hc. rewrite fold_dispose_queued.
    destruct (existsb (Nat.eqb c) (map snd (boundElements b))) eqn:Hex;
      [|reflexivity].
    apply existsb_exists in Hex as [x [Hin Hx]].
    apply Nat.eqb_eq in Hx. subst x. contradiction. }
  split; [apply fold_dispose_signals | reflexivity].
Qed.

Lemma BridgeBase_dispose_unbinds_all_witness :
  let rt := @mkRuntime nat string 0
              [mkHandlerContext Null None Null [mkCleanup 3 (fun w => Returns (S w))];
               mkHandlerContext Null None Null [mkCleanup 4 (fun w => Throws w "failed")];
               mkHandlerContext Null None Null [mkCleanup 5 (fun w => Returns (S w))]]
              [] [] [] in
  let out := BridgeBase_dispose (mkBridge [(7, 0); (8, 1)], rt) in
  boundElements (fst out) = []
  /\ snd out = fold_left (fun r entry => dispose (snd entry) r) [(7, 0); (8, 1)] rt
  /\ BridgeBase_dispose out = out.
Proof.
  cbv zeta.
  pose proof (BridgeBase_dispose_unbinds_all
                (mkBridge [(7, 0); (8, 1)])
                (@mkRuntime nat string 0
                   [mkHandlerContext Null None Null [mkCleanup 3 (fun w => Returns (S w))];
                    mkHandlerContext Null None Null [mkCleanup 4 (fun w => Throws w "failed")];
                    mkHandlerContext Null None Null [mkCleanup 5 (fun w => Returns (S w))]]
                   [] [] [])) as H.
  cbv zeta in H.
  assert (Hnd : NoDup (map fst (boundElements (mkBridge [(7, 0); (8, 1)])))).
  { simpl. repeat constructor; simpl; intuition discriminate. }
  destruct (H Hnd) as [H1 [H2 [_ [_ [_ H6]]]]].
  split; [exact H1|]. split; [exact H2 | exact H6].
Defined.

(** The disposal of the bridge above, run: the cleanup functions of the two
    bound contexts are called, the one that throws is logged, the third
    context keeps its queue. *)
Example BridgeBase_dispose_run :
  let rt := @mkRuntime nat string 0
              [mkHandlerContext Null None Null [mkCleanup 3 (fun w => Returns (S w))];
               mkHandlerContext Null None Null [mkCleanup 4 (fun w => Throws w "failed")];
               mkHandlerContext Null None Null [mkCleanup 5 (fun w => Returns (S w))]]
              [] [] [] in
  let out := BridgeBase_dispose (mkBridge [(7, 0); (8, 1)], rt) in
  trace (snd out) = [Disposed 0; Ran 3; Disposed 1; Ran 4]
  /\ console (snd out) = [CleanupError "failed"]
  /\ world (snd out) = 1
  /\ map cleanup_id (queued (snd out) 2) = [5].
Proof. repeat split. Qed.

(** ** Values written in the directive syntax *)

Section DirectiveSyntaxFacts.

Lemma indexOf_absent (c : ascii) (s : string) :
  absent c s = true -> indexOf c s = None.
Proof.
  induction s as [|d s IH]; [reflexivity|].
  rewrite absent_cons. intros H. apply andb_true_iff in H as [Hd Hs].
  apply negb_true_iff in Hd. cbn [indexOf]. now rewrite Hd, IH.
Qed.

Lemma indexOf_append (c : ascii) (a b : string) :
  absent c a = true -> indexOf c (a ++ String c b) = Some (String.length a).
Proof.
  induction a as [|d a IH]; intros H.
  - cbn [append indexOf]. now rewrite Ascii.eqb_refl.
  - rewrite absent_cons in H. apply andb_true_iff in H as [Hd Ha].
    apply negb_true_iff in Hd.
    change (String d a ++ String c b)%string with (String d (a ++ String c b)).
    cbn [indexOf String.length]. now rewrite Hd, IH.
Qed.

Lemma lastIndexOf_absent (c : ascii) (s : string) :
  absent c s = true -> lastIndexOf c s = None.
Proof.
  induction s as [|d s IH]; [reflexivity|].
  rewrite absent_cons. intros H. apply andb_true_iff in H as [Hd Hs].
  apply negb_true_iff in Hd. cbn [lastIndexOf]. now rewrite IH, Hd.
Qed.

Lemma lastIndexOf_append (c : ascii) (a b : string) :
  absent c b = true -> lastIndexOf c (a ++ String c b) = Some (String.length a).
Proof.
  intros Hb. induction a as [|d a IH].
  - cbn [append lastIndexOf]. rewrite (lastIndexOf_absent c b Hb).
    now rewrite Ascii.eqb_refl.
  - change (String d a ++ String c b)%string with (String d (a ++ String c b)).
    cbn [lastIndexOf String.length]. now rewrite IH.
Qed.

Lemma drop_past (c : ascii) (a b : string) :
  drop (String.length a + 1) (a ++ String c b) = b.
Proof.
  induction a as [|d a IH]; [now destruct b|].
  change (String d a ++ String c b)%string with (String d (a ++ String c b)).
  cbn [String.length Nat.add drop]. exact IH.
Qed.

Lemma take_before (c : ascii) (a b : string) :
  take (String.length a) (a ++ String c b) = a.
Proof. apply take_append. Qed.

Lemma parseModifiersString_empty : parseModifiersString EmptyString = [].
Proof. reflexivity. Qed.

Lemma modifiers_of (m : string) :
  (if non_empty m then setModifiers (parseModifiersString m) [] else [])
  = setModifiers (parseModifiersString m) [].
Proof. now destruct m. Qed.

(** The cuts of [parseModelDirective] on a value written in the syntax. *)
Lemma parseModelDirective_syntax
    (tgt : string) (dom mods evt : option string) :
  absent ":" tgt = true ->
  absent "#" tgt = true ->
  match dom with Some p => absent "#" p = true | None => True end ->
  match evt with
  | Some e => absent "@" e = true
  | None => absent "@" (directiveSyntax tgt dom mods None) = true
  end ->
  parseModelDirective (directiveSyntax tgt dom mods evt)
  = mkDirectiveValue tgt (or_empty dom) (or_empty evt)
                     (setModifiers (parseModifiersString (or_empty mods)) []).
Proof.
  intros Hc Hh Hd He.
  set (P := match dom with Some p => (":" ++ p)%string | None => EmptyString end).
  set (M := match mods with Some m => ("#" ++ m)%string | None => EmptyString end).
  assert (HP : absent "#" (tgt ++ P) = true).
  { rewrite absent_append, Hh. unfold P. destruct dom as [p|]; [|reflexivity].
    cbn [andb append]. rewrite absent_cons. exact Hd. }
  (* the steps after the event has been cut off *)
  assert (Hrest : forall e,
            (let '(modifiersStr, rest) :=
               match indexOf "#" (tgt ++ P ++ M) with
               | Some hashIndex =>
                   (drop (hashIndex + 1) (tgt ++ P ++ M), take hashIndex (tgt ++ P ++ M))
               | None => (EmptyString, (tgt ++ P ++ M)%string)
               end in
             let '(t, d) :=
               match indexOf ":" rest with
               | Some colonIndex => (take colonIndex rest, drop (colonIndex + 1) rest)
               | None => (rest, EmptyString)
               end in
             let ms :=
               if non_empty modifiersStr
               then setModifiers (parseModifiersString modifiersStr) []
               else [] in
             mkDirectiveValue t d e ms)
            = mkDirectiveValue tgt (or_empty dom) e
                (setModifiers (parseModifiersString (or_empty mods)) [])).
  { intros e.
    assert (Hcolon : (let '(t, d) :=
                        match indexOf ":" (tgt ++ P) with
                        | Some colonIndex =>
                            (take colonIndex (tgt ++ P), drop (colonIndex + 1) (tgt ++ P))
                        | None => ((tgt ++ P)%string, EmptyString)
                        end in (t, d)) = (tgt, or_empty dom)).
    { unfold P. destruct dom as [p|].
      - change (":" ++ p)%string with (String ":" p).
        rewrite (indexOf_append ":" tgt p Hc).
        now rewrite take_before, drop_past.
      - rewrite append_empty_r, (indexOf_absent ":" tgt Hc). reflexivity. }
    unfold M. destruct mods as [m|].
    - rewrite <- append_assoc.
      change ("#" ++ m)%string with (String "#" m).
      rewrite (indexOf_append "#" (tgt ++ P) m HP).
      rewrite take_before, drop_past.
      set (cut := match indexOf ":" (tgt ++ P) with
                  | Some colonIndex =>
                      (take colonIndex (tgt ++ P), drop (colonIndex + 1) (tgt ++ P))
                  | None => ((tgt ++ P)%string, EmptyString)
                  end) in *.
      destruct cut as [t d]. injection Hcolon as Ht Hd'. subst t d.
      now rewrite modifiers_of.
    - rewrite append_empty_r, (indexOf_absent "#" (tgt ++ P) HP).
      set (cut := match indexOf ":" (tgt ++ P) with
                  | Some colonIndex =>
                      (take colonIndex (tgt ++ P), drop (colonIndex + 1) (tgt ++ P))
                  | None => ((tgt ++ P)%string, EmptyString)
                  end) in *.
      destruct cut as [t d]. injection Hcolon as Ht Hd'. subst t d.
      reflexivity. }
  unfold parseModelDirective, directiveSyntax. fold P. fold M.
  destruct evt as [e|].
  - replace (tgt ++ P ++ M ++ "@" ++ e)%string
      with ((tgt ++ P ++ M) ++ String "@" e)%string
      by (now rewrite !append_assoc).
    rewrite (lastIndexOf_append "@" (tgt ++ P ++ M) e He).
    rewrite take_before, drop_past. apply Hrest.
  - unfold directiveSyntax in He. fold P in He. fold M in He.
    rewrite (lastIndexOf_absent "@" _ He).
    rewrite !append_empty_r. apply Hrest.
Qed.

End DirectiveSyntaxFacts.

(** X10. [parseModelDirective] reads back the parts of a value written in
    the directive syntax [target:domProperty#modifiers@event], each part
    after the target optional: the target as written when it holds neither a
    colon nor a hash sign, the DOM property when it holds no hash sign, the
    event when it holds no at sign.  When no event is written, the value
    must hold no at sign at all. *)
Theorem parseModelDirective_reads_syntax
    (tgt : string) (dom mods evt : option string) :
  absent ":" tgt = true ->
  absent "#" tgt = true ->
  match dom with Some p => absent "#" p = true | None => True end ->
  match evt with
  | Some e => absent "@" e = true
  | None => absent "@" (directiveSyntax tgt dom mods None) = true
  end ->
  parseModelDirective (directiveSyntax tgt dom mods evt)
  = mkDirectiveValue tgt (or_empty dom) (or_empty evt)
                     (setModifiers (parseModifiersString (or_empty mods)) []).
Proof. apply parseModelDirective_syntax. Qed.

Lemma parseModelDirective_reads_syntax_witness :
  parseModelDirective
    (directiveSyntax "form.email" (Some "value") (Some "debounce(400)#trim") (Some "input"))
  = mkDirectiveValue "form.email" "value" "input"
      (setModifiers (parseModifiersString "debounce(400)#trim") []).
Proof.
  apply (parseModelDirective_reads_syntax "form.email" (Some "value")
           (Some "debounce(400)#trim") (Some "input"));
    reflexivity.
Defined.

(** ** The simple grammar and white space *)

Section SimpleGrammarFacts.

Lemma target_char_not_space (c : ascii) :
  is_target_char c = true ->
  is_space c = false /\ Ascii.eqb c "#" = false /\ Ascii.eqb c ":" = false
  /\ Ascii.eqb c "@" = false.
Proof.
  destruct c as [[] [] [] [] [] [] [] []]; vm_compute; intros H;
    try discriminate H; repeat split.
Qed.

Lemma space_not_name (c : ascii) :
  is_space c = true ->
  is_name_char c = false /\ Ascii.eqb c "#" = false /\ Ascii.eqb c "(" = false
  /\ Ascii.eqb c ")" = false.
Proof.
  destruct c as [[] [] [] [] [] [] [] []]; vm_compute; intros H;
    try discriminate H; repeat split.
Qed.

Lemma trimStart_spaces (ws s : string) :
  all_space ws = true -> trimStart (ws ++ s) = trimStart s.
Proof.
  unfold all_space. induction ws as [|c ws IH]; intros H; [reflexivity|].
  cbn [all_chars] in H. apply andb_true_iff in H as [Hc Hws].
  change (String c ws ++ s)%string with (String c (ws ++ s)).
  cbn [trimStart]. rewrite Hc. now apply IH.
Qed.

Lemma trimEnd_keep (x : string) (c : ascii) (m : string) :
  is_space c = false ->
  trimEnd (x ++ String c m) = (x ++ String c (trimEnd m))%string.
Proof.
  intros Hc. induction x as [|a x IH].
  - cbn [append trimEnd]. rewrite Hc. now destruct (trimEnd m).
  - change (String a x ++ String c m)%string with (String a (x ++ String c m)).
    cbn [trimEnd]. rewrite IH. now destruct x.
Qed.

Lemma trimEnd_spaces (ws : string) :
  all_space ws = true -> trimEnd ws = EmptyString.
Proof.
  unfold all_space. induction ws as [|c ws IH]; intros H; [reflexivity|].
  cbn [all_chars] in H. apply andb_true_iff in H as [Hc Hws].
  cbn [trimEnd]. now rewrite (IH Hws), Hc.
Qed.

(** What [trimEnd] takes away is white space. *)
Lemma trimEnd_split (m : string) :
  exists ws, all_space ws = true /\ m = (trimEnd m ++ ws)%string.
Proof.
  induction m as [|c m [ws [Hws Hm]]]; [now exists EmptyString|].
  cbn [trimEnd]. destruct (trimEnd m) as [|d t] eqn:E.
  - destruct (is_space c) eqn:Hc.
    + exists (String c ws). split.
      * unfold all_space in *. cbn [all_chars]. now rewrite Hc.
      * cbn [append] in *. now rewrite <- Hm.
    + exists ws. split; [exact Hws|]. cbn [append] in *. now rewrite <- Hm.
  - exists ws. split; [exact Hws|].
    change (String c (String d t) ++ ws)%string with (String c (String d t ++ ws)).
    now rewrite <- Hm.
Qed.

Lemma span_snoc (p : ascii -> bool) (t : string) (c : ascii) :
  span p (t ++ String c EmptyString)
  = match snd (span p t) with
    | EmptyString =>
        if p c then ((fst (span p t) ++ String c EmptyString)%string, EmptyString)
        else (fst (span p t), String c EmptyString)
    | String _ _ => (fst (span p t), (snd (span p t) ++ String c EmptyString)%string)
    end.
Proof.
  induction t as [|d t IH].
  - cbn [append span fst snd]. now destruct (p c).
  - change (String d t ++ String c EmptyString)%string
      with (String d (t ++ String c EmptyString)).
    cbn [span]. destruct (p d) eqn:Hd; [|reflexivity].
    rewrite IH. destruct (span p t) as [a b]. cbn [fst snd].
    destruct b; [destruct (p c)|]; reflexivity.
Qed.

Lemma span_fst_all_chars (p : ascii -> bool) (t : string) :
  all_chars p (fst (span p t)) = true.
Proof.
  induction t as [|d t IH]; [reflexivity|].
  cbn [span]. destruct (p d) eqn:Hd; [|reflexivity].
  destruct (span p t) as [a b]. cbn [fst all_chars] in *. now rewrite Hd.
Qed.

(** A white-space character at the end of a token changes nothing. *)
Lemma parseModifierToken_snoc (t : string) (c : ascii) :
  is_space c = true ->
  parseModifierToken (t ++ String c EmptyString) = parseModifierToken t.
Proof.
  intros Hc. destruct (space_not_name c Hc) as [Hn [_ [Ho Hcl]]].
  unfold parseModifierToken, matchModifier.
  rewrite span_snoc, Hn.
  destruct (span is_name_char t) as [name rest]. cbn [fst snd].
  destruct rest as [|d r].
  - destruct name; [reflexivity|]. now rewrite Ho.
  - destruct name; [reflexivity|].
    change (String d r ++ String c EmptyString)%string
      with (String d (r ++ String c EmptyString)).
    cbv beta iota.
    destruct (Ascii.eqb d "("); [|reflexivity].
    rewrite span_snoc. rewrite Hcl. cbn [negb].
    destruct (span (fun x => negb (Ascii.eqb x ")")) r) as [inner r'].
    cbn [fst snd]. now destruct r'.
Qed.

Lemma absent_snoc (c d : ascii) (s : string) :
  absent c (s ++ String d EmptyString) = absent c s && negb (Ascii.eqb d c).
Proof. rewrite absent_append, absent_cons. cbn [absent all_chars]. now rewrite andb_true_r. Qed.

Lemma parseModifiersString_snoc (m : string) (c : ascii) :
  is_space c = true ->
  parseModifiersString (m ++ String c EmptyString) = parseModifiersString m.
Proof.
  intros Hc. destruct (space_not_name c Hc) as [_ [Hh _]].
  destruct (lastIndexOf "#" m) as [i|] eqn:L.
  - destruct (lastIndexOf_Some _ _ _ L) as [Hm Hb].
    set (a := take i m) in *. set (b := drop (i + 1) m) in *.
    rewrite Hm.
    change (String "#" b) with ("#" ++ b)%string.
    rewrite !append_assoc, !parseModifiersString_append. f_equal.
    rewrite !parseModifiersString_token
      by (rewrite ?absent_snoc, Hb, ?Hh; reflexivity).
    now apply parseModifierToken_snoc.
  - apply lastIndexOf_None in L.
    rewrite !parseModifiersString_token
      by (rewrite ?absent_snoc, L, ?Hh; reflexivity).
    now apply parseModifierToken_snoc.
Qed.

Lemma parseModifiersString_spaces (ws m : string) :
  all_space ws = true ->
  parseModifiersString (m ++ ws) = parseModifiersString m.
Proof.
  unfold all_space. revert m. induction ws as [|c ws IH]; intros m H.
  - now rewrite append_empty_r.
  - cbn [all_chars] in H. apply andb_true_iff in H as [Hc Hws].
    change (String c ws) with (String c EmptyString ++ ws)%string.
    rewrite <- append_assoc, (IH _ Hws). now apply parseModifiersString_snoc.
Qed.

(** White space at the end of a modifier chain changes nothing. *)
Lemma parseModifiersString_trimEnd (m : string) :
  parseModifiersString (trimEnd m) = parseModifiersString m.
Proof.
  destruct (trimEnd_split m) as [ws [Hws Hm]].
  rewrite Hm at 2. symmetry. now apply parseModifiersString_spaces.
Qed.

Lemma trimStart_outside (s : string) :
  starts_outside is_space s -> trimStart s = s.
Proof. destruct s as [|c s]; [reflexivity|]. simpl. now intros ->. Qed.

(** The three shapes of a value that begins, after white space, with a
    target. *)
Lemma parseDirectiveValue_target (ws1 tgt ws2 : string) :
  tgt <> EmptyString -> all_chars is_target_char tgt = true ->
  all_space ws1 = true -> all_space ws2 = true ->
  parseDirectiveValue (ws1 ++ tgt ++ ws2) = (mkDirectiveValue tgt "" "" [], []).
Proof.
  intros Hne Ht H1 H2. unfold parseDirectiveValue, trim.
  rewrite (trimStart_spaces _ _ H1).
  destruct tgt as [|c t]; [congruence|].
  cbn [all_chars] in Ht. pose proof Ht as Ht'.
  apply andb_true_iff in Ht' as [Hc _].
  destruct (target_char_not_space c Hc) as [Hs _].
  change (String c t ++ ws2)%string with (String c (t ++ ws2)).
  cbn [trimStart]. rewrite Hs.
  assert (E : trimEnd (String c (t ++ ws2)) = String c t).
  { clear Hne. revert c Ht Hc Hs. induction t as [|d t IH]; intros c Ht Hc Hs.
    - cbn [append trimEnd]. now rewrite (trimEnd_spaces ws2 H2), Hs.
    - cbn [all_chars] in Ht. apply andb_true_iff in Ht as [_ Ht].
      pose proof Ht as Ht'. cbn [all_chars] in Ht'.
      apply andb_true_iff in Ht' as [Hd _].
      destruct (target_char_not_space d Hd) as [Hsd _].
      change (String d t ++ ws2)%string with (String d (t ++ ws2)).
      cbn [trimEnd]. cbn [trimEnd] in IH.
      specialize (IH d Ht Hd Hsd).
      change (String d t ++ ws2)%string with (String d (t ++ ws2)) in IH.
      cbn [trimEnd] in IH. now rewrite IH. }
  rewrite E.
  pose proof (span_append is_target_char (String c t) EmptyString Ht I) as Sp.
  rewrite append_empty_r in Sp. rewrite Sp. reflexivity.
Qed.

Lemma parseDirectiveValue_modifiers (ws1 tgt m : string) :
  tgt <> EmptyString -> all_chars is_target_char tgt = true ->
  all_space ws1 = true ->
  parseDirectiveValue (ws1 ++ tgt ++ "#" ++ m)
  = (mkDirectiveValue tgt "" "" (setModifiers (parseModifiersString m) []), []).
Proof.
  intros Hne Ht H1. unfold parseDirectiveValue, trim.
  rewrite (trimStart_spaces _ _ H1).
  destruct tgt as [|c t]; [congruence|].
  pose proof Ht as Ht'. cbn [all_chars] in Ht'.
  apply andb_true_iff in Ht' as [Hc _].
  destruct (target_char_not_space c Hc) as [Hs _].
  rewrite (trimStart_outside (String c t ++ "#" ++ m)) by exact Hs.
  change ("#" ++ m)%string with (String "#" m).
  rewrite (trimEnd_keep (String c t) "#" m eq_refl).
  rewrite (span_append is_target_char (String c t) (String "#" (trimEnd m)) Ht eq_refl).
  cbn [Ascii.eqb startsWith non_empty String.length Nat.eqb negb app].
  change (Ascii.eqb "#" "#") with true. cbn [andb].
  now rewrite parseModifiersString_trimEnd.
Qed.

Lemma parseDirectiveValue_unexpected (ws1 tgt : string) (c : ascii) (r : string) :
  tgt <> EmptyString -> all_chars is_target_char tgt = true ->
  all_space ws1 = true ->
  is_target_char c = false -> Ascii.eqb c "#" = false -> is_space c = false ->
  parseDirectiveValue (ws1 ++ tgt ++ String c r)
  = (mkDirectiveValue tgt "" "" [], [UnexpectedCharacters (String c (trimEnd r))]).
Proof.
  intros Hne Ht H1 Hc Hh Hsp. unfold parseDirectiveValue, trim.
  rewrite (trimStart_spaces _ _ H1).
  destruct tgt as [|a t]; [congruence|].
  pose proof Ht as Ht'. cbn [all_chars] in Ht'.
  apply andb_true_iff in Ht' as [Ha _].
  destruct (target_char_not_space a Ha) as [Hs _].
  rewrite (trimStart_outside (String a t ++ String c r)) by exact Hs.
  rewrite (trimEnd_keep (String a t) c r Hsp).
  rewrite (span_append is_target_char (String a t) (String c (trimEnd r)) Ht Hc).
  cbn [startsWith]. rewrite Hh. reflexivity.
Qed.

End SimpleGrammarFacts.

(** X11. [parseDirectiveValue] on a value that begins, after any white
    space, with a non-empty run of target characters: the run is the target;
    alone (or followed by white space only) it parses without a warning; a
    hash sign after it starts the modifier chain, which is parsed as
    [parseModifiersString] parses it, white space at the end included,
    without a warning; any other character after it that is not white space
    gives no modifiers and the warning about unexpected characters, which
    quotes the rest of the value without the white space at its end. *)
Theorem parseDirectiveValue_reads_syntax (ws1 tgt : string) :
  tgt <> EmptyString -> all_chars is_target_char tgt = true ->
  all_space ws1 = true ->
  (forall ws2, all_space ws2 = true ->
     parseDirectiveValue (ws1 ++ tgt ++ ws2) = (mkDirectiveValue tgt "" "" [], []))
  /\ (forall m,
        parseDirectiveValue (ws1 ++ tgt ++ "#" ++ m)
        = (mkDirectiveValue tgt "" "" (setModifiers (parseModifiersString m) []), []))
  /\ (forall c r,
        is_target_char c = false -> Ascii.eqb c "#" = false -> is_space c = false ->
        parseDirectiveValue (ws1 ++ tgt ++ String c r)
        = (mkDirectiveValue tgt "" "" [],
           [UnexpectedCharacters (String c (trimEnd r))])).
Proof.
  intros Hne Ht H1. split; [|split].
  - intros ws2 H2. now apply parseDirectiveValue_target.
  - intros m. now apply parseDirectiveValue_modifiers.
  - intros c r Hc Hh Hs. now apply parseDirectiveValue_unexpected.
Qed.

Lemma parseDirectiveValue_reads_syntax_witness :
  parseDirectiveValue ("  " ++ "user.name" ++ "#" ++ "debounce(300) ")
  = (mkDirectiveValue "user.name" "" ""
       (setModifiers (parseModifiersString "debounce(300) ") []), []).
Proof.
  apply (proj1 (proj2 (parseDirectiveValue_reads_syntax "  " "user.name"
                         ltac:(discriminate) eq_refl eq_refl))).
Defined.

(** X12. The two grammars agree on a value that is a non-empty run of target
    characters, alone or followed by a hash sign and a modifier chain
    without an at sign: [parseModelDirective] and [parseDirectiveValue] give
    the same directive value, and [parseDirectiveValue] warns of nothing. *)
Theorem parseModelDirective_agrees_with_parseDirectiveValue
    (tgt : string) (mods : option string) :
  tgt <> EmptyString -> all_chars is_target_char tgt = true ->
  match mods with Some m => absent "@" m = true | None => True end ->
  parseDirectiveValue (directiveSyntax tgt None mods None)
  = (parseModelDirective (directiveSyntax tgt None mods None), []).
Proof.
  intros Hne Ht Hm.
  assert (Habs : absent ":" tgt = true /\ absent "#" tgt = true
                 /\ absent "@" tgt = true).
  { clear Hne. induction tgt as [|c t IH]; [repeat split|].
    cbn [all_chars] in Ht. apply andb_true_iff in Ht as [Hc Ht].
    destruct (target_char_not_space c Hc) as [_ [Hh [Hco Hat]]].
    destruct (IH Ht) as [I1 [I2 I3]].
    rewrite !absent_cons, Hh, Hco, Hat, I1, I2, I3. repeat split. }
  destruct Habs as [Hco [Hh Hat]].
  rewrite (parseModelDirective_syntax tgt None mods None Hco Hh I).
  - unfold directiveSyntax. destruct mods as [m|]; cbn [or_empty append].
    + pose proof (parseDirectiveValue_modifiers EmptyString tgt m Hne Ht eq_refl) as E.
      cbn [append] in E. rewrite append_empty_r. exact E.
    + pose proof (parseDirectiveValue_target EmptyString tgt EmptyString
                    Hne Ht eq_refl eq_refl) as E.
      cbn [append] in E. rewrite !append_empty_r in *. exact E.
  - unfold directiveSyntax. destruct mods as [m|]; cbn [append].
    + rewrite !absent_append, Hat, append_empty_r. cbn [andb].
      change ("#" ++ m)%string with (String "#" m).
      now rewrite absent_cons, Hm.
    + now rewrite !append_empty_r.
Qed.

Lemma parseModelDirective_agrees_with_parseDirectiveValue_witness :
  parseDirectiveValue (directiveSyntax "user.name" None (Some "debounce(300)#trim") None)
  = (parseModelDirective
       (directiveSyntax "user.name" None (Some "debounce(300)#trim") None), []).
Proof.
  apply (parseModelDirective_agrees_with_parseDirectiveValue "user.name"
           (Some "debounce(300)#trim"));
    [discriminate | reflexivity | reflexivity].
Defined.

(** ** Valid property names *)

Section ValidNames.

Lemma identifier_char_target (c : ascii) :
  is_identifier_char c = is_target_char c.
Proof.
  unfold is_identifier_char, is_target_char.
  destruct (is_alnum c), (Ascii.eqb c "_"), (Ascii.eqb c "$"), (Ascii.eqb c "."),
    (Ascii.eqb c "-"); reflexivity.
Qed.

Lemma identifier_start_target (c : ascii) :
  is_identifier_start c = true -> is_target_char c = true.
Proof.
  destruct c as [[] [] [] [] [] [] [] []]; vm_compute; intros H;
    try discriminate H; reflexivity.
Qed.

Lemma target_chars_absent (s : string) :
  all_chars is_target_char s = true ->
  absent ":" s = true /\ absent "#" s = true /\ absent "@" s = true.
Proof.
  induction s as [|c t IH]; intros Ht; [repeat split|].
  cbn [all_chars] in Ht. apply andb_true_iff in Ht as [Hc Ht].
  destruct (target_char_not_space c Hc) as [_ [Hh [Hco Hat]]].
  destruct (IH Ht) as [I1 [I2 I3]].
  rewrite !absent_cons, Hh, Hco, Hat, I1, I2, I3. repeat split.
Qed.

(** What [isValidPropertyName] has checked of a name it accepts. *)
Lemma isValidPropertyName_checks (s : string) :
  isValidPropertyName s = true ->
  s <> EmptyString /\ all_chars is_target_char s = true
  /\ includes s ".." = false /\ endsWith_char s "." = false
  /\ startsWith s "." = false.
Proof.
  unfold isValidPropertyName.
  destruct (includes s "..") eqn:H1; [discriminate|].
  destruct (endsWith_char s ".") eqn:H2; [discriminate|].
  destruct (startsWith s ".") eqn:H3; [discriminate|].
  destruct (endsWith_char s "-"); [discriminate|]. cbn [orb].
  destruct s as [|c rest]; [discriminate|].
  intros H. apply andb_true_iff in H as [Hc Hr].
  split; [discriminate|]. split; [|repeat split; assumption].
  cbn [all_chars]. rewrite (identifier_start_target c Hc). cbn [andb].
  apply (all_chars_impl is_identifier_char); [|exact Hr].
  intros x Hx. now rewrite <- identifier_char_target.
Qed.

(** A string holds no separator, or has a first piece and a rest. *)
Lemma split_char_cases (c : ascii) (s : string) :
  (absent c s = true /\ split (String c EmptyString) s = [s])
  \/ (exists a b, s = (a ++ String c b)%string /\ absent c a = true
                  /\ split (String c EmptyString) s
                     = a :: split (String c EmptyString) b).
Proof.
  destruct (indexOf c s) as [i|] eqn:E.
  - right. destruct (indexOf_Some _ _ _ E) as [Hs Ha].
    exists (take i s), (drop (i + 1) s). split; [exact Hs|]. split; [exact Ha|].
    rewrite Hs at 1. rewrite split_char_append.
    now rewrite (split_absent c EmptyString _ Ha).
  - left. apply indexOf_None in E. split; [exact E|].
    now apply split_absent.
Qed.

Lemma startsWith_mono (a b pat : string) :
  startsWith a pat = true -> startsWith (a ++ b) pat = true.
Proof.
  revert a. induction pat as [|p pat IH]; intros a H; [reflexivity|].
  destruct a as [|x a]; [discriminate|].
  cbn [startsWith] in H. apply andb_true_iff in H as [Hx Ha].
  change (String x a ++ b)%string with (String x (a ++ b)).
  cbn [startsWith]. now rewrite Hx, (IH a Ha).
Qed.

Lemma includes_prefix_false (a b pat : string) :
  includes (a ++ b) pat = false -> includes a pat = false.
Proof.
  induction a as [|x a IH]; intros H.
  - cbn [includes]. rewrite orb_false_r.
    destruct (startsWith EmptyString pat) eqn:E; [|reflexivity].
    pose proof (startsWith_mono EmptyString b pat E) as E'.
    cbn [append] in *. destruct b; cbn [includes] in H;
      apply orb_false_iff in H as [H _]; congruence.
  - change (String x a ++ b)%string with (String x (a ++ b)) in H.
    apply includes_tail in H as [H1 H2].
    cbn [includes]. rewrite (IH H2), orb_false_r.
    destruct (startsWith (String x a) pat) eqn:E; [|reflexivity].
    pose proof (startsWith_mono (String x a) b pat E) as E'.
    change (String x a ++ b)%string with (String x (a ++ b)) in E'. congruence.
Qed.

Lemma includes_suffix_false (a b pat : string) :
  includes (a ++ b) pat = false -> includes b pat = false.
Proof.
  intros H. rewrite <- (drop_append a b). now apply includes_drop.
Qed.

Lemma endsWith_char_append (a b : string) (d : ascii) :
  b <> EmptyString -> endsWith_char (a ++ b) d = endsWith_char b d.
Proof.
  intros Hb. induction a as [|x a IH]; [reflexivity|].
  change (String x a ++ b)%string with (String x (a ++ b)).
  cbn [endsWith_char]. destruct (a ++ b)%string eqn:E; [|exact IH].
  destruct a; [|discriminate]. cbn [append] in E. congruence.
Qed.

(** The pieces of a string that holds no two separators in a row and neither
    begins nor ends with one are not empty. *)
Lemma split_segments_nonempty (c : ascii) (n : nat) (s : string) :
  String.length s <= n ->
  s <> EmptyString ->
  startsWith s (String c EmptyString) = false ->
  endsWith_char s c = false ->
  includes s (String c (String c EmptyString)) = false ->
  Forall (fun seg => seg <> EmptyString) (split (String c EmptyString) s).
Proof.
  revert s. induction n as [|n IH]; intros s Hlen Hne Hs He Hi.
  - destruct s; [congruence | simpl in Hlen; lia].
  - destruct (split_char_cases c s) as [[_ E]|[a [b [Es [Ha E]]]]].
    + rewrite E. now repeat constructor.
    + rewrite E. subst s.
      assert (Hane : a <> EmptyString).
      { intros ->. cbn [append startsWith] in Hs.
        now rewrite Ascii.eqb_refl in Hs. }
      assert (Hbne : b <> EmptyString).
      { intros ->. rewrite endsWith_char_append in He by discriminate.
        cbn [endsWith_char] in He. now rewrite Ascii.eqb_refl in He. }
      constructor; [exact Hane|].
      apply IH.
      * rewrite length_append in Hlen. simpl in Hlen. lia.
      * exact Hbne.
      * destruct b as [|d b']; [congruence|].
        cbn [startsWith]. rewrite andb_true_r.
        destruct (Ascii.eqb d c) eqn:Hd; [|reflexivity].
        apply Ascii.eqb_eq in Hd. subst d.
        pose proof (includes_append a (String c (String c EmptyString)) b') as Hin.
        cbn [append] in Hin. cbn [append] in Hi. congruence.
      * rewrite endsWith_char_append in He by discriminate.
        destruct b; [congruence | exact He].
      * now apply (includes_suffix_false (a ++ String c EmptyString) b);
          rewrite append_assoc.
Qed.

(** The pieces of a string hold no pattern the string does not hold. *)
Lemma split_pieces_includes (c : ascii) (pat : string) (n : nat) (s : string) :
  String.length s <= n ->
  includes s pat = false ->
  Forall (fun seg => includes seg pat = false) (split (String c EmptyString) s).
Proof.
  revert s. induction n as [|n IH]; intros s Hlen Hi.
  - destruct s; [now repeat constructor | simpl in Hlen; lia].
  - destruct (split_char_cases c s) as [[_ E]|[a [b [Es [Ha E]]]]].
    + rewrite E. now repeat constructor.
    + rewrite E. subst s. constructor.
      * now apply (includes_prefix_false a (String c b)).
      * apply IH.
        -- rewrite length_append in Hlen. simpl in Hlen. lia.
        -- apply (includes_suffix_false (a ++ String c EmptyString) b).
           now rewrite append_assoc.
Qed.

Lemma includes_longer (s p q : string) :
  includes s p = false -> includes s (p ++ q) = false.
Proof.
  assert (S : forall t, startsWith t p = false -> startsWith t (p ++ q) = false).
  { induction p as [|x p IH]; intros t H; [discriminate|].
    destruct t as [|y t]; [reflexivity|].
    change (String x p ++ q)%string with (String x (p ++ q)).
    cbn [startsWith] in *. destruct (Ascii.eqb y x); [|reflexivity].
    cbn [andb] in *. now apply IH. }
  induction s as [|c s IH]; intros H.
  - cbn [includes] in *. apply orb_false_iff in H as [H _].
    now rewrite (S _ H).
  - apply includes_tail in H as [H1 H2].
    cbn [includes]. now rewrite (S _ H1), (IH H2).
Qed.

Lemma map_fixed {A : Type} (f : A -> A) (P : A -> Prop) (l : list A) :
  Forall P l -> (forall x, P x -> f x = x) -> map f l = l.
Proof.
  intros F H. induction F as [|x l Hx _ IH]; [reflexivity|].
  cbn [map]. now rewrite IH, (H x Hx).
Qed.

Lemma replaceAll_nonempty (pat rep s : string) :
  s <> EmptyString -> rep <> EmptyString -> replaceAll pat rep s <> EmptyString.
Proof.
  intros Hs Hr. destruct s as [|c s]; [congruence|].
  unfold replaceAll. cbn [replaceAll_from].
  destruct (startsWith (String c s) pat); [|discriminate].
  destruct rep; [congruence | discriminate].
Qed.

End ValidNames.

(** X13. A name that [isValidPropertyName] accepts is read by both grammars
    as a target and nothing else, without a warning, and names a path
    without an empty segment.  When it holds no two underscores in a row, the
    path is the name split at its dots, and [pathToPropertyName] gives the
    name back. *)
Theorem isValidPropertyName_names_a_path (name : string) :
  isValidPropertyName name = true ->
  parseDirectiveValue name = (mkDirectiveValue name "" "" [], [])
  /\ parseModelDirective name = mkDirectiveValue name "" "" []
  /\ Forall (fun seg => seg <> EmptyString) (propertyNameToPath name)
  /\ (includes name "__" = false ->
      propertyNameToPath name = split "." name
      /\ pathToPropertyName (split "." name) = name).
Proof.
  intros H. destruct (isValidPropertyName_checks name H) as [Hne [Ht [Hdd [He Hs]]]].
  destruct (target_chars_absent name Ht) as [Hco [Hh Hat]].
  assert (Hpath : propertyNameToPath name
                  = map (replaceAll DOT_MARKER ".") (split "." name)).
  { unfold propertyNameToPath. now rewrite (replaceAll_no_occurrence _ _ _ Hdd). }
  split.
  { pose proof (parseDirectiveValue_target EmptyString name EmptyString
                  Hne Ht eq_refl eq_refl) as E.
    cbn [append] in E. now rewrite append_empty_r in E. }
  split.
  { pose proof (parseModelDirective_syntax name None None None Hco Hh I) as E.
    unfold directiveSyntax in E. cbn [or_empty] in E.
    rewrite !append_empty_r in E. apply E. exact Hat. }
  split.
  { rewrite Hpath. apply Forall_map.
    eapply Forall_impl;
      [|exact (split_segments_nonempty "." (String.length name) name
                 (le_n _) Hne Hs He Hdd)].
    intros seg Hseg. cbv beta. apply replaceAll_nonempty; [exact Hseg | discriminate]. }
  intros Hu.
  assert (E : propertyNameToPath name = split "." name).
  { rewrite Hpath.
    pose proof (split_pieces_includes "." "__" (String.length name) name
                  (le_n _) Hu) as F.
    apply (map_fixed _ _ _ F). intros seg Hseg.
    apply replaceAll_no_occurrence.
    exact (includes_longer seg "__" "DOT_MARKER__" Hseg). }
  split; [exact E|].
  rewrite <- E. unfold pathToPropertyName, propertyNameToPath.
  set (q := replaceAll ".." DOT_MARKER name).
  rewrite map_map.
  assert (E2 : map (fun x => replaceAll "." DOT_MARKER (replaceAll DOT_MARKER "." x))
                   (split "." q) = split "." q).
  { apply (map_fixed _ _ _ (split_char_pieces "." q)). intros t Ht'.
    exact (replaceAll_undo "." EmptyString DOT_MARKER (String.length t) t
             ltac:(discriminate) (le_n _) Ht'). }
  rewrite E2, join_split_char. unfold q.
  apply marker_undo; [discriminate | exact Hu].
Qed.

Lemma isValidPropertyName_names_a_path_witness :
  parseDirectiveValue "form.user_name.0"
  = (mkDirectiveValue "form.user_name.0" "" "" [], []).
Proof.
  apply (proj1 (isValidPropertyName_names_a_path "form.user_name.0" eq_refl)).
Defined.

(** The tests of the repository for [isValidPropertyName]; every entry of
    [RESERVED_WORDS] is accepted, the table is not consulted. *)
Example test_isValidPropertyName :
  forallb isValidPropertyName
    ["isActive"; "userName"; "_private"; "$special"; "prop123"; "user.name";
     "form.user.email"; "data.items.0.title"; "__proto__"; "user_name"; "$_mixed";
     "data-value"; "my-prop"; "a-b-c"; "items.0"; "array.123.value"] = true
  /\ forallb (fun s => negb (isValidPropertyName s))
       ["size === 'lg'"; "!isHidden"; "isActive || isLoading"; "count + 1";
        "prop..name"; "a..b"; ".prop"; "prop."; ".prop."; "prop-"; "data-";
        "prop@name"; "prop#id"; "prop!active"; "prop&value"; "prop name"; "";
        "1prop"; "0item"] = true
  /\ forallb isValidPropertyName RESERVED_WORDS = true.
Proof. repeat split. Qed.

(** ** The scan of an element, category by category *)

Section ScannerOrder.

Variable inElementPrototype : string -> bool.
Variable element : Element.

Lemma Map_set_fresh {V : Type} (k : string) (v : V) (m : list (string * V)) :
  ~ In k (map fst m) -> Map_set String.eqb k v m = m ++ [(k, v)].
Proof.
  induction m as [|[k' v'] m IH]; intros H; [reflexivity|].
  cbn [Map_set]. destruct (String.eqb k' k) eqn:E.
  - apply String.eqb_eq in E. subst. exfalso. apply H. now left.
  - cbn [app]. f_equal. apply IH. intros Hin. apply H. now right.
Qed.

Lemma Map_get_app {V : Type} (k : string) (m1 m2 : list (string * V)) :
  Map_get String.eqb k (m1 ++ m2)
  = match Map_get String.eqb k m1 with
    | Some v => Some v
    | None => Map_get String.eqb k m2
    end.
Proof.
  induction m1 as [|[k' v'] m1 IH]; [reflexivity|].
  cbn [app Map_get]. now destruct (String.eqb k' k).
Qed.

Lemma fold_Map_set_get (l acc : list (string * string)) (k : string) :
  Map_get String.eqb k
    (fold_left (fun attrs a => Map_set String.eqb (fst a) (snd a) attrs) l acc)
  = match Map_get String.eqb k (rev l) with
    | Some v => Some v
    | None => Map_get String.eqb k acc
    end.
Proof.
  revert acc. induction l as [|[n v] l IH]; intros acc; [reflexivity|].
  cbn [fold_left rev fst snd]. rewrite IH, Map_get_app. cbn [Map_get].
  destruct (Map_get String.eqb k (rev l)); [reflexivity|].
  destruct (String.eqb n k) eqn:E.
  - apply String.eqb_eq in E. subst. apply Map_get_set_same.
  - now apply Map_get_set_other.
Qed.

Lemma fold_Map_set_NoDup (l acc : list (string * string)) :
  NoDup (map fst (acc ++ l)) ->
  fold_left (fun attrs a => Map_set String.eqb (fst a) (snd a) attrs) l acc
  = acc ++ l.
Proof.
  revert acc. induction l as [|[n v] l IH]; intros acc H.
  - now rewrite app_nil_r.
  - cbn [fold_left fst snd].
    assert (Hfresh : ~ In n (map fst acc)).
    { rewrite map_app in H. cbn [map fst] in H.
      apply NoDup_remove_2 in H. intros Hin. apply H.
      apply in_or_app. now left. }
    rewrite (Map_set_fresh n v acc Hfresh).
    rewrite IH; rewrite <- app_assoc; [reflexivity | exact H].
Qed.

Lemma startsWith_longer (t p q : string) :
  startsWith t p = false -> startsWith t (p ++ q) = false.
Proof.
  revert t. induction p as [|x p IH]; intros t H; [discriminate|].
  destruct t as [|y t]; [reflexivity|].
  change (String x p ++ q)%string with (String x (p ++ q)).
  cbn [startsWith] in *. destruct (Ascii.eqb y x); [|reflexivity].
  cbn [andb] in *. now apply IH.
Qed.

(** An attribute whose name does not begin with [data-] is passed over. *)
Lemma scanAttribute_plain (st : ScanState) (n v : string) :
  startsWith n "data-" = false ->
  scanAttribute inElementPrototype element st (n, v) = st.
Proof.
  intros H. destruct st as [[d f] l]. unfold scanAttribute.
  assert (Ha : startsWith n DIRECTIVE_PREFIXES.ATTRIBUTE = false)
    by exact (startsWith_longer n "data-" "a-" H).
  assert (Hp : startsWith n DIRECTIVE_PREFIXES.PROPERTY = false)
    by exact (startsWith_longer n "data-" "p-" H).
  assert (Hb : startsWith n DIRECTIVE_PREFIXES.BEHAVIOR = false)
    by exact (startsWith_longer n "data-" "b-" H).
  assert (Hcs : startsWith n (DIRECTIVE_PREFIXES.CLASS ++ "-") = false)
    by exact (startsWith_longer n "data-" "c-" H).
  rewrite Ha, Hp, Hb, Hcs.
  assert (Hm : String.eqb n DIRECTIVE_PREFIXES.MODEL = false).
  { destruct (String.eqb n DIRECTIVE_PREFIXES.MODEL) eqn:E; [|reflexivity].
    apply String.eqb_eq in E. subst n. discriminate H. }
  assert (Hc : String.eqb n DIRECTIVE_PREFIXES.CLASS = false).
  { destruct (String.eqb n DIRECTIVE_PREFIXES.CLASS) eqn:E; [|reflexivity].
    apply String.eqb_eq in E. subst n. discriminate H. }
  now rewrite Hm, Hc.
Qed.

Lemma scan_plain (attrs : list (string * string)) (st : ScanState) :
  Forall (fun name => startsWith name "data-" = false) (map fst attrs) ->
  fold_left (scanAttribute inElementPrototype element) attrs st = st.
Proof.
  revert st. induction attrs as [|[n v] attrs IH]; intros st H; [reflexivity|].
  cbn [map fst] in H. inversion H as [|? ? Hn Hrest]; subst.
  cbn [fold_left]. rewrite (scanAttribute_plain st n v Hn). now apply IH.
Qed.

Lemma getElementAttrs_names (P : string -> Prop) :
  Forall P (map fst (attributes element)) ->
  Forall P (map fst (getElementAttrs element)).
Proof.
  unfold getElementAttrs. intros H.
  assert (G : forall l acc, Forall P (map fst l) -> Forall P (map fst acc) ->
            Forall P (map fst (fold_left
                         (fun attrs (a : string * string) =>
                            Map_set String.eqb (fst a) (snd a) attrs) l acc))).
  { induction l as [|[n v] l IH]; intros acc Hl Hacc; [exact Hacc|].
    cbn [map fst] in Hl. inversion Hl as [|? ? Hn Hrest]; subst.
    cbn [fold_left fst snd]. apply IH; [exact Hrest|].
    apply Forall_forall. intros x Hx.
    apply Map_set_keys in Hx as [->|Hx]; [exact Hn|].
    revert x Hx. now apply Forall_forall. }
  apply G; [exact H | constructor].
Qed.

(** One category of the scan: the directives under the prefix [pre], kept in
    the field [proj]. *)
Section Category.

Variable proj : ParsedDirectives -> list (string * DirectiveValue).
Variable pre : string.

Hypothesis hit : forall (st : ScanState) (n v : string),
  startsWith n pre = true ->
  proj (scan_directives (scanAttribute inElementPrototype element st (n, v)))
  = Map_set String.eqb (drop (String.length pre) n) (fst (parseDirectiveValue v))
            (proj (scan_directives st)).

Hypothesis miss : forall (st : ScanState) (n v : string),
  startsWith n pre = false ->
  proj (scan_directives (scanAttribute inElementPrototype element st (n, v)))
  = proj (scan_directives st).

Lemma scan_category (l : list (string * string)) (st : ScanState) :
  NoDup (map fst (proj (scan_directives st))
         ++ map (fun a => drop (String.length pre) (fst a))
                (filter (fun a => startsWith (fst a) pre) l)) ->
  proj (scan_directives (fold_left (scanAttribute inElementPrototype element) l st))
  = proj (scan_directives st)
    ++ map (fun a => (drop (String.length pre) (fst a), fst (parseDirectiveValue (snd a))))
           (filter (fun a => startsWith (fst a) pre) l).
Proof.
  revert st. induction l as [|[n v] l IH]; intros st H.
  - cbn [fold_left filter map]. now rewrite app_nil_r.
  - cbn [fold_left filter fst] in *.
    destruct (startsWith n pre) eqn:E.
    + cbn [map fst snd] in *.
      assert (Hfresh : ~ In (drop (String.length pre) n)
                         (map fst (proj (scan_directives st)))).
      { apply NoDup_remove_2 in H. intros Hin. apply H.
        apply in_or_app. now left. }
      rewrite IH; rewrite (hit st n v E), (Map_set_fresh _ _ _ Hfresh).
      * now rewrite <- app_assoc.
      * rewrite map_app, <- app_assoc. exact H.
    + rewrite IH; rewrite (miss st n v E); [reflexivity | exact H].
Qed.

Lemma suffixes_NoDup (l : list (string * string)) :
  NoDup (map fst l) ->
  NoDup (map (fun a => drop (String.length pre) (fst a))
             (filter (fun a => startsWith (fst a) pre) l)).
Proof.
  induction l as [|[n v] l IH]; intros H; [constructor|].
  cbn [map fst] in H. inversion H as [|? ? Hnotin Hnd]; subst.
  cbn [filter fst]. destruct (startsWith n pre) eqn:E; [|now apply IH].
  cbn [map fst]. constructor; [|now apply IH].
  intros Hin. apply in_map_iff in Hin as [[n' v'] [Heq Hin]].
  apply filter_In in Hin as [Hin Hpre]. cbn [fst] in *.
  apply Hnotin. apply in_map_iff. exists (n', v'). split; [|exact Hin].
  cbn [fst]. rewrite (startsWith_split _ _ Hpre), (startsWith_split _ _ E).
  now rewrite Heq.
Qed.

End Category.

Lemma scanAttribute_attribute_hit (st : ScanState) (n v : string) :
  startsWith n DIRECTIVE_PREFIXES.ATTRIBUTE = true ->
  attributeDirectives (scan_directives (scanAttribute inElementPrototype element st (n, v)))
  = Map_set String.eqb (drop (String.length DIRECTIVE_PREFIXES.ATTRIBUTE) n)
            (fst (parseDirectiveValue v)) (attributeDirectives (scan_directives st)).
Proof.
  intros H. destruct st as [[d f] l].
  unfold scanAttribute, parseAttributeDirective. rewrite H.
  destruct (parseDirectiveValue v); reflexivity.
Qed.

Lemma scanAttribute_attribute_miss (st : ScanState) (n v : string) :
  startsWith n DIRECTIVE_PREFIXES.ATTRIBUTE = false ->
  attributeDirectives (scan_directives (scanAttribute inElementPrototype element st (n, v)))
  = attributeDirectives (scan_directives st).
Proof.
  intros H. destruct st as [[d f] l].
  unfold scanAttribute, parseBehaviorDirective. rewrite H.
  destruct (startsWith n DIRECTIVE_PREFIXES.PROPERTY).
  { destruct (parseDirectiveValue v); reflexivity. }
  destruct (startsWith n DIRECTIVE_PREFIXES.BEHAVIOR).
  { destruct (parseDirectiveValue v); reflexivity. }
  destruct (String.eqb n DIRECTIVE_PREFIXES.MODEL).
  { destruct (negb (isValidForTwoWayBinding element)); reflexivity. }
  destruct (startsWith n (DIRECTIVE_PREFIXES.CLASS ++ "-") || String.eqb n DIRECTIVE_PREFIXES.CLASS);
    reflexivity.
Qed.

Lemma behavior_prefix_alone (n : string) :
  startsWith n DIRECTIVE_PREFIXES.BEHAVIOR = true ->
  startsWith n DIRECTIVE_PREFIXES.ATTRIBUTE = false
  /\ startsWith n DIRECTIVE_PREFIXES.PROPERTY = false.
Proof.
  intros H. rewrite (startsWith_split _ _ H). split; reflexivity.
Qed.

Lemma scanAttribute_behavior_hit (st : ScanState) (n v : string) :
  startsWith n DIRECTIVE_PREFIXES.BEHAVIOR = true ->
  behaviorDirectives (scan_directives (scanAttribute inElementPrototype element st (n, v)))
  = Map_set String.eqb (drop (String.length DIRECTIVE_PREFIXES.BEHAVIOR) n)
            (fst (parseDirectiveValue v)) (behaviorDirectives (scan_directives st)).
Proof.
  intros H. destruct (behavior_prefix_alone n H) as [Ha Hp].
  destruct st as [[d f] l].
  unfold scanAttribute, parseBehaviorDirective. rewrite Ha, Hp, H.
  destruct (parseDirectiveValue v); reflexivity.
Qed.

Lemma scanAttribute_behavior_miss (st : ScanState) (n v : string) :
  startsWith n DIRECTIVE_PREFIXES.BEHAVIOR = false ->
  behaviorDirectives (scan_directives (scanAttribute inElementPrototype element st (n, v)))
  = behaviorDirectives (scan_directives st).
Proof.
  intros H. destruct st as [[d f] l].
  unfold scanAttribute, parseAttributeDirective. rewrite H.
  destruct (startsWith n DIRECTIVE_PREFIXES.ATTRIBUTE).
  { destruct (parseDirectiveValue v); reflexivity. }
  destruct (startsWith n DIRECTIVE_PREFIXES.PROPERTY).
  { destruct (parseDirectiveValue v); reflexivity. }
  destruct (String.eqb n DIRECTIVE_PREFIXES.MODEL).
  { destruct (negb (isValidForTwoWayBinding element)); reflexivity. }
  destruct (startsWith n (DIRECTIVE_PREFIXES.CLASS ++ "-") || String.eqb n DIRECTIVE_PREFIXES.CLASS);
    reflexivity.
Qed.

(** The class directive is added without touching the other fields. *)
Lemma parseDirectives_fields (attrs : list (string * string)) :
  let scanned := scan_directives
                   (fold_left (scanAttribute inElementPrototype element) attrs
                              (new_ParsedDirectives, false, [])) in
  let pd := fst (parseDirectives inElementPrototype element (Some attrs)) in
  attributeDirectives pd = attributeDirectives scanned
  /\ propertyDirectives pd = propertyDirectives scanned
  /\ behaviorDirectives pd = behaviorDirectives scanned
  /\ modelDirective pd = modelDirective scanned.
Proof.
  cbv zeta. unfold parseDirectives, scan_directives.
  destruct (fold_left (scanAttribute inElementPrototype element) attrs
                      (new_ParsedDirectives, false, [])) as [[d f] l].
  cbn [fst]. destruct f; [|repeat split].
  destruct (parseClassDirectives attrs). repeat split.
Qed.

End ScannerOrder.

(** X14. [getElementAttrs] finds under every name the value of the last
    attribute of that name; on an element whose attribute names are unique
    (as those of a DOM element are) it is the attribute list itself, in
    order, so that [parseDirectives] scans the same attributes whether it is
    given them or reads them from the element. *)
Theorem getElementAttrs_reads_attributes
    (inElementPrototype : string -> bool) (element : Element) :
  (forall name,
      Map_get String.eqb name (getElementAttrs element)
      = Map_get String.eqb name (rev (attributes element)))
  /\ (NoDup (map fst (attributes element)) ->
      getElementAttrs element = attributes element
      /\ parseDirectives inElementPrototype element None
         = parseDirectives inElementPrototype element (Some (attributes element))).
Proof.
  split.
  - intros name. unfold getElementAttrs. rewrite fold_Map_set_get.
    now destruct (Map_get String.eqb name (rev (attributes element))).
  - intros H.
    assert (E : getElementAttrs element = attributes element).
    { unfold getElementAttrs. now rewrite fold_Map_set_NoDup. }
    split; [exact E|]. unfold parseDirectives. now rewrite E.
Qed.

(** X15. An element none of whose attribute names begins with [data-] has
    no directives: the scan gives the empty [ParsedDirectives] without a
    warning, and [processElement] creates the context and calls no callback
    of the bridge. *)
Theorem processElement_plain_element {W Err : Type}
    (inElementPrototype : string -> bool) (cls : @BridgeClass W Err)
    (element : Element) (st : JsValue) (options : Options) (rt : @Runtime W Err) :
  Forall (fun name => startsWith name "data-" = false)
         (map fst (attributes element)) ->
  parseDirectives inElementPrototype element None = (new_ParsedDirectives, [])
  /\ processElement inElementPrototype cls element st options rt
     = (mkBinding (List.length (contexts rt)) new_ParsedDirectives,
        mkRuntime (world rt)
          (contexts rt
           ++ [mkHandlerContext st (opt_signal options)
                 match opt_config options with
                 | Some Undefined | None => empty_object
                 | Some c => c
                 end []])
          (signals rt) (console rt) (trace rt)).
Proof.
  intros H.
  assert (E : parseDirectives inElementPrototype element None
              = (new_ParsedDirectives, [])).
  { unfold parseDirectives.
    rewrite scan_plain; [reflexivity|].
    now apply getElementAttrs_names. }
  split; [exact E|].
  unfold processElement. rewrite E.
  unfold log_warnings, new_HandlerContext.
  cbn [map modelDirective attributeDirectives propertyDirectives classDirective
       new_ParsedDirectives is_empty world contexts signals console trace].
  now rewrite app_nil_r.
Qed.

Lemma processElement_plain_element_witness :
  parseDirectives (fun _ => false)
    (mkElement 1 "DIV" None "inherit" [("class", "card"); ("id", "main")]) None
  = (new_ParsedDirectives, []).
Proof.
  apply (proj1 (processElement_plain_element (fun _ => false) TestBridge_class
                  (mkElement 1 "DIV" None "inherit" [("class", "card"); ("id", "main")])
                  Null (mkOptions None None)
                  (@mkRuntime nat string 0 [] [] [] [])
                  ltac:(repeat constructor))).
Defined.

(** X16. On attributes with unique names, the attribute directives of the
    scan are the [data-a-*] attributes in their order, each under its name
    without the prefix and with its value parsed by [parseAttributeDirective],
    and the behavior directives are the [data-b-*] attributes in the same
    way. *)
Theorem parseDirectives_keeps_attribute_order
    (inElementPrototype : string -> bool) (element : Element)
    (attrs : list (string * string)) :
  NoDup (map fst attrs) ->
  let pd := fst (parseDirectives inElementPrototype element (Some attrs)) in
  attributeDirectives pd
  = map (fun a => (drop (String.length DIRECTIVE_PREFIXES.ATTRIBUTE) (fst a),
                   fst (parseAttributeDirective (snd a))))
        (filter (fun a => startsWith (fst a) DIRECTIVE_PREFIXES.ATTRIBUTE) attrs)
  /\ behaviorDirectives pd
     = map (fun a => (drop (String.length DIRECTIVE_PREFIXES.BEHAVIOR) (fst a),
                      fst (parseBehaviorDirective (snd a))))
           (filter (fun a => startsWith (fst a) DIRECTIVE_PREFIXES.BEHAVIOR) attrs).
Proof.
  intros H pd.
  destruct (parseDirectives_fields inElementPrototype element attrs)
    as [Ea [_ [Eb _]]].
  cbv zeta in Ea, Eb. unfold pd. rewrite Ea, Eb. split.
  - rewrite (scan_category inElementPrototype element attributeDirectives
               DIRECTIVE_PREFIXES.ATTRIBUTE
               (scanAttribute_attribute_hit inElementPrototype element)
               (scanAttribute_attribute_miss inElementPrototype element));
      [reflexivity|].
    cbn [scan_directives fst new_ParsedDirectives attributeDirectives map app].
    now apply suffixes_NoDup.
  - rewrite (scan_category inElementPrototype element behaviorDirectives
               DIRECTIVE_PREFIXES.BEHAVIOR
               (scanAttribute_behavior_hit inElementPrototype element)
               (scanAttribute_behavior_miss inElementPrototype element));
      [reflexivity|].
    cbn [scan_directives fst new_ParsedDirectives behaviorDirectives map app].
    now apply suffixes_NoDup.
Qed.

Lemma parseDirectives_keeps_attribute_order_witness :
  attributeDirectives
    (fst (parseDirectives (fun _ => false)
            (mkElement 1 "DIV" None "inherit" [])
            (Some [("data-a-title", "user.name"); ("id", "x");
                   ("data-b-tooltip", "hint"); ("data-a-href", "link#once")])))
  = map (fun a => (drop (String.length DIRECTIVE_PREFIXES.ATTRIBUTE) (fst a),
                   fst (parseAttributeDirective (snd a))))
        (filter (fun a => startsWith (fst a) DIRECTIVE_PREFIXES.ATTRIBUTE)
                [("data-a-title", "user.name"); ("id", "x");
                 ("data-b-tooltip", "hint"); ("data-a-href", "link#once")]).
Proof.
  apply (proj1 (parseDirectives_keeps_attribute_order (fun _ => false)
                  (mkElement 1 "DIV" None "inherit" [])
                  [("data-a-title", "user.name"); ("id", "x");
                   ("data-b-tooltip", "hint"); ("data-a-href", "link#once")]
                  ltac:(repeat constructor; simpl; intuition discriminate))).
Defined.

Lemma getElementAttrs_reads_attributes_witness :
  getElementAttrs (mkElement 1 "INPUT" (Some "text") "inherit"
                     [("id", "name"); ("data-m", "user.name")])
  = [("id", "name"); ("data-m", "user.name")].
Proof.
  apply (proj1 (proj2 (getElementAttrs_reads_attributes (fun _ => false)
                         (mkElement 1 "INPUT" (Some "text") "inherit"
                            [("id", "name"); ("data-m", "user.name")]))
                 ltac:(repeat constructor; simpl; intuition discriminate))).
Defined.

(** ** Reactive classes *)

Section ReactiveClasses.

Lemma reactiveLoop_order (l : list (string * string))
    (acc : list (string * DirectiveValue)) (log : list Diagnostic) :
  NoDup (map fst acc
         ++ map (fun a => drop (String.length (DIRECTIVE_PREFIXES.CLASS ++ "-")) (fst a))
                (filter (fun a => startsWith (fst a) (DIRECTIVE_PREFIXES.CLASS ++ "-")) l)) ->
  reactiveLoop l acc log
  = (acc ++ map (fun a => (drop (String.length (DIRECTIVE_PREFIXES.CLASS ++ "-")) (fst a),
                           fst (parseDirectiveValue (snd a))))
                (filter (fun a => startsWith (fst a) (DIRECTIVE_PREFIXES.CLASS ++ "-")) l),
     log ++ flat_map (fun a => snd (parseDirectiveValue (snd a)))
                     (filter (fun a => startsWith (fst a) (DIRECTIVE_PREFIXES.CLASS ++ "-")) l)).
Proof.
  revert acc log. induction l as [|[n v] l IH]; intros acc log H.
  - cbn [reactiveLoop filter map flat_map]. now rewrite !app_nil_r.
  - cbn [reactiveLoop filter fst] in *.
    destruct (startsWith n (DIRECTIVE_PREFIXES.CLASS ++ "-")) eqn:E.
    + cbn [map flat_map fst snd] in *.
      change (String.length DIRECTIVE_PREFIXES.CLASS + 1)
        with (String.length (DIRECTIVE_PREFIXES.CLASS ++ "-")).
      assert (Hfresh : ~ In (drop (String.length (DIRECTIVE_PREFIXES.CLASS ++ "-")) n)
                         (map fst acc)).
      { apply NoDup_remove_2 in H. intros Hin. apply H.
        apply in_or_app. now left. }
      destruct (parseDirectiveValue v) as [dv w]. cbn [fst snd].
      rewrite (Map_set_fresh _ _ _ Hfresh).
      rewrite IH.
      * now rewrite <- !app_assoc.
      * rewrite map_app, <- app_assoc. exact H.
    + now apply IH.
Qed.

End ReactiveClasses.

(** X17. Without a [data-c] attribute, or with one whose value is blank,
    the class directive of attributes with unique names holds one reactive
    class for every [data-c-*] attribute, in attribute order, under the name
    without the prefix and with the value parsed by [parseDirectiveValue];
    it has no computed class, and the warnings are those of the values, in
    order, never the conflict warning. *)
Theorem parseClassDirectives_reactive (attrs : list (string * string)) :
  NoDup (map fst attrs) ->
  match Map_get String.eqb DIRECTIVE_PREFIXES.CLASS attrs with
  | Some v => trim v = EmptyString
  | None => True
  end ->
  parseClassDirectives attrs
  = (mkClassDirectiveValue
       (map (fun a => (drop (String.length (DIRECTIVE_PREFIXES.CLASS ++ "-")) (fst a),
                       fst (parseDirectiveValue (snd a))))
            (filter (fun a => startsWith (fst a) (DIRECTIVE_PREFIXES.CLASS ++ "-")) attrs))
       None,
     flat_map (fun a => snd (parseDirectiveValue (snd a)))
              (filter (fun a => startsWith (fst a) (DIRECTIVE_PREFIXES.CLASS ++ "-")) attrs)).
Proof.
  intros Hnd Hc.
  assert (E : parseClassDirectives attrs
              = (mkClassDirectiveValue (fst (reactiveLoop attrs [] [])) None,
                 snd (reactiveLoop attrs [] []))).
  { destruct (Map_get String.eqb DIRECTIVE_PREFIXES.CLASS attrs) as [v|] eqn:G.
    - now apply (parseClassDirectives_blank attrs v).
    - unfold parseClassDirectives, Map_has. rewrite G. cbn [andb].
      now destruct (reactiveLoop attrs [] []). }
  rewrite E, reactiveLoop_order; [reflexivity|].
  cbn [map app]. now apply suffixes_NoDup.
Qed.

Lemma parseClassDirectives_reactive_witness :
  parseClassDirectives
    [("data-c-active", "isActive"); ("class", "btn"); ("data-c-large", "size.large")]
  = (mkClassDirectiveValue
       (map (fun a => (drop (String.length (DIRECTIVE_PREFIXES.CLASS ++ "-")) (fst a),
                       fst (parseDirectiveValue (snd a))))
            (filter (fun a => startsWith (fst a) (DIRECTIVE_PREFIXES.CLASS ++ "-"))
                    [("data-c-active", "isActive"); ("class", "btn");
                     ("data-c-large", "size.large")]))
       None,
     flat_map (fun a => snd (parseDirectiveValue (snd a)))
              (filter (fun a => startsWith (fst a) (DIRECTIVE_PREFIXES.CLASS ++ "-"))
                      [("data-c-active", "isActive"); ("class", "btn");
                       ("data-c-large", "size.large")])).
Proof.
  apply (parseClassDirectives_reactive
           [("data-c-active", "isActive"); ("class", "btn"); ("data-c-large", "size.large")]).
  - repeat constructor; simpl; intuition discriminate.
  - exact I.
Defined.

(** ** The name codec on names with hyphens *)

Section HyphenRoundTrip.

Lemma join_cons (sep a b : string) (l : list string) :
  join sep (a :: b :: l) = (a ++ sep ++ join sep (b :: l))%string.
Proof. reflexivity. Qed.

Lemma join_cons_append (sep a b : string) (l : list string) :
  join sep ((a ++ b)%string :: l) = (a ++ join sep (b :: l))%string.
Proof.
  destruct l as [|c l]; [reflexivity|].
  rewrite !join_cons. now rewrite append_assoc.
Qed.

(** Replacing a character is splitting at it and joining with the
    replacement. *)
Lemma replaceAll_char_join (c : ascii) (rep s : string) :
  replaceAll (String c EmptyString) rep s
  = join rep (split (String c EmptyString) s).
Proof.
  unfold replaceAll, split. induction s as [|d s IH]; [reflexivity|].
  cbn [replaceAll_from split_from startsWith String.length Nat.sub].
  rewrite andb_true_r. rewrite IH.
  destruct (split_from 0 (String c EmptyString) s) as [t ts].
  destruct (Ascii.eqb d c).
  - now rewrite join_cons.
  - exact (eq_sym (join_cons_append rep (String d EmptyString) t ts)).
Qed.

Lemma all_chars_append (P : ascii -> bool) (a b : string) :
  all_chars P (a ++ b) = all_chars P a && all_chars P b.
Proof.
  induction a as [|x a IH]; [reflexivity|].
  cbn [append all_chars]. now rewrite IH, andb_assoc.
Qed.

Lemma all_chars_join (P : ascii -> bool) (sep : string) (parts : list string) :
  all_chars P sep = true ->
  Forall (fun p => all_chars P p = true) parts ->
  all_chars P (join sep parts) = true.
Proof.
  intros Hsep H. induction H as [|p parts Hp _ IH]; [reflexivity|].
  destruct parts as [|q parts]; [exact Hp|].
  now rewrite join_cons, !all_chars_append, Hp, Hsep, IH.
Qed.

(** A function on strings that respects concatenation respects [join]. *)
Lemma join_hom (F : string -> string) (sep : string) (parts : list string) :
  (forall a b, F (a ++ b)%string = (F a ++ F b)%string) ->
  F EmptyString = EmptyString ->
  F (join sep parts) = join (F sep) (map F parts).
Proof.
  intros Happ Hnil. induction parts as [|p parts IH]; [exact Hnil|].
  destruct parts as [|q parts]; [reflexivity|].
  cbn [map]. rewrite !join_cons, !Happ. cbn [map] in IH. now rewrite IH.
Qed.

Lemma expand_chars_append (f : ascii -> string) (a b : string) :
  expand_chars f (a ++ b) = (expand_chars f a ++ expand_chars f b)%string.
Proof.
  induction a as [|x a IH]; [reflexivity|].
  cbn [append expand_chars]. now rewrite IH, append_assoc.
Qed.

(** The last two steps of [encodeProp], character by character. *)
Lemma lower_expand (n : string) :
  toLowerCase
    (expand_chars (fun c => if is_upper c then String "-" (String c EmptyString)
                            else String c EmptyString) n)
  = expand_chars encodeChar n.
Proof.
  induction n as [|c n IH]; [reflexivity|].
  cbn [expand_chars]. rewrite toLowerCase_append, IH.
  unfold encodeChar. destruct (is_upper c) eqn:U; reflexivity.
Qed.

(** [encodeProp] on a segment without dots: the pieces between its hyphens
    are encoded one by one and joined by two hyphens. *)
Lemma encodeProp_join (seg : string) :
  absent "." seg = true ->
  encodeProp seg = join "--" (map (expand_chars encodeChar) (split "-" seg)).
Proof.
  intros Hdot. unfold encodeProp.
  rewrite (replaceAll_char_join "-" "--" seg).
  rewrite (replaceAll_absent "." EmptyString "..").
  - rewrite lower_expand.
    apply (join_hom (expand_chars encodeChar) "--").
    + apply expand_chars_append.
    + reflexivity.
  - unfold absent. apply all_chars_join; [reflexivity|].
    now apply (split_keeps_absent "." "-" seg).
Qed.

Lemma split_pieces_all_chars (P : ascii -> bool) (c : ascii) (s : string) :
  all_chars P s = true ->
  Forall (fun t => all_chars P t = true) (split (String c EmptyString) s).
Proof.
  unfold split. induction s as [|d s IH]; intros H; [repeat constructor|].
  cbn [all_chars] in H. apply andb_true_iff in H as [Hd Hs].
  specialize (IH Hs).
  cbn [split_from startsWith String.length Nat.sub].
  destruct (split_from 0 (String c EmptyString) s) as [t ts].
  destruct (Ascii.eqb d c); cbn [andb].
  - constructor; [reflexivity | exact IH].
  - inversion IH as [|? ? Ht Hts]; subst. constructor; [|exact Hts].
    cbn [all_chars]. now rewrite Hd, Ht.
Qed.

(** The pieces between the hyphens of a name of letters, digits and hyphens
    are names of letters and digits. *)
Lemma hyphen_pieces_alnum (seg : string) :
  all_chars (fun c => is_alnum c || Ascii.eqb c "-") seg = true ->
  Forall (fun t => all_chars is_alnum t = true) (split "-" seg).
Proof.
  intros H.
  pose proof (split_pieces_all_chars _ "-" seg H) as F1.
  pose proof (split_char_pieces "-" seg) as F2.
  revert F1 F2. generalize (split "-" seg). intros l F1.
  induction F1 as [|t l Ht _ IH]; intros F2; [constructor|].
  inversion F2 as [|? ? Ha Hl]; subst. constructor; [|now apply IH].
  clear -Ht Ha. induction t as [|x t IH]; [reflexivity|].
  cbn [all_chars] in *. rewrite absent_cons in Ha.
  apply andb_true_iff in Ht as [Hx Ht]. apply andb_true_iff in Ha as [Hn Ha].
  rewrite (IH Ht Ha), andb_true_r.
  apply negb_true_iff in Hn. now rewrite Hn, orb_false_r in Hx.
Qed.

Lemma encoded_not_ending_hyphen (n : string) :
  all_chars is_alnum n = true ->
  endsWith_char (expand_chars encodeChar n) "-" = false.
Proof.
  induction n as [|c n IH]; [reflexivity|].
  cbn [all_chars expand_chars]. intros H. apply andb_true_iff in H as [Hc Hn].
  destruct n as [|d n].
  - cbn [expand_chars]. rewrite append_empty_r. clear -Hc.
    unfold encodeChar.
    destruct c as [[] [] [] [] [] [] [] []]; try discriminate Hc; reflexivity.
  - rewrite endsWith_char_append; [now apply IH|].
    now apply encoded_non_empty.
Qed.

Lemma removelast_Forall {A : Type} (P : A -> Prop) (l : list A) :
  Forall P l -> Forall P (removelast l).
Proof.
  intros H. induction H as [|x l Hx Hl IH]; [constructor|].
  cbn [removelast]. destruct l; [constructor | now constructor].
Qed.

(** Decoding undoes the encoding of a segment of letters, digits and
    hyphens. *)
Lemma convertPart_encodeProp (seg : string) :
  all_chars (fun c => is_alnum c || Ascii.eqb c "-") seg = true ->
  convertPart (encodeProp seg) = seg.
Proof.
  intros H.
  assert (Hdot : absent "." seg = true).
  { unfold absent. eapply all_chars_impl; [|exact H].
    intros c Hc. destruct c as [[] [] [] [] [] [] [] []];
      try discriminate Hc; reflexivity. }
  pose proof (hyphen_pieces_alnum seg H) as Hp.
  rewrite (encodeProp_join seg Hdot).
  set (pieces := split "-" seg) in *.
  assert (Hne : map (expand_chars encodeChar) pieces <> []).
  { unfold pieces, split. destruct (split_from 0 "-" seg). discriminate. }
  assert (Hsplit : split "--" (join "--" (map (expand_chars encodeChar) pieces))
                   = map (expand_chars encodeChar) pieces).
  { apply split_join_dashes; [exact Hne | |].
    - apply Forall_map. eapply Forall_impl; [|exact Hp].
      intros t Ht. now apply encoded_no_double_hyphen.
    - apply removelast_Forall. apply Forall_map. eapply Forall_impl; [|exact Hp].
      intros t Ht. now apply encoded_not_ending_hyphen. }
  assert (Hconv : convertPart (join "--" (map (expand_chars encodeChar) pieces))
                  = join "-" (map convertSubpart
                                  (map (expand_chars encodeChar) pieces))).
  { unfold convertPart.
    destruct (includes (join "--" (map (expand_chars encodeChar) pieces)) "--") eqn:E.
    - now rewrite Hsplit.
    - pose proof (split_dashes_last _ E) as S. rewrite Hsplit in S.
      rewrite S. reflexivity. }
  rewrite Hconv, map_map.
  rewrite (map_fixed _ _ _ Hp).
  - apply (join_split_char "-" seg).
  - intros t Ht. cbv beta.
    now rewrite convertSubpart_kebabToCamel, kebabToCamel_encoded.
Qed.

Lemma encodeProp_segment (seg : string) :
  seg <> EmptyString ->
  all_chars (fun c => is_alnum c || Ascii.eqb c "-") seg = true ->
  encodeProp seg <> EmptyString /\ absent "." (encodeProp seg) = true.
Proof.
  intros Hne H. split.
  - intros E. pose proof (convertPart_encodeProp seg H) as R.
    rewrite E in R. cbn in R. congruence.
  - assert (Hdot : absent "." seg = true).
    { unfold absent. eapply all_chars_impl; [|exact H].
      intros c Hc. destruct c as [[] [] [] [] [] [] [] []];
        try discriminate Hc; reflexivity. }
    rewrite (encodeProp_join seg Hdot).
    unfold absent. apply all_chars_join; [reflexivity|].
    apply Forall_map. eapply Forall_impl; [|exact (hyphen_pieces_alnum seg H)].
    intros t Ht. now apply encoded_no_dot.
Qed.

End HyphenRoundTrip.

(** X18. The round trip of the name codec on dotted paths with hyphens: for
    a path of non-empty segments of letters, digits and hyphens and any
    prefix, [attributeNameToPropertyName] gives back the dotted property name
    of which [propertyNameToAttributeName] made the attribute name, and the
    path given as an array and given as a dotted string has the same
    attribute name. *)
Theorem attributeName_roundtrip_with_hyphens (prefix : string) (segs : list string) :
  segs <> [] ->
  Forall (fun seg => seg <> EmptyString
                     /\ all_chars (fun c => is_alnum c || Ascii.eqb c "-") seg = true)
         segs ->
  attributeNameToPropertyName
    (propertyNameToAttributeName (PathArray segs) prefix) prefix
  = join "." segs
  /\ propertyNameToAttributeName (PathString (join "." segs)) prefix
     = propertyNameToAttributeName (PathArray segs) prefix.
Proof.
  intros Hne Hall.
  assert (Hchars : forall c, is_alnum c || Ascii.eqb c "-" = true ->
            negb (Ascii.eqb c ".") = true /\ negb (Ascii.eqb c "_") = true).
  { intros c Hc. destruct c as [[] [] [] [] [] [] [] []];
      try discriminate Hc; split; reflexivity. }
  assert (Hdots : Forall (fun p => absent "." p = true) segs).
  { eapply Forall_impl; [|exact Hall]. intros seg [_ H].
    unfold absent. eapply all_chars_impl; [|exact H].
    intros c Hc. now destruct (Hchars c Hc). }
  assert (Hus : Forall (fun p => absent "_" p = true) segs).
  { eapply Forall_impl; [|exact Hall]. intros seg [_ H].
    unfold absent. eapply all_chars_impl; [|exact H].
    intros c Hc. now destruct (Hchars c Hc). }
  assert (Hencs : Forall (fun p => p <> EmptyString /\ absent "." p = true)
                         (map encodeProp segs)).
  { apply Forall_map. eapply Forall_impl; [|exact Hall]. intros seg [H1 H2].
    now apply encodeProp_segment. }
  assert (Hdec : map convertPart (map encodeProp segs) = segs).
  { rewrite map_map. apply (map_fixed _ _ _ Hall).
    intros seg [_ H]. now apply convertPart_encodeProp. }
  split.
  - unfold propertyNameToAttributeName, attributeNameToPropertyName.
    rewrite startsWith_append. cbn [negb]. rewrite drop_append.
    rewrite (replaceAll_no_occurrence ".." DOT_MARKER _ (no_double_dot _ Hencs)).
    rewrite (split_char_join "." (map encodeProp segs)).
    + rewrite Hdec.
      apply (replaceAll_absent "_" _ ".." _).
      now apply absent_join.
    + destruct segs; [congruence | discriminate].
    + eapply Forall_impl; [|exact Hencs]. now intros p [_ H].
  - unfold propertyNameToAttributeName.
    now rewrite (split_char_join "." segs Hne Hdots).
Qed.

Lemma attributeName_roundtrip_with_hyphens_witness :
  attributeNameToPropertyName
    (propertyNameToAttributeName (PathArray ["form"; "aria-Label"; "x-"]) default_prefix)
    default_prefix
  = join "." ["form"; "aria-Label"; "x-"].
Proof.
  apply (proj1 (attributeName_roundtrip_with_hyphens default_prefix
                  ["form"; "aria-Label"; "x-"]
                  ltac:(discriminate)
                  ltac:(repeat constructor; discriminate))).
Defined.

Section LowerCase.

Lemma lower_char_not_upper (c : ascii) : is_upper (lower_char c) = false.
Proof. destruct c as [[] [] [] [] [] [] [] []]; reflexivity. Qed.

Lemma lower_char_idempotent (c : ascii) : lower_char (lower_char c) = lower_char c.
Proof. destruct c as [[] [] [] [] [] [] [] []]; reflexivity. Qed.

Lemma toLowerCase_no_upper (s : string) :
  all_chars (fun c => negb (is_upper c)) (toLowerCase s) = true.
Proof.
  unfold toLowerCase. induction s as [|c s IH]; [reflexivity|].
  cbn [map_chars all_chars]. now rewrite lower_char_not_upper, IH.
Qed.

Lemma toLowerCase_idempotent (s : string) :
  toLowerCase (toLowerCase s) = toLowerCase s.
Proof.
  unfold toLowerCase. induction s as [|c s IH]; [reflexivity|].
  cbn [map_chars]. now rewrite lower_char_idempotent, IH.
Qed.

End LowerCase.

(** X19. The attribute name that [propertyNameToAttributeName] makes holds
    no capital letter after the prefix, whatever the input: with a prefix in
    lower case the whole name is in lower case, and lower-casing it, as an
    HTML document does with attribute names, changes nothing. *)
Theorem propertyNameToAttributeName_lower_case (input : PathInput) (prefix : string) :
  toLowerCase prefix = prefix ->
  toLowerCase (propertyNameToAttributeName input prefix)
  = propertyNameToAttributeName input prefix
  /\ all_chars (fun c => negb (is_upper c)) (propertyNameToAttributeName input prefix)
     = true.
Proof.
  intros Hp. unfold propertyNameToAttributeName.
  set (propPath := match input with
                   | PathArray path => path
                   | PathString s => split "." s
                   end).
  assert (Hlow : toLowerCase (join "." (map encodeProp propPath))
                 = join "." (map encodeProp propPath)).
  { rewrite (join_hom toLowerCase "." _ toLowerCase_append eq_refl).
    rewrite map_map. f_equal. apply map_ext. intros seg.
    unfold encodeProp. apply toLowerCase_idempotent. }
  split.
  - now rewrite toLowerCase_append, Hp, Hlow.
  - rewrite all_chars_append. rewrite <- Hp, <- Hlow.
    now rewrite !toLowerCase_no_upper.
Qed.

Lemma propertyNameToAttributeName_lower_case_witness :
  toLowerCase (propertyNameToAttributeName (PathString "user.firstName") default_prefix)
  = propertyNameToAttributeName (PathString "user.firstName") default_prefix.
Proof.
  apply (proj1 (propertyNameToAttributeName_lower_case
                  (PathString "user.firstName") default_prefix eq_refl)).
Defined.

(** ** What a parsed modifier can be *)

Section ModifierInvariants.

(** A modifier as the grammar can produce it: the name is a non-empty run
    of name characters, and no numeric argument is [NaN]. *)
Lemma parseModifierToken_wellformed (token : string) (m : Modifier) :
  In m (parseModifierToken token) ->
  fst m <> EmptyString
  /\ all_chars is_name_char (fst m) = true
  /\ Forall (fun a => match a with
                      | ArgNumber n => isNaN n = false
                      | _ => True
                      end) (snd m).
Proof.
  unfold parseModifierToken, matchModifier.
  pose proof (span_fst_all_chars is_name_char token) as Hspan.
  destruct (span is_name_char token) as [name rest]. cbn [fst] in Hspan.
  destruct name as [|c name]; [intros []|].
  intros [<-|[]]. cbn [fst snd].
  split; [discriminate|]. split; [exact Hspan|].
  set (group := match rest with
                | EmptyString => None
                | String c0 r =>
                    if Ascii.eqb c0 "("
                    then let (inner, r') := span (fun x => negb (Ascii.eqb x ")")) r in
                         match r' with
                         | EmptyString => None
                         | String _ _ => Some inner
                         end
                    else None
                end).
  unfold modifierArgs. destruct group as [[|g0 g]|]; try constructor.
  apply Forall_map. apply Forall_forall. intros arg _.
  unfold coerceArg.
  destruct (negb (isNaN (Number (trim arg))) && negb (String.eqb (trim arg) "")) eqn:E.
  - apply andb_true_iff in E as [E _]. now apply negb_true_iff in E.
  - destruct (String.eqb (toLowerCase (trim arg)) "true"); [exact I|].
    destruct (String.eqb (toLowerCase (trim arg)) "false"); [exact I|].
    destruct (quoted_by squote (trim arg) || quoted_by dquote (trim arg)); exact I.
Qed.

Lemma parseModifiersString_wellformed (str : string) (m : Modifier) :
  In m (parseModifiersString str) ->
  fst m <> EmptyString /\ all_chars is_name_char (fst m) = true
  /\ Forall (fun a => match a with
                      | ArgNumber n => isNaN n = false
                      | _ => True
                      end) (snd m).
Proof.
  unfold parseModifiersString. intros H.
  apply in_flat_map in H as [token [_ H]].
  now apply (parseModifierToken_wellformed token).
Qed.

Lemma setModifiers_entries (l : list Modifier) (acc : list (string * list ArgValue))
    (e : string * list ArgValue) :
  In e (setModifiers l acc) -> In e l \/ In e acc.
Proof.
  unfold setModifiers. revert acc. induction l as [|[k v] l IH]; intros acc H.
  - now right.
  - cbn [fold_left fst snd] in H. apply IH in H as [H|H]; [left; now right|].
    assert (G : forall m, In e (Map_set String.eqb k v m) -> e = (k, v) \/ In e m).
    { clear. induction m as [|[k' v'] m IH]; cbn [Map_set].
      - intros [H|[]]; auto.
      - destruct (String.eqb k' k).
        + intros [H|H]; [auto | right; now right].
        + intros [H|H]; [right; now left|].
          destruct (IH H); [auto | right; now right]. }
    apply G in H as [->|H]; [left; now left | now right].
Qed.

End ModifierInvariants.

(** X20. Every modifier that a directive value of either grammar carries,
    and every modifier [parseModifiersString] returns, has a name that is a
    non-empty run of letters, digits, underscores and hyphens, and none of
    its numeric arguments is [NaN]. *)
Theorem modifiers_are_wellformed (value : string) :
  let wellformed (m : string * list ArgValue) :=
    fst m <> EmptyString /\ all_chars is_name_char (fst m) = true
    /\ Forall (fun a => match a with
                        | ArgNumber n => isNaN n = false
                        | _ => True
                        end) (snd m) in
  Forall wellformed (parseModifiersString value)
  /\ Forall wellformed (eventModifiers (fst (parseDirectiveValue value)))
  /\ Forall wellformed (eventModifiers (parseModelDirective value)).
Proof.
  cbv zeta. split; [|split].
  - apply Forall_forall. intros m. apply parseModifiersString_wellformed.
  - apply Forall_forall. intros m H.
    unfold parseDirectiveValue in H.
    destruct (span is_target_char (trim value)) as [tgt rest].
    cbn [fst eventModifiers] in H.
    destruct rest as [|c r]; [destruct H|].
    destruct (Ascii.eqb c "#"); [|destruct H].
    apply setModifiers_entries in H as [H|[]].
    now apply (parseModifiersString_wellformed r).
  - apply Forall_forall. intros m H.
    unfold parseModelDirective in H.
    destruct (match lastIndexOf "@" value with
              | Some atIndex => (drop (atIndex + 1) value, take atIndex value)
              | None => (EmptyString, value)
              end) as [evt rest1].
    destruct (match indexOf "#" rest1 with
              | Some hashIndex => (drop (hashIndex + 1) rest1, take hashIndex rest1)
              | None => (EmptyString, rest1)
              end) as [modifiersStr rest2].
    destruct (match indexOf ":" rest2 with
              | Some colonIndex => (take colonIndex rest2, drop (colonIndex + 1) rest2)
              | None => (rest2, EmptyString)
              end) as [tgt dom].
    cbn [eventModifiers] in H.
    destruct (non_empty modifiersStr); [|destruct H].
    apply setModifiers_entries in H as [H|[]].
    now apply (parseModifiersString_wellformed modifiersStr).
Qed.

(** ** A signal shared by several contexts *)

Section SharedSignal.

Context {W Err : Type}.

Local Abbreviation Runtime := (@Runtime W Err).

Lemma fold_callListener_queued (ls : list Listener) (rt : Runtime) (c : nat) :
  queued (fold_left callListener ls rt) c
  = if existsb (fun l => match l with DisposeListener c' => Nat.eqb c c' end) ls
    then [] else queued rt c.
Proof.
  revert rt. induction ls as [|[c'] ls IH]; intros rt; [reflexivity|].
  cbn [fold_left existsb callListener]. rewrite IH.
  destruct (existsb _ ls); [now rewrite orb_true_r|].
  rewrite orb_false_r. destruct (Nat.eqb c c') eqn:E.
  - apply Nat.eqb_eq in E. subst. apply queued_dispose.
  - apply Nat.eqb_neq in E. apply queued_dispose_other. congruence.
Qed.

Lemma fold_callListener_signals (ls : list Listener) (rt : Runtime) :
  signals (fold_left callListener ls rt) = signals rt.
Proof.
  revert rt. induction ls as [|[c'] ls IH]; intros rt; [reflexivity|].
  cbn [fold_left callListener]. rewrite IH. apply signals_dispose.
Qed.

Lemma fold_callListener_dispose (ls : list Listener) (rt : Runtime) :
  fold_left callListener ls rt
  = fold_left (fun r c => dispose c r) (map listenerContext ls) rt.
Proof.
  revert rt. induction ls as [|[c] ls IH]; intros rt; [reflexivity|].
  cbn [fold_left map listenerContext callListener]. apply IH.
Qed.

Lemma cleanup_effects_app (a b : list (@Cleanup W Err)) (w : W) :
  cleanup_effects (a ++ b) w
  = (fst (cleanup_effects b (fst (cleanup_effects a w))),
     snd (cleanup_effects a w) ++ snd (cleanup_effects b (fst (cleanup_effects a w)))).
Proof.
  revert w. induction a as [|fn a IH]; intros w.
  - cbn [app cleanup_effects fst snd]. now destruct (cleanup_effects b w).
  - cbn [app cleanup_effects]. destruct (cleanup_run fn w) as [w'|w' e].
    + apply IH.
    + rewrite IH. destruct (cleanup_effects a w') as [w'' es]. reflexivity.
Qed.

(** A run of [dispose] over contexts of the store goes by the plan. *)
Lemma fold_dispose_plan (queue : nat -> list (@Cleanup W Err))
    (cs seen : list nat) (r : Runtime) :
  (forall c, In c cs -> c < List.length (contexts r)) ->
  (forall c, queued r c = if existsb (Nat.eqb c) seen then [] else queue c) ->
  let plan := disposalPlan queue seen cs in
  let r' := fold_left (fun r c => dispose c r) cs r in
  trace r' = trace r ++ planTrace plan
  /\ world r' = fst (cleanup_effects (planCleanups plan) (world r))
  /\ console r'
     = console r ++ map CleanupError (snd (cleanup_effects (planCleanups plan) (world r))).
Proof.
  revert seen r. induction cs as [|c cs IH]; intros seen r Hin Hq; cbv zeta.
  - cbn [fold_left disposalPlan planTrace planCleanups flat_map cleanup_effects
         fst snd map]. now rewrite !app_nil_r.
  - cbn [fold_left disposalPlan].
    assert (Hc : c < List.length (contexts r)) by (apply Hin; now left).
    destruct (nth_error (contexts r) c) as [h|] eqn:Hh;
      [|apply nth_error_None in Hh; lia].
    assert (Hqc : (if existsb (Nat.eqb c) seen then [] else queue c) = unsubscribers h).
    { rewrite <- Hq. unfold queued. now rewrite Hh. }
    rewrite Hqc.
    assert (Hin' : forall c', In c' cs -> c' < List.length (contexts (dispose c r))).
    { intros c' H. rewrite length_contexts_dispose. apply Hin. now right. }
    assert (Hq' : forall c', queued (dispose c r) c'
                  = if existsb (Nat.eqb c') (c :: seen) then [] else queue c').
    { intros c'. cbn [existsb]. destruct (Nat.eqb c' c) eqn:E.
      - apply Nat.eqb_eq in E. subst c'. apply queued_dispose.
      - apply Nat.eqb_neq in E. rewrite queued_dispose_other by congruence.
        apply Hq. }
    destruct (IH (c :: seen) (dispose c r) Hin' Hq') as [Ht [Hw Hl]].
    rewrite Ht, Hw, Hl. rewrite (dispose_spec r c h Hh).
    cbn [trace world console].
    set (plan := disposalPlan queue (c :: seen) cs).
    unfold planTrace, planCleanups. cbn [flat_map fst snd].
    fold (planTrace plan). fold (planCleanups plan).
    rewrite cleanup_effects_app. cbn [fst snd].
    rewrite map_app, <- !app_assoc. cbn [app].
    repeat split; reflexivity.
Qed.

Lemma ran_planTrace (plan : list (nat * list (@Cleanup W Err))) :
  ran (planTrace plan) = map cleanup_id (planCleanups plan).
Proof.
  induction plan as [|[c fns] plan IH]; [reflexivity|].
  change (planTrace ((c, fns) :: plan))
    with ((Disposed c :: map (fun fn => Ran (cleanup_id fn)) fns) ++ planTrace plan).
  change (planCleanups ((c, fns) :: plan)) with (fns ++ planCleanups plan).
  rewrite ran_app, map_app, IH. f_equal.
  change (ran (Disposed c :: map (fun fn => Ran (cleanup_id fn)) fns))
    with (ran (map (fun fn => Ran (cleanup_id fn)) fns)).
  apply ran_cleanups.
Qed.

(** The plan holds the queue of every context it disposes of. *)
Lemma disposalPlan_complete (queue : nat -> list (@Cleanup W Err))
    (cs seen : list nat) (c : nat) (fn : @Cleanup W Err) :
  In c cs -> existsb (Nat.eqb c) seen = false -> In fn (queue c) ->
  In fn (planCleanups (disposalPlan queue seen cs)).
Proof.
  revert seen. induction cs as [|c0 cs IH]; intros seen Hin Hs Hfn; [destruct Hin|].
  cbn [disposalPlan]. unfold planCleanups. cbn [flat_map snd].
  apply in_or_app. destruct (Nat.eqb c c0) eqn:E.
  - apply Nat.eqb_eq in E. subst c0. left. now rewrite Hs.
  - right. destruct Hin as [->|Hin]; [now rewrite Nat.eqb_refl in E|].
    apply (IH (c0 :: seen) Hin); [|exact Hfn].
    cbn [existsb]. now rewrite E, Hs.
Qed.

End SharedSignal.

(** X21. Aborting a live signal disposes of every context that has a
    listener on it, whichever contexts share the signal: the result is the
    run of [dispose] over the contexts of the listeners, in the order of
    registration, on the runtime in which the signal is aborted and has no
    listener.  When these contexts are in the store, the run goes by the
    plan: the first [dispose] of a context calls the cleanup functions queued
    in it, in order, every later one finds its queue empty; trace, world and
    console are those of calling the cleanup functions of the plan one after
    the other, each inside its own [try], and every cleanup function queued
    in a context with a listener is among them.  Afterwards no cleanup
    function is queued in any of those contexts, every other context keeps
    its queue, and aborting again changes nothing. *)
Theorem abort_disposes_every_listener {W Err : Type}
    (rt : @Runtime W Err) (s : nat) (a : AbortSignal) :
  nth_error (signals rt) s = Some a ->
  aborted a = false ->
  let rt' := abort s rt in
  let cs := map listenerContext (abortListeners a) in
  let plan := disposalPlan (queued rt) [] cs in
  nth_error (signals rt') s = Some (mkAbortSignal true [])
  /\ (forall c, In (DisposeListener c) (abortListeners a) -> queued rt' c = [])
  /\ (forall c, ~ In (DisposeListener c) (abortListeners a) ->
                queued rt' c = queued rt c)
  /\ abort s rt' = rt'
  /\ rt' = fold_left (fun r c => dispose c r) cs
                     (set_signal s (mkAbortSignal true []) rt)
  /\ (Forall (fun c => c < List.length (contexts rt)) cs ->
      trace rt' = trace rt ++ planTrace plan
      /\ ran (trace rt') = ran (trace rt) ++ map cleanup_id (planCleanups plan)
      /\ world rt' = fst (cleanup_effects (planCleanups plan) (world rt))
      /\ console rt'
         = console rt
           ++ map CleanupError (snd (cleanup_effects (planCleanups plan) (world rt))))
  /\ (forall c fn, In (DisposeListener c) (abortListeners a) ->
                   In fn (queued rt c) -> In fn (planCleanups plan)).
Proof.
  intros Hs Ha rt' cs plan.
  assert (E : rt' = fold_left callListener (abortListeners a)
                      (set_signal s (mkAbortSignal true []) rt)).
  { unfold rt', abort. now rewrite Hs, Ha. }
  assert (Hsig : nth_error (signals rt') s = Some (mkAbortSignal true [])).
  { rewrite E, fold_callListener_signals. cbn [set_signal signals].
    apply nth_error_update_same. eapply nth_error_Some_lt; eassumption. }
  split; [exact Hsig|]. split; [|split; [|split; [|split; [|split]]]].
  - intros c Hin. rewrite E, fold_callListener_queued.
    assert (Hex : existsb (fun l => match l with
                                    | DisposeListener c' => Nat.eqb c c'
                                    end) (abortListeners a) = true).
    { apply existsb_exists. exists (DisposeListener c).
      split; [exact Hin | apply Nat.eqb_refl]. }
    now rewrite Hex.
  - intros c Hnot. rewrite E, fold_callListener_queued.
    destruct (existsb _ (abortListeners a)) eqn:Hex; [|reflexivity].
    apply existsb_exists in Hex as [[c'] [Hin Hc]].
    apply Nat.eqb_eq in Hc. subst c'. contradiction.
  - apply abort_dead. now rewrite Hsig.
  - rewrite E. apply fold_callListener_dispose.
  - intros Hcs.
    destruct (fold_dispose_plan (queued rt) cs []
                (set_signal s (mkAbortSignal true []) rt)) as [Ht [Hw Hl]].
    + intros c Hin. cbn [set_signal contexts].
      rewrite Forall_forall in Hcs. now apply Hcs.
    + intros c. reflexivity.
    + cbv zeta in Ht, Hw, Hl. fold plan in Ht, Hw, Hl.
      assert (E2 : fold_left (fun r c => dispose c r) cs
                             (set_signal s (mkAbortSignal true []) rt) = rt')
        by (rewrite E; symmetry; apply fold_callListener_dispose).
      rewrite E2 in Ht, Hw, Hl.
      cbn [set_signal trace world console] in Ht, Hw, Hl.
      split; [exact Ht|]. split; [|split; [exact Hw | exact Hl]].
      now rewrite Ht, ran_app, ran_planTrace.
  - intros c fn Hin Hfn. unfold plan.
    apply (disposalPlan_complete (queued rt) cs [] c fn); [|reflexivity | exact Hfn].
    unfold cs. apply in_map_iff. exists (DisposeListener c). now split.
Qed.

Lemma abort_disposes_every_listener_witness :
  let rt := @mkRuntime nat string 0
              [mkHandlerContext Null (Some 0) Null [mkCleanup 1 (fun w => Returns (S w))];
               mkHandlerContext Null (Some 0) Null [mkCleanup 2 (fun w => Returns (S w))];
               mkHandlerContext Null None Null [mkCleanup 3 (fun w => Returns (S w))]]
              [mkAbortSignal false [DisposeListener 0; DisposeListener 1; DisposeListener 0]]
              [] [] in
  nth_error (signals (abort 0 rt)) 0 = Some (mkAbortSignal true [])
  /\ abort 0 (abort 0 rt) = abort 0 rt
  /\ trace (abort 0 rt) = [Disposed 0; Ran 1; Disposed 1; Ran 2; Disposed 0]
  /\ ran (trace (abort 0 rt)) = [1; 2]
  /\ world (abort 0 rt) = 2.
Proof.
  cbv zeta.
  pose proof (abort_disposes_every_listener
                (@mkRuntime nat string 0
                   [mkHandlerContext Null (Some 0) Null [mkCleanup 1 (fun w => Returns (S w))];
                    mkHandlerContext Null (Some 0) Null [mkCleanup 2 (fun w => Returns (S w))];
                    mkHandlerContext Null None Null [mkCleanup 3 (fun w => Returns (S w))]]
                   [mkAbortSignal false
                      [DisposeListener 0; DisposeListener 1; DisposeListener 0]] [] [])
                0 (mkAbortSignal false
                     [DisposeListener 0; DisposeListener 1; DisposeListener 0])
                eq_refl eq_refl) as H.
  cbv zeta in H. destruct H as [H1 [_ [_ [H4 [_ [H6 _]]]]]].
  destruct (H6 ltac:(repeat constructor)) as [Ht [Hr [Hw _]]].
  split; [exact H1|]. split; [exact H4|].
  split; [exact Ht|]. split; [exact Hr | exact Hw].
Defined.

(** The abort above, run: both contexts on the signal are disposed of, in
    the order of their listeners; the third keeps its cleanup function. *)
Example abort_shared_signal_run :
  let rt := @mkRuntime nat string 0
              [mkHandlerContext Null (Some 0) Null [mkCleanup 1 (fun w => Returns (S w))];
               mkHandlerContext Null (Some 0) Null [mkCleanup 2 (fun w => Returns (S w))];
               mkHandlerContext Null None Null [mkCleanup 3 (fun w => Returns (S w))]]
              [mkAbortSignal false [DisposeListener 0; DisposeListener 1]] [] [] in
  trace (abort 0 rt) = [Disposed 0; Ran 1; Disposed 1; Ran 2]
  /\ world (abort 0 rt) = 2
  /\ map cleanup_id (queued (abort 0 rt) 2) = [3].
Proof. repeat split. Qed.

(** ** Property directives and their keys *)

Section PropertyKeys.

Variable inElementPrototype : string -> bool.
Variable element : Element.

Lemma PropKey_eqb_eq (a b : PropKey) : PropKey_eqb a b = true <-> a = b.
Proof.
  destruct a as [x|x], b as [y|y]; cbn [PropKey_eqb];
    try (split; [discriminate | intros [=]]);
    rewrite String.eqb_eq; split; congruence.
Qed.

Lemma PropKey_set_fresh {V : Type} (k : PropKey) (v : V) (m : list (PropKey * V)) :
  ~ In k (map fst m) -> Map_set PropKey_eqb k v m = m ++ [(k, v)].
Proof.
  induction m as [|[k' v'] m IH]; intros H; [reflexivity|].
  cbn [Map_set]. destruct (PropKey_eqb k' k) eqn:E.
  - apply PropKey_eqb_eq in E. subst. exfalso. apply H. now left.
  - cbn [app]. f_equal. apply IH. intros Hin. apply H. now right.
Qed.

Lemma property_prefix_alone (n : string) :
  startsWith n DIRECTIVE_PREFIXES.PROPERTY = true ->
  startsWith n DIRECTIVE_PREFIXES.ATTRIBUTE = false.
Proof. intros H. now rewrite (startsWith_split _ _ H). Qed.

Lemma scanAttribute_property_hit (st : ScanState) (n v : string) :
  startsWith n DIRECTIVE_PREFIXES.PROPERTY = true ->
  propertyDirectives (scan_directives (scanAttribute inElementPrototype element st (n, v)))
  = Map_set PropKey_eqb
      match isNativePropertyName inElementPrototype n DIRECTIVE_PREFIXES.PROPERTY with
      | Some k =>
          if truthy_key (isNativePropertyName inElementPrototype n
                                              DIRECTIVE_PREFIXES.PROPERTY)
          then k
          else KeyName (attributeNameToPropertyName n DIRECTIVE_PREFIXES.PROPERTY)
      | None => KeyName (attributeNameToPropertyName n DIRECTIVE_PREFIXES.PROPERTY)
      end
      (fst (parseDirectiveValue v)) (propertyDirectives (scan_directives st)).
Proof.
  intros H. destruct st as [[d f] l].
  unfold scanAttribute. rewrite (property_prefix_alone n H), H.
  destruct (parseDirectiveValue v); reflexivity.
Qed.

Lemma scanAttribute_property_miss (st : ScanState) (n v : string) :
  startsWith n DIRECTIVE_PREFIXES.PROPERTY = false ->
  propertyDirectives (scan_directives (scanAttribute inElementPrototype element st (n, v)))
  = propertyDirectives (scan_directives st).
Proof.
  intros H. destruct st as [[d f] l].
  unfold scanAttribute, parseAttributeDirective, parseBehaviorDirective. rewrite H.
  destruct (startsWith n DIRECTIVE_PREFIXES.ATTRIBUTE).
  { destruct (parseDirectiveValue v); reflexivity. }
  destruct (startsWith n DIRECTIVE_PREFIXES.BEHAVIOR).
  { destruct (parseDirectiveValue v); reflexivity. }
  destruct (String.eqb n DIRECTIVE_PREFIXES.MODEL).
  { destruct (negb (isValidForTwoWayBinding element)); reflexivity. }
  destruct (startsWith n (DIRECTIVE_PREFIXES.CLASS ++ "-") || String.eqb n DIRECTIVE_PREFIXES.CLASS);
    reflexivity.
Qed.

Lemma scan_properties (key : string -> PropKey) (l : list (string * string))
    (st : ScanState) :
  (forall n, key n
             = match isNativePropertyName inElementPrototype n
                       DIRECTIVE_PREFIXES.PROPERTY with
               | Some k =>
                   if truthy_key (isNativePropertyName inElementPrototype n
                                                       DIRECTIVE_PREFIXES.PROPERTY)
                   then k
                   else KeyName (attributeNameToPropertyName n DIRECTIVE_PREFIXES.PROPERTY)
               | None => KeyName (attributeNameToPropertyName n DIRECTIVE_PREFIXES.PROPERTY)
               end) ->
  NoDup (map fst (propertyDirectives (scan_directives st))
         ++ map (fun a => key (fst a))
                (filter (fun a => startsWith (fst a) DIRECTIVE_PREFIXES.PROPERTY) l)) ->
  propertyDirectives
    (scan_directives (fold_left (scanAttribute inElementPrototype element) l st))
  = propertyDirectives (scan_directives st)
    ++ map (fun a => (key (fst a), fst (parseDirectiveValue (snd a))))
           (filter (fun a => startsWith (fst a) DIRECTIVE_PREFIXES.PROPERTY) l).
Proof.
  intros Hkey. revert st. induction l as [|[n v] l IH]; intros st H.
  - cbn [fold_left filter map]. now rewrite app_nil_r.
  - cbn [fold_left filter fst] in *.
    destruct (startsWith n DIRECTIVE_PREFIXES.PROPERTY) eqn:E.
    + cbn [map fst snd] in *.
      assert (Hfresh : ~ In (key n) (map fst (propertyDirectives (scan_directives st)))).
      { apply NoDup_remove_2 in H. intros Hin. apply H.
        apply in_or_app. now left. }
      rewrite IH; rewrite (scanAttribute_property_hit st n v E), <- (Hkey n),
                    (PropKey_set_fresh _ _ _ Hfresh).
      * now rewrite <- app_assoc.
      * rewrite map_app, <- app_assoc. exact H.
    + rewrite IH; rewrite (scanAttribute_property_miss st n v E);
        [reflexivity | exact H].
Qed.

End PropertyKeys.

(** X22. The property directives of a scan are the [data-p-*] attributes
    in their order, each with its value parsed by [parsePropertyDirective]
    and under the key the code chooses for its name, when these keys are
    different from one another.  For a name that, apart from letter case,
    is one of the seven of the table [nativeProps], the key is the DOM's
    spelling of the property, whatever the host knows. *)
Theorem parseDirectives_property_keys
    (inElementPrototype : string -> bool) (element : Element)
    (attrs : list (string * string)) :
  let key := fun n =>
    match isNativePropertyName inElementPrototype n DIRECTIVE_PREFIXES.PROPERTY with
    | Some k =>
        if truthy_key (isNativePropertyName inElementPrototype n
                                            DIRECTIVE_PREFIXES.PROPERTY)
        then k
        else KeyName (attributeNameToPropertyName n DIRECTIVE_PREFIXES.PROPERTY)
    | None => KeyName (attributeNameToPropertyName n DIRECTIVE_PREFIXES.PROPERTY)
    end in
  let properties :=
    filter (fun a => startsWith (fst a) DIRECTIVE_PREFIXES.PROPERTY) attrs in
  (NoDup (map (fun a => key (fst a)) properties) ->
   propertyDirectives (fst (parseDirectives inElementPrototype element (Some attrs)))
   = map (fun a => (key (fst a), fst (parsePropertyDirective (snd a)))) properties)
  /\ (forall rest native,
        Map_get String.eqb (toLowerCase rest) nativeProps = Some native ->
        key (DIRECTIVE_PREFIXES.PROPERTY ++ rest)%string = KeyName native).
Proof.
  intros key properties. split.
  - intros H.
    destruct (parseDirectives_fields inElementPrototype element attrs)
      as [_ [Ep _]].
    cbv zeta in Ep. rewrite Ep.
    rewrite (scan_properties inElementPrototype element key attrs _
               (fun n => eq_refl)); [reflexivity|].
    cbn [scan_directives fst new_ParsedDirectives propertyDirectives map app].
    exact H.
  - intros rest native Hn. unfold key, isNativePropertyName.
    rewrite startsWith_append, drop_append, Hn. cbn [truthy_key].
    assert (Hne : non_empty native = true).
    { clear -Hn. unfold nativeProps in Hn. cbn [Map_get] in Hn.
      repeat match type of Hn with
             | (if ?b then _ else _) = _ =>
                 destruct b; [injection Hn as <-; reflexivity|]
             end.
      discriminate. }
    now rewrite Hne.
Qed.

Lemma parseDirectives_property_keys_witness :
  propertyDirectives
    (fst (parseDirectives (fun n => String.eqb n "value")
            (mkElement 1 "INPUT" (Some "text") "inherit" [])
            (Some [("data-p-innerhtml", "content"); ("data-p-value", "name");
                   ("data-p-scroll-top", "offset")])))
  = [(KeyName "innerHTML", fst (parsePropertyDirective "content"));
     (KeyName "value", fst (parsePropertyDirective "name"));
     (KeyName "scrollTop", fst (parsePropertyDirective "offset"))].
Proof.
  apply (proj1 (parseDirectives_property_keys (fun n => String.eqb n "value")
                  (mkElement 1 "INPUT" (Some "text") "inherit" [])
                  [("data-p-innerhtml", "content"); ("data-p-value", "name");
                   ("data-p-scroll-top", "offset")])).
  vm_compute. repeat constructor; simpl; intuition discriminate.
Defined.

(** ** From the attribute value to the state *)

(** X23. The paths of a parsed model directive: for a value written in the
    directive syntax, [targetParts] is the path of the target as written and
    [domPropertyParts] the path of the DOM property, which is the path of
    one empty segment when no DOM property is written; reading the state at
    [targetParts] is reading it at the target given as a string; and for a
    target that [isValidPropertyName] accepts and that holds no two
    underscores in a row, [targetParts] is the target split at its dots,
    without an empty segment. *)
Theorem parsed_directive_paths {W Err : Type}
    (primitiveGet : JsValue -> string -> JsValue) (h : @HandlerContext W Err)
    (tgt : string) (dom mods evt : option string) (defaultValue : option JsValue) :
  absent ":" tgt = true ->
  absent "#" tgt = true ->
  match dom with Some p => absent "#" p = true | None => True end ->
  match evt with
  | Some e => absent "@" e = true
  | None => absent "@" (directiveSyntax tgt dom mods None) = true
  end ->
  let d := parseModelDirective (directiveSyntax tgt dom mods evt) in
  targetParts d = propertyNameToPath tgt
  /\ domPropertyParts d = propertyNameToPath (or_empty dom)
  /\ (dom = None -> domPropertyParts d = [EmptyString])
  /\ HandlerContext_get primitiveGet h (PathArray (targetParts d)) defaultValue
     = HandlerContext_get primitiveGet h (PathString tgt) defaultValue
  /\ (isValidPropertyName tgt = true -> includes tgt "__" = false ->
      targetParts d = split "." tgt
      /\ Forall (fun seg => seg <> EmptyString) (targetParts d)).
Proof.
  intros Hc Hh Hd He d.
  assert (E : d = mkDirectiveValue tgt (or_empty dom) (or_empty evt)
                    (setModifiers (parseModifiersString (or_empty mods)) []))
    by now apply parseModelDirective_syntax.
  rewrite E. unfold targetParts, domPropertyParts. cbn [target domProperty].
  split; [reflexivity|]. split; [reflexivity|].
  split; [now intros ->|]. split; [reflexivity|].
  intros Hv Hu.
  destruct (isValidPropertyName_checks tgt Hv) as [Hne [_ [Hdd [Hend Hs]]]].
  assert (P : propertyNameToPath tgt = split "." tgt).
  { unfold propertyNameToPath. rewrite (replaceAll_no_occurrence _ _ _ Hdd).
    apply (map_fixed _ _ _ (split_pieces_includes "." "__" (String.length tgt) tgt
                              (le_n _) Hu)).
    intros seg Hseg. apply replaceAll_no_occurrence.
    exact (includes_longer seg "__" "DOT_MARKER__" Hseg). }
  split; [exact P|]. rewrite P.
  exact (split_segments_nonempty "." (String.length tgt) tgt (le_n _) Hne Hs Hend Hdd).
Qed.

Lemma parsed_directive_paths_witness :
  targetParts (parseModelDirective "form.user_name:value#trim@input")
  = ["form"; "user_name"]
  /\ domPropertyParts (parseModelDirective "form.user_name:value#trim@input")
     = ["value"].
Proof.
  pose proof (@parsed_directive_paths nat string (fun _ _ => Undefined)
                (mkHandlerContext falsy_state None Null [])
                "form.user_name" (Some "value") (Some "trim") (Some "input") None
                eq_refl eq_refl eq_refl eq_refl) as H.
  cbv zeta in H. destruct H as [H1 [H2 _]].
  split; [exact H1 | exact H2].
Defined.

(** The tests of the repository for the two getters. *)
Example test_targetParts :
  targetParts new_DirectiveValue = [""]
  /\ domPropertyParts new_DirectiveValue = [""]
  /\ targetParts (mkDirectiveValue "user.profile.email" "" "" [])
     = ["user"; "profile"; "email"]
  /\ targetParts (parseModelDirective "items.0.name") = ["items"; "0"; "name"].
Proof. repeat split. Qed.
